(** * Sample-pack binary codec (src/js/parsers/samples_parser.ts)

    A shallow embedding of the [ByteArray] helper class, of
    [samplesParser_encode], [samplesParser_decode], [getPageByteSize] and
    [getPackSize], followed by the properties of the codec.

    JavaScript numbers are modelled by [Z]: every number the codec handles
    is an integer, and the bitwise operators are written out with the
    32-bit conversions the language performs on their operands. *)

From Stdlib Require Import ZArith Lia Bool.
From stdpp Require Import base option list.

Local Open Scope Z_scope.

(** ** JavaScript integer operators *)

Module JS.

(** [ToInt32]: wrap to the signed 32-bit range. *)
Definition toInt32 (x : Z) : Z := (x + 2 ^ 31) mod 2 ^ 32 - 2 ^ 31.

(** [ToUint32]: wrap to the unsigned 32-bit range. *)
Definition toUint32 (x : Z) : Z := x mod 2 ^ 32.

(** [a & b] *)
Definition and (a b : Z) : Z := Z.land (toInt32 a) (toInt32 b).

(** [a | b] *)
Definition or (a b : Z) : Z := Z.lor (toInt32 a) (toInt32 b).

(** [a << n]: the shift count is taken modulo 32, the result is
    wrapped to 32 bits. *)
Definition shl (a n : Z) : Z :=
  toInt32 (Z.shiftl (toInt32 a) (Z.land (toUint32 n) 31)).

(** [a >> n]: sign-propagating shift of the 32-bit value. *)
Definition sar (a n : Z) : Z :=
  Z.shiftr (toInt32 a) (Z.land (toUint32 n) 31).

(** [a >>> n]: zero-filling shift of the unsigned 32-bit value. *)
Definition shr (a n : Z) : Z :=
  Z.shiftr (toUint32 a) (Z.land (toUint32 n) 31).

End JS.

(** ** Exceptions and results *)

(** The exceptions the codec can raise.  The three [RangeError]
    constructors follow the three message shapes of [ByteArray];
    [TypeError] is the runtime's answer to a property read on
    [undefined]. *)
Inductive exn : Type :=
| RangeError_out_of_range (value : Z) (bits : Z)
    (* `Value ${value} is out of range for a ${bits}-bit unsigned integer` *)
| RangeError_pop_empty
    (* "Attempted to pop from an empty array" *)
| RangeError_not_enough (bits : Z)
    (* `Not enough data to pop ${bits} bits` *)
| TypeError.

Inductive result (A : Type) : Type :=
| Ok (a : A)
| Throw (e : exn).
Arguments Ok {A} a.
Arguments Throw {A} e.

Definition result_bind {A B : Type} (f : A → result B) (m : result A) : result B :=
  match m with
  | Ok a => f a
  | Throw e => Throw e
  end.

#[global] Instance result_ret : MRet result := @Ok.
#[global] Instance result_mbind : MBind result := @result_bind.

(** [for (const x of l) body] and [for (let i = 0; i < n; i++) body]
    (with [l := seq 0 n]) over a threaded state. *)
Fixpoint foldM {A S : Type} (body : S → A → result S) (s : S) (l : list A) : result S :=
  match l with
  | [] => Ok s
  | x :: l' => s' ← body s x; foldM body s' l'
  end.

(** Reduce the binds whose first computation is a value or a raise. *)
Ltac simpl_bind := cbn [mbind result_mbind result_bind].

(** An underflow is one of the two read-side range errors. *)
Definition is_underflow (e : exn) : bool :=
  match e with
  | RangeError_pop_empty | RangeError_not_enough _ => true
  | _ => false
  end.

(** ** class ByteArray *)

Record ByteArray : Type := mkByteArray { data : list Z }.

Definition ByteArray_new : ByteArray := mkByteArray [].

Definition push8 (value : Z) (self : ByteArray) : result ByteArray :=
  if (value <? 0) || (value >? 0xFF) then Throw (RangeError_out_of_range value 8)
  else Ok (mkByteArray (data self ++ [JS.and value 0xFF])).

Definition push16 (value : Z) (self : ByteArray) : result ByteArray :=
  if (value <? 0) || (value >? 0xFFFF) then Throw (RangeError_out_of_range value 16)
  else Ok (mkByteArray (data self ++ [JS.and value 0xFF;
                                      JS.and (JS.sar value 8) 0xFF])).

Definition push32 (value : Z) (self : ByteArray) : result ByteArray :=
  if (value <? 0) || (value >? 0xFFFFFFFF) then Throw (RangeError_out_of_range value 32)
  else Ok (mkByteArray (data self ++ [JS.and value 0xFF;
                                      JS.and (JS.sar value 8) 0xFF;
                                      JS.and (JS.sar value 16) 0xFF;
                                      JS.and (JS.sar value 24) 0xFF])).

Definition pop8 (self : ByteArray) : result (Z * ByteArray) :=
  match data self with
  | b :: rest => Ok (b, mkByteArray rest)
  | _ => Throw RangeError_pop_empty
  end.

Definition pop16 (self : ByteArray) : result (Z * ByteArray) :=
  match data self with
  | lsb :: msb :: rest => Ok (JS.or lsb (JS.shl msb 8), mkByteArray rest)
  | _ => Throw (RangeError_not_enough 16)
  end.

Definition pop32 (self : ByteArray) : result (Z * ByteArray) :=
  match data self with
  | b0 :: b1 :: b2 :: b3 :: rest =>
      let value := JS.or (JS.or (JS.or b0 (JS.shl b1 8)) (JS.shl b2 16)) (JS.shl b3 24) in
      Ok (JS.shr value 0, mkByteArray rest)
  | _ => Throw (RangeError_not_enough 32)
  end.

(** [add(other)]: [this.data.push(...other.data)]. *)
Definition add (other : ByteArray) (self : ByteArray) : ByteArray :=
  mkByteArray (data self ++ data other).

(** A [Uint8Array] is a sequence of numbers; [Uint8Array.from] stores
    every element modulo 2^8. *)
Abbreviation Uint8Array := (list Z).

Definition Uint8Array_from (a : list Z) : Uint8Array := (λ v, v mod 256) <$> a.

(** [ByteArray.from(array)]: [Array.from] copies the elements. *)
Definition ByteArray_from (array : Uint8Array) : ByteArray := mkByteArray array.

(** ** Data model *)

Definition TICKS_PER_BEAT : Z := 24.
Definition NUM_PAGES : nat := 10.
Definition LOOPS_PER_PAGE : nat := 15.

Record NoteEvent : Type := mkNoteEvent { note : Z; state : Z; velocity : Z }.

(** Tuple of time ticks and note event. *)
Definition NoteEventTime : Type := Z * NoteEvent.

Record LoopData : Type := mkLoopData {
  length_beats : Z;
  events : list NoteEventTime
}.

(** [loops] may hold [null] in a slot ([None]); an index past the end of
    the array reads [undefined] ([loops !! i = None]). *)
Record Page : Type := mkPage {
  id : Z;
  loops : list (option LoopData)
}.

(** The four reserved words are optional properties: [None] is an
    omitted one, which reads [undefined]. *)
Record SamplePack : Type := mkSamplePack {
  reserved0 : option Z;
  reserved1 : option Z;
  reserved2 : option Z;
  reserved3 : option Z;
  pages : list Page
}.

(** ** samplesParser_encode *)

(** [push32(undefined)]: both comparisons of the range check are false on
    [undefined] and every bitwise operator reads it as 0, so the call
    appends four zero bytes, as [push32(0)] does. *)
Definition push32_opt (value : option Z) (self : ByteArray) : result ByteArray :=
  push32 (default 0 value) self.

(** Body of [for (const event of loop.events)]. *)
Definition encode_event (loopData : ByteArray) (event : NoteEventTime) : result ByteArray :=
  let '(ticks, noteEvent) := event in
  loopData ← push8 (JS.and (note noteEvent) 0x7F) loopData;
  let data := JS.or (JS.shl (state noteEvent) 7) (JS.and (velocity noteEvent) 0x7F) in
  loopData ← push8 data loopData;
  push16 ticks loopData.

(** Body of the loop over [loop_idx]; the state is the pair
    [(loopOffsets, loopData)]. *)
Definition encode_slot (page : Page) (st : ByteArray * ByteArray) (loop_idx : nat)
  : result (ByteArray * ByteArray) :=
  let '(loopOffsets, loopData) := st in
  match loops page !! loop_idx with
  | Some (Some loop) =>
      loopOffsets ← push16 (Z.of_nat (length (data loopData))) loopOffsets;
      loopData ← push8 (length_beats loop) loopData;
      loopData ← push8 (Z.of_nat (length (events loop))) loopData;
      loopData ← foldM encode_event loopData (events loop);
      Ok (loopOffsets, loopData)
  | _ => (* loop == null: null or undefined *)
      loopOffsets ← push16 0xFFFF loopOffsets;
      Ok (loopOffsets, loopData)
  end.

(** Body of the loop over [page_idx]. *)
Definition encode_page (samplePack : SamplePack) (st : ByteArray * ByteArray) (page_idx : nat)
  : result (ByteArray * ByteArray) :=
  match pages samplePack !! page_idx with
  | Some page => foldM (encode_slot page) st (seq 0 LOOPS_PER_PAGE)
  | None => Throw TypeError
  end.

(** Body of the loop writing the page ids. *)
Definition encode_page_id (samplePack : SamplePack) (d : ByteArray) (i : nat) : result ByteArray :=
  match pages samplePack !! i with
  | Some page => push16 (id page) d
  | None => Throw TypeError
  end.

Definition samplesParser_encode (samplePack : SamplePack) : result Uint8Array :=
  let d := ByteArray_new in
  d ← push32_opt (reserved0 samplePack) d;
  d ← push32_opt (reserved1 samplePack) d;
  d ← push32_opt (reserved2 samplePack) d;
  d ← push32_opt (reserved3 samplePack) d;
  d ← foldM (encode_page_id samplePack) d (seq 0 NUM_PAGES);
  '(loopOffsets, loopData) ←
    foldM (encode_page samplePack) (ByteArray_new, ByteArray_new) (seq 0 NUM_PAGES);
  let d := add loopOffsets d in
  let d := add loopData d in
  Ok (Uint8Array_from (data d)).

(** ** samplesParser_decode *)

(** Body of [for (let i = 0; i < numEvents; i++)]; the state is
    [(loop.events, d)]. *)
Definition decode_event (st : list NoteEventTime * ByteArray) (i : nat)
  : result (list NoteEventTime * ByteArray) :=
  let '(evs, d) := st in
  '(b, d) ← pop8 d;
  let note := JS.and b 0x7F in
  '(data, d) ← pop8 d;
  let state := JS.and (JS.sar data 7) 0x01 in
  let velocity := JS.and data 0x7F in
  '(ticks, d) ← pop16 d;
  Ok (evs ++ [(ticks, mkNoteEvent note state velocity)], d).

(** Body of the loop over [loop_idx]; the state is [(page.loops, d)].
    [loopExists[i] == false] holds of [false] only: an index past the
    end reads [undefined], which is not loosely equal to [false]. *)
Definition decode_slot (loopExists : list bool) (page_idx : nat)
    (st : list (option LoopData) * ByteArray) (loop_idx : nat)
  : result (list (option LoopData) * ByteArray) :=
  let '(page_loops, d) := st in
  match loopExists !! (page_idx * NUM_PAGES + loop_idx)%nat with
  | Some false => Ok (page_loops ++ [None], d)
  | _ =>
      '(lb, d) ← pop8 d;
      '(numEvents, d) ← pop8 d;
      '(evs, d) ← foldM decode_event ([], d) (seq 0 (Z.to_nat numEvents));
      Ok (page_loops ++ [Some (mkLoopData lb evs)], d)
  end.

(** Body of the loop over [page_idx]; the state is [(p.pages, d)], the
    page object is updated in place. *)
Definition decode_page (loopExists : list bool) (st : list Page * ByteArray) (page_idx : nat)
  : result (list Page * ByteArray) :=
  let '(ps, d) := st in
  match ps !! page_idx with
  | Some page =>
      '(page_loops, d) ←
        foldM (decode_slot loopExists page_idx) (loops page, d) (seq 0 LOOPS_PER_PAGE);
      Ok (<[page_idx := mkPage (id page) page_loops]> ps, d)
  | None => Throw TypeError
  end.

(** Body of the loop extracting the page ids. *)
Definition decode_page_id (st : list Page * ByteArray) (i : nat) : result (list Page * ByteArray) :=
  let '(ps, d) := st in
  '(v, d) ← pop16 d;
  Ok (ps ++ [mkPage v []], d).

(** Body of the loop filling [loopExists]. *)
Definition decode_exists (st : list bool * ByteArray) (i : nat) : result (list bool * ByteArray) :=
  let '(loopExists, d) := st in
  '(v, d) ← pop16 d;
  Ok (loopExists ++ [if v =? 0xFFFF then false else true], d).

Definition samplesParser_decode (packedData : Uint8Array) : result SamplePack :=
  let d := ByteArray_from packedData in
  '(r0, d) ← pop32 d;
  '(r1, d) ← pop32 d;
  '(r2, d) ← pop32 d;
  '(r3, d) ← pop32 d;
  '(ps, d) ← foldM decode_page_id ([], d) (seq 0 NUM_PAGES);
  '(loopExists, d) ← foldM decode_exists ([], d) (seq 0 (NUM_PAGES * LOOPS_PER_PAGE));
  '(ps, d) ← foldM (decode_page loopExists) (ps, d) (seq 0 NUM_PAGES);
  Ok (mkSamplePack (Some r0) (Some r1) (Some r2) (Some r3) ps).

(** ** getPageByteSize, getPackSize *)

Definition getPageByteSize (page : Page) : Z :=
  fold_left
    (λ size loop,
       match loop with
       | None => size
       | Some loop => fold_left (λ size _, size + 4) (events loop) (size + 1 + 1)
       end)
    (loops page) 0.

Definition getPackSize (pack : SamplePack) : Z :=
  fold_left (λ size page, size + getPageByteSize page) (pages pack) 0.

(** ** Sample packs used in the examples *)

Definition emptyPage : Page := mkPage 0xFFFF (replicate LOOPS_PER_PAGE None).

(** Ten empty pages, reserved words all ones, as [generateDummySamples]
    builds them before it fills in pages 1 and 2. *)
Definition emptyPack : SamplePack :=
  mkSamplePack (Some 0xFFFFFFFF) (Some 0xFFFFFFFF) (Some 0xFFFFFFFF) (Some 0xFFFFFFFF)
               (replicate NUM_PAGES emptyPage).

(** [pack.pages[p].loops[s] = loop] *)
Definition set_loop (p s : nat) (loop : option LoopData) (pack : SamplePack) : SamplePack :=
  mkSamplePack (reserved0 pack) (reserved1 pack) (reserved2 pack) (reserved3 pack)
    (alter (λ page, mkPage (id page) (<[s := loop]> (loops page))) p (pages pack)).

Definition beat : LoopData :=
  mkLoopData 4 [(0, mkNoteEvent 36 1 99); (12, mkNoteEvent 36 0 99)].

(** Page 1 holds one two-event loop in its first slot. *)
Definition onePack : SamplePack := set_loop 1 0 (Some beat) emptyPack.

(** ** Wire image of the encoder *)

(** The bytes [push16] and [push32] append for a value in range. *)
Definition le16 (v : Z) : list Z := [v mod 256; v / 2 ^ 8 mod 256].
Definition le32 (v : Z) : list Z :=
  [v mod 256; v / 2 ^ 8 mod 256; v / 2 ^ 16 mod 256; v / 2 ^ 24 mod 256].

(** The packed state/velocity byte, as [samplesParser_encode] computes it. *)
Definition packed (noteEvent : NoteEvent) : Z :=
  JS.or (JS.shl (state noteEvent) 7) (JS.and (velocity noteEvent) 0x7F).

Definition event_encodable (event : NoteEventTime) : Prop :=
  0 <= packed event.2 <= 0xFF ∧ 0 <= event.1 <= 0xFFFF.

Definition event_bytes (event : NoteEventTime) : list Z :=
  [note event.2 mod 128; packed event.2] ++ le16 event.1.

Definition loop_encodable (loop : LoopData) : Prop :=
  0 <= length_beats loop <= 0xFF ∧
  (length (events loop) ≤ 255)%nat ∧
  Forall event_encodable (events loop).

Definition loop_bytes (loop : LoopData) : list Z :=
  [length_beats loop; Z.of_nat (length (events loop))]
  ++ concat (event_bytes <$> events loop).

Definition loop_size (loop : LoopData) : Z := 2 + 4 * Z.of_nat (length (events loop)).

(** The slot the encoder sees at [page.loops[loop_idx]]: [None] for
    [null] and for [undefined]. *)
Definition slot_at (page : Page) (loop_idx : nat) : option LoopData :=
  mjoin (loops page !! loop_idx).

Definition page_slots (page : Page) : list (option LoopData) :=
  slot_at page <$> seq 0 LOOPS_PER_PAGE.

(** The 150 slots in traversal order. *)
Definition pack_slots (pack : SamplePack) : list (option LoopData) :=
  concat (page_slots <$> take NUM_PAGES (pages pack)).

(** What the body of the slot loop does with the slot it has read. *)
Definition encode_loop_opt (st : ByteArray * ByteArray) (loop : option LoopData)
  : result (ByteArray * ByteArray) :=
  let '(loopOffsets, loopData) := st in
  match loop with
  | Some loop =>
      loopOffsets ← push16 (Z.of_nat (length (data loopData))) loopOffsets;
      loopData ← push8 (length_beats loop) loopData;
      loopData ← push8 (Z.of_nat (length (events loop))) loopData;
      loopData ← foldM encode_event loopData (events loop);
      Ok (loopOffsets, loopData)
  | None =>
      loopOffsets ← push16 0xFFFF loopOffsets;
      Ok (loopOffsets, loopData)
  end.

(** Every present loop is encodable and starts at an offset that
    [push16] accepts; [off] is the length of the loop data before the
    first slot of the list. *)
Fixpoint slots_encodable (off : Z) (sl : list (option LoopData)) : Prop :=
  match sl with
  | [] => True
  | None :: sl => slots_encodable off sl
  | Some loop :: sl =>
      off <= 0xFFFF ∧ loop_encodable loop ∧ slots_encodable (off + loop_size loop) sl
  end.

Fixpoint offsets_bytes (off : Z) (sl : list (option LoopData)) : list Z :=
  match sl with
  | [] => []
  | None :: sl => le16 0xFFFF ++ offsets_bytes off sl
  | Some loop :: sl => le16 off ++ offsets_bytes (off + loop_size loop) sl
  end.

Definition data_bytes (sl : list (option LoopData)) : list Z :=
  concat ((λ o : option LoopData, from_option loop_bytes [] o) <$> sl).

(** Byte length of the loop data of a list of slots. *)
Definition slots_size (sl : list (option LoopData)) : Z :=
  foldr (λ (o : option LoopData) acc, from_option loop_size 0 o + acc) 0 sl.

Definition u16 (v : Z) : Prop := 0 <= v <= 0xFFFF.
Definition u32 (v : Z) : Prop := 0 <= v <= 0xFFFFFFFF.

Definition header_bytes (pack : SamplePack) : list Z :=
  le32 (default 0 (reserved0 pack)) ++ le32 (default 0 (reserved1 pack)) ++
  le32 (default 0 (reserved2 pack)) ++ le32 (default 0 (reserved3 pack)).

Definition ids_bytes (pack : SamplePack) : list Z :=
  concat ((λ page, le16 (id page)) <$> take NUM_PAGES (pages pack)).

Definition pack_encodable (pack : SamplePack) : Prop :=
  (u32 (default 0 (reserved0 pack)) ∧ u32 (default 0 (reserved1 pack)) ∧
   u32 (default 0 (reserved2 pack)) ∧ u32 (default 0 (reserved3 pack))) ∧
  Forall (λ page, u16 (id page)) (take NUM_PAGES (pages pack)) ∧
  slots_encodable 0 (pack_slots pack).

Definition pack_image (pack : SamplePack) : list Z :=
  header_bytes pack ++ ids_bytes pack ++
  offsets_bytes 0 (pack_slots pack) ++ data_bytes (pack_slots pack).

#[global] Arguments NUM_PAGES : simpl never.
#[global] Arguments LOOPS_PER_PAGE : simpl never.
#[global] Arguments le16 : simpl never.
#[global] Arguments le32 : simpl never.
#[global] Arguments packed : simpl never.
#[global] Arguments event_bytes : simpl never.
#[global] Arguments loop_bytes : simpl never.
#[global] Arguments loop_size : simpl never.

(** ** What the encoder returns *)

(** [encodes P r a]: the computation [r] returns [a] when [P] holds and
    raises the [RangeError] of a [push] otherwise. *)
Definition encodes {A : Type} (P : Prop) (r : result A) (a : A) : Prop :=
  (P ∧ r = Ok a) ∨ (¬ P ∧ ∃ v b, r = Throw (RangeError_out_of_range v b)).

(** ** Valid packs *)

(** The two ranges the encoder checks on a loop: the tick offset of
    every event and the number of events. *)
Definition tick_in_range (event : NoteEventTime) : Prop := 0 <= event.1 <= 65535.

Definition count_in_range (loop : LoopData) : Prop := (length (events loop) ≤ 255)%nat.

(** The fields of a note event within their declared bit widths. *)
Definition valid_note_event (noteEvent : NoteEvent) : Prop :=
  0 <= note noteEvent <= 127 ∧
  (state noteEvent = 0 ∨ state noteEvent = 1) ∧
  0 <= velocity noteEvent <= 127.

Definition valid_event (event : NoteEventTime) : Prop :=
  tick_in_range event ∧ valid_note_event event.2.

Definition valid_loop (loop : LoopData) : Prop :=
  0 <= length_beats loop <= 255 ∧
  count_in_range loop ∧
  Forall valid_event (events loop).

Definition valid_page (page : Page) : Prop :=
  0 <= id page <= 65535 ∧
  length (loops page) = LOOPS_PER_PAGE ∧
  Forall (from_option valid_loop True) (loops page).

Definition valid_reserved (o : option Z) : Prop :=
  from_option (λ v, 0 <= v <= 4294967295) False o.

(** Ten pages of fifteen slots, every field in range. *)
Definition valid_fields (pack : SamplePack) : Prop :=
  valid_reserved (reserved0 pack) ∧ valid_reserved (reserved1 pack) ∧
  valid_reserved (reserved2 pack) ∧ valid_reserved (reserved3 pack) ∧
  length (pages pack) = NUM_PAGES ∧
  Forall valid_page (pages pack).

(** A valid pack also keeps its loop-data segment below the sentinel. *)
Definition valid_pack (pack : SamplePack) : Prop :=
  valid_fields pack ∧ getPackSize pack < 0xFFFF.

#[global] Instance tick_in_range_dec event : Decision (tick_in_range event).
Proof. unfold tick_in_range. apply _. Defined.
#[global] Instance count_in_range_dec loop : Decision (count_in_range loop).
Proof. unfold count_in_range. apply _. Defined.
#[global] Instance valid_note_event_dec ev : Decision (valid_note_event ev).
Proof. unfold valid_note_event. apply _. Defined.
#[global] Instance valid_event_dec event : Decision (valid_event event).
Proof. unfold valid_event. apply _. Defined.
#[global] Instance valid_loop_dec loop : Decision (valid_loop loop).
Proof. unfold valid_loop. apply _. Defined.
#[global] Instance from_option_valid_loop_dec o : Decision (from_option valid_loop True o).
Proof. destruct o; simpl; apply _. Defined.
#[global] Instance valid_page_dec page : Decision (valid_page page).
Proof. unfold valid_page. apply _. Defined.
#[global] Instance valid_reserved_dec o : Decision (valid_reserved o).
Proof. destruct o; simpl; apply _. Defined.
#[global] Instance valid_fields_dec pack : Decision (valid_fields pack).
Proof. unfold valid_fields. apply _. Defined.
#[global] Instance valid_pack_dec pack : Decision (valid_pack pack).
Proof. unfold valid_pack. apply _. Defined.

(** ** Packs valid but for the two checked ranges *)

(** A loop valid in every respect other than its event count and its
    tick offsets. *)
Definition valid_loop_other (loop : LoopData) : Prop :=
  0 <= length_beats loop <= 255 ∧
  Forall (λ event : NoteEventTime, valid_note_event event.2) (events loop).

Definition valid_page_other (page : Page) : Prop :=
  0 <= id page <= 65535 ∧
  length (loops page) = LOOPS_PER_PAGE ∧
  Forall (from_option valid_loop_other True) (loops page).

Definition valid_other (pack : SamplePack) : Prop :=
  valid_reserved (reserved0 pack) ∧ valid_reserved (reserved1 pack) ∧
  valid_reserved (reserved2 pack) ∧ valid_reserved (reserved3 pack) ∧
  length (pages pack) = NUM_PAGES ∧
  Forall valid_page_other (pages pack) ∧
  getPackSize pack < 0xFFFF.

#[global] Instance valid_loop_other_dec loop : Decision (valid_loop_other loop).
Proof. unfold valid_loop_other. apply _. Defined.
#[global] Instance from_option_valid_loop_other_dec o :
  Decision (from_option valid_loop_other True o).
Proof. destruct o; simpl; apply _. Defined.
#[global] Instance valid_page_other_dec page : Decision (valid_page_other page).
Proof. unfold valid_page_other. apply _. Defined.
#[global] Instance valid_other_dec pack : Decision (valid_other pack).
Proof. unfold valid_other. apply _. Defined.

(** One event, one tick past the 16-bit range, in the first slot of
    page 0. *)
Definition lateTickPack : SamplePack :=
  set_loop 0 0 (Some (mkLoopData 4 [(65536, mkNoteEvent 36 1 99)])) emptyPack.

(** ** Reading the offset table of an encoded buffer *)

(** Entry [k] of the offset table (bytes 36..335), reassembled the way
    [pop16] does. *)
Definition offset_entry (buf : Uint8Array) (k : nat) : option Z :=
  lsb ← buf !! (36 + 2 * k)%nat;
  msb ← buf !! (36 + 2 * k + 1)%nat;
  Some (JS.or lsb (JS.shl msb 8)).

(** A loop of 255 events, 1022 bytes on the wire. *)
Definition fullLoop : LoopData :=
  mkLoopData 4 (replicate 255 (0, mkNoteEvent 36 1 99)).

(** Pages 0 to 4 full of [fullLoop]s: 75 loops, 76650 bytes. *)
Definition overfullPack : SamplePack :=
  mkSamplePack (Some 0) (Some 0) (Some 0) (Some 0)
    (replicate 5 (mkPage 0 (replicate LOOPS_PER_PAGE (Some fullLoop)))
     ++ replicate 5 emptyPage).

(** ** Padding a short [loops] array with [null] *)

Definition pad_page (page : Page) : Page :=
  mkPage (id page)
         (loops page ++ replicate (LOOPS_PER_PAGE - length (loops page)) None).

(** [pack.pages[i] = page] *)
Definition set_page (i : nat) (page : Page) (pack : SamplePack) : SamplePack :=
  mkSamplePack (reserved0 pack) (reserved1 pack) (reserved2 pack) (reserved3 pack)
               (<[i := page]> (pages pack)).

(** Page 1 with an array of one loop only. *)
Definition shortPage : Page := mkPage 0xDEAD [Some beat].
Definition shortPack : SamplePack := set_page 1 shortPage emptyPack.

(** ** Reading a buffer the way the decoder does *)

(** The 16-bit entries of a byte sequence, paired and reassembled as
    [pop16] does. *)
Fixpoint entries (bytes : list Z) : list Z :=
  match bytes with
  | lsb :: msb :: rest => JS.or lsb (JS.shl msb 8) :: entries rest
  | _ => []
  end.

(** The test of the [loopExists] loop. *)
Definition exists_flag (v : Z) : bool := if v =? 0xFFFF then false else true.

(** ** Masking and the decoder's view of the presence bitmap *)

(** The 7-bit narrowing of [note] and [velocity]. *)
Definition mask_event (event : NoteEventTime) : NoteEventTime :=
  (event.1, mkNoteEvent (JS.and (note event.2) 0x7F)
                        (state event.2)
                        (JS.and (velocity event.2) 0x7F)).

Definition mask_loop (loop : LoopData) : LoopData :=
  mkLoopData (length_beats loop) (mask_event <$> events loop).

Definition mask_page (page : Page) : Page :=
  mkPage (id page) ((λ o : option LoopData, mask_loop <$> o) <$> loops page).

Definition mask_pack (pack : SamplePack) : SamplePack :=
  mkSamplePack (reserved0 pack) (reserved1 pack) (reserved2 pack) (reserved3 pack)
               (mask_page <$> pages pack).

(** Whether slot [k] of the traversal holds a loop. *)
Definition present (pack : SamplePack) (k : nat) : bool :=
  match pack_slots pack !! k with
  | Some (Some _) => true
  | _ => false
  end.

(** The decoder looks up slot [loop_idx] of page [page_idx] at index
    [page_idx * NUM_PAGES + loop_idx] of [loopExists]; the encoder wrote
    it at [page_idx * LOOPS_PER_PAGE + loop_idx].  The two agree on a
    pack when every lookup finds the flag of the slot it is for. *)
Definition presence_agrees (pack : SamplePack) : Prop :=
  Forall (λ page_idx,
    Forall (λ loop_idx,
      present pack (page_idx * NUM_PAGES + loop_idx)
      = present pack (page_idx * LOOPS_PER_PAGE + loop_idx))
      (seq 0 LOOPS_PER_PAGE))
    (seq 0 NUM_PAGES).

#[global] Instance presence_agrees_dec pack : Decision (presence_agrees pack).
Proof. unfold presence_agrees. apply _. Defined.

Definition byte (b : Z) : Prop := 0 <= b < 256.

Definition is_present (o : option LoopData) : bool :=
  match o with Some _ => true | None => false end.

(** ** Packs that the decoder misreads *)

(** One loop, in the first slot of the first page. *)
Definition firstSlotPack : SamplePack := set_loop 0 0 (Some beat) emptyPack.

(** One loop, in the last slot of the last page. *)
Definition lastSlotPack : SamplePack := set_loop 9 14 (Some beat) emptyPack.

(** One loop, in slot 12 of page 0, with one event whose note and
    velocity exceed seven bits. *)
Definition wideLoop : LoopData := mkLoopData 4 [(0, mkNoteEvent 128 1 255)].
Definition widePack : SamplePack := set_loop 0 12 (Some wideLoop) emptyPack.

(** The same loop in the first slot of page 0, with the four boundary
    values of the masking. *)
Definition boundaryLoop : LoopData :=
  mkLoopData 4 [(0, mkNoteEvent 0 1 0); (1, mkNoteEvent 127 1 127);
                (2, mkNoteEvent 128 0 128); (3, mkNoteEvent 255 0 255)].
Definition boundaryPack : SamplePack := set_loop 0 0 (Some boundaryLoop) emptyPack.

(** ** Two buffers that differ in one offset entry *)

(** Header and page ids all ones; one present loop, announced in slot 0
    of page 0 at offset 0 in the first table and at offset 0x1234 in the
    second; one loop of one event in the data segment. *)
Definition prefixBytes : list Z := replicate 36 255.
Definition tableA : list Z := [0; 0] ++ replicate 298 255.
Definition tableB : list Z := [0x34; 0x12] ++ replicate 298 255.
Definition segmentBytes : list Z := [4; 1; 36; 227; 12; 0].

(** ** Further views of packs and buffers *)

(** The part of a pack the encoder reads: the first [NUM_PAGES] pages
    and, of each, the first [LOOPS_PER_PAGE] slots. *)
Definition clip_page (page : Page) : Page :=
  mkPage (id page) (take LOOPS_PER_PAGE (loops page)).

Definition clip_pack (pack : SamplePack) : SamplePack :=
  mkSamplePack (reserved0 pack) (reserved1 pack) (reserved2 pack) (reserved3 pack)
               (clip_page <$> take NUM_PAGES (pages pack)).

(** Nine empty pages only. *)
Definition ninePagePack : SamplePack :=
  mkSamplePack (Some 0) (Some 0) (Some 0) (Some 0) (replicate 9 emptyPage).

(** A writer of one field of each width, and the reader of the same
    three fields. *)
Definition push_fields (a b c : Z) (d : ByteArray) : result ByteArray :=
  d ← push8 a d;
  d ← push16 b d;
  push32 c d.

Definition pop_fields (d : ByteArray) : result (Z * Z * Z * ByteArray) :=
  '(x, d) ← pop8 d;
  '(y, d) ← pop16 d;
  '(z, d) ← pop32 d;
  Ok (x, y, z, d).

(** What the encoder writes in entry [k] of the offset table: the length
    of the loop data before a present loop, the sentinel for an absent
    one. *)
Definition offset_of (sl : list (option LoopData)) (k : nat) : Z :=
  match sl !! k with
  | Some (Some _) => slots_size (take k sl)
  | _ => 0xFFFF
  end.

(** Eleven pages, the last one with a loop the encoder never reaches. *)
Definition elevenPagePack : SamplePack :=
  mkSamplePack (Some 0) (Some 0) (Some 0) (Some 0)
    (replicate 10 emptyPage ++ [mkPage 7 (Some beat :: replicate 14 None)]).

(** The decision the decoder takes on [loopExists[i] == false]: the slot
    is read as a loop unless the flag is there and is [false]. *)
Definition seen (loopExists : list bool) (i : nat) : bool :=
  match loopExists !! i with
  | Some false => false
  | _ => true
  end.

(** A loop body that reads from the front of the array and does not
    look at what lies behind the bytes it consumes. *)
Definition framed {A X : Type} (f : A * ByteArray → X → result (A * ByteArray)) : Prop :=
  ∀ a l x a' l' extra,
    f (a, mkByteArray l) x = Ok (a', mkByteArray l') →
    f (a, mkByteArray (l ++ extra)) x = Ok (a', mkByteArray (l' ++ extra)).

(** A buffer of 336 bytes of 0xFF and one stray byte. *)
Definition paddedBuffer : list Z := replicate 336 255 ++ [7].

(** A loop body that reads [size a' - size a] bytes, where [size]
    measures what has been decoded so far, and needs no byte beyond
    them. *)
Definition metered {A X : Type} (size : A → Z)
    (f : A * ByteArray → X → result (A * ByteArray)) : Prop :=
  ∀ a l x a' l',
    f (a, mkByteArray l) x = Ok (a', mkByteArray l') →
    ∃ used, l = used ++ l' ∧ Z.of_nat (length used) = size a' - size a ∧
            f (a, mkByteArray used) x = Ok (a', mkByteArray []).

(** Byte length of the loop data of a list of pages. *)
Definition pages_size (ps : list Page) : Z := slots_size (concat (loops <$> ps)).
(** * Properties *)

(** ** Bit-level facts *)

Section bits.

Lemma toInt32_mod x : JS.toInt32 x mod 2 ^ 32 = x mod 2 ^ 32.
Proof.
  unfold JS.toInt32.
  rewrite Zminus_mod, Zmod_mod, <- Zminus_mod.
  f_equal. lia.
Qed.

Lemma toInt32_small x : - 2 ^ 31 <= x < 2 ^ 31 → JS.toInt32 x = x.
Proof. intros ?. unfold JS.toInt32. rewrite Z.mod_small; lia. Qed.

Lemma toInt32_testbit x i :
  0 <= i < 32 → Z.testbit (JS.toInt32 x) i = Z.testbit x i.
Proof.
  intros Hi.
  rewrite <- (Z.mod_pow2_bits_low (JS.toInt32 x) 32 i) by lia.
  rewrite toInt32_mod. apply Z.mod_pow2_bits_low. lia.
Qed.

Lemma toInt32_mod_pow2 x k :
  0 <= k <= 32 → JS.toInt32 x mod 2 ^ k = x mod 2 ^ k.
Proof.
  intros Hk.
  assert (Hdiv : (2 ^ k | 2 ^ 32)).
  { exists (2 ^ (32 - k)). rewrite <- Z.pow_add_r by lia. f_equal. lia. }
  rewrite <- (Z.mod_mod_divide (JS.toInt32 x) (2 ^ 32) (2 ^ k) Hdiv).
  rewrite toInt32_mod. apply Z.mod_mod_divide, Hdiv.
Qed.

(** [x & 0xFF] keeps the low byte, whatever the sign of the 32-bit
    operand. *)
Lemma and_0xFF x : JS.and x 0xFF = x mod 256.
Proof.
  unfold JS.and. rewrite (toInt32_small 0xFF) by lia.
  change 0xFF with (Z.ones 8). rewrite Z.land_ones by lia.
  apply (toInt32_mod_pow2 x 8). lia.
Qed.

Lemma and_0x7F x : JS.and x 0x7F = x mod 128.
Proof.
  unfold JS.and. rewrite (toInt32_small 0x7F) by lia.
  change 0x7F with (Z.ones 7). rewrite Z.land_ones by lia.
  apply (toInt32_mod_pow2 x 7). lia.
Qed.

Lemma and_0x01 x : JS.and x 0x01 = x mod 2.
Proof.
  unfold JS.and. rewrite (toInt32_small 0x01) by lia.
  change 0x01 with (Z.ones 1). rewrite Z.land_ones by lia.
  apply (toInt32_mod_pow2 x 1). lia.
Qed.

(** [x >> k] for a constant count below 32. *)
Lemma sar_const x k : 0 <= k < 32 → JS.sar x k = JS.toInt32 x / 2 ^ k.
Proof.
  intros Hk. unfold JS.sar, JS.toUint32.
  rewrite (Z.mod_small k) by lia.
  replace (Z.land k 31) with k.
  - apply Z.shiftr_div_pow2. lia.
  - change 31 with (Z.ones 5). rewrite Z.land_ones by lia.
    symmetry. apply Z.mod_small. change (2 ^ 5) with 32. lia.
Qed.

Lemma shl_const x k : 0 <= k < 32 → JS.shl x k = JS.toInt32 (JS.toInt32 x * 2 ^ k).
Proof.
  intros Hk. unfold JS.shl, JS.toUint32.
  rewrite (Z.mod_small k) by lia.
  replace (Z.land k 31) with k.
  - rewrite Z.shiftl_mul_pow2 by lia. reflexivity.
  - change 31 with (Z.ones 5). rewrite Z.land_ones by lia.
    symmetry. apply Z.mod_small. change (2 ^ 5) with 32. lia.
Qed.

(** Bitwise or of a value below [2^n] with a multiple of [2^n] is
    their sum: no bit position is shared. *)
Lemma lor_disjoint a y n :
  0 <= n → 0 <= a < 2 ^ n → y mod 2 ^ n = 0 → Z.lor a y = a + y.
Proof.
  intros Hn Ha Hy.
  enough (Hland : Z.land a y = 0).
  { rewrite <- Z.lxor_lor by exact Hland. symmetry. by apply Z.add_nocarry_lxor. }
  apply Z.bits_inj'. intros i Hi.
  rewrite Z.land_spec, Z.bits_0.
  destruct (Z.lt_ge_cases i n) as [Hlt | Hge].
  - rewrite <- (Z.mod_pow2_bits_low y n i) by lia.
    rewrite Hy, Z.bits_0. apply andb_false_r.
  - rewrite <- (Z.mod_small a (2 ^ n)) by lia.
    rewrite Z.mod_pow2_bits_high by lia. reflexivity.
Qed.

Lemma byte_of_word v k :
  0 <= v <= 0xFFFFFFFF → 0 <= k <= 24 →
  JS.and (JS.sar v k) 0xFF = (v / 2 ^ k) mod 256.
Proof.
  intros Hv Hk. rewrite and_0xFF, sar_const by lia.
  apply Z.bits_inj'. intros i Hi.
  change 256 with (2 ^ 8).
  rewrite !Z.testbit_mod_pow2 by lia.
  destruct (Z.ltb_spec i 8); [| reflexivity]. simpl.
  rewrite !Z.div_pow2_bits by lia.
  apply toInt32_testbit. lia.
Qed.

(** Little-endian reassembly of four bytes, forced to unsigned. *)
Lemma le32_value b0 b1 b2 b3 :
  0 <= b0 < 256 → 0 <= b1 < 256 → 0 <= b2 < 256 → 0 <= b3 < 256 →
  JS.shr (JS.or (JS.or (JS.or b0 (JS.shl b1 8)) (JS.shl b2 16)) (JS.shl b3 24)) 0
  = b0 + b1 * 2 ^ 8 + b2 * 2 ^ 16 + b3 * 2 ^ 24.
Proof.
  intros H0 H1 H2 H3.
  rewrite !shl_const by lia.
  rewrite (toInt32_small b1), (toInt32_small b2), (toInt32_small b3) by lia.
  rewrite (toInt32_small (b1 * 2 ^ 8)), (toInt32_small (b2 * 2 ^ 16)) by lia.
  unfold JS.or at 3. rewrite (toInt32_small b0), (toInt32_small (b1 * 2 ^ 8)) by lia.
  rewrite (lor_disjoint b0 (b1 * 2 ^ 8) 8) by (try apply Z.mod_mul; lia).
  unfold JS.or at 2.
  rewrite (toInt32_small (b0 + _)), (toInt32_small (b2 * 2 ^ 16)) by lia.
  rewrite (lor_disjoint _ (b2 * 2 ^ 16) 16) by (try apply Z.mod_mul; lia).
  unfold JS.or.
  rewrite (toInt32_small (b0 + _ + _)) by lia.
  assert (Hm : JS.toInt32 (JS.toInt32 (b3 * 2 ^ 24)) mod 2 ^ 24 = 0).
  { rewrite !toInt32_mod_pow2 by lia. apply Z.mod_mul. lia. }
  rewrite (lor_disjoint _ _ 24); [| lia | lia | exact Hm].
  unfold JS.shr, JS.toUint32. change (Z.land (0 mod 2 ^ 32) 31) with 0.
  rewrite Z.shiftr_0_r.
  rewrite Zplus_mod, !toInt32_mod, <- Zplus_mod.
  apply Z.mod_small. lia.
Qed.

Lemma le16_value lsb msb :
  0 <= lsb < 256 → 0 <= msb < 256 →
  JS.or lsb (JS.shl msb 8) = lsb + msb * 2 ^ 8.
Proof.
  intros H0 H1. rewrite shl_const by lia.
  rewrite (toInt32_small msb), (toInt32_small (msb * 2 ^ 8)) by lia.
  unfold JS.or. rewrite (toInt32_small lsb), (toInt32_small (msb * 2 ^ 8)) by lia.
  apply (lor_disjoint lsb (msb * 2 ^ 8) 8); try lia. apply Z.mod_mul. lia.
Qed.

End bits.

(** ** The result monad and its loops *)

Section monad.

Context {A B S : Type}.

Lemma bind_Ok_inv (m : result A) (k : A → result B) (b : B) :
  m ≫= k = Ok b → ∃ a, m = Ok a ∧ k a = Ok b.
Proof. destruct m as [a | e]; simpl; [eauto | discriminate]. Qed.

Lemma foldM_app (body : S → A → result S) (s : S) (l1 l2 : list A) :
  foldM body s (l1 ++ l2) = foldM body s l1 ≫= λ s', foldM body s' l2.
Proof.
  revert s. induction l1 as [| x l1 IH]; intros s; simpl; [reflexivity |].
  destruct (body s x) as [s' | e]; simpl; [apply IH | reflexivity].
Qed.

Lemma foldM_ext (f g : S → A → result S) (s : S) (l : list A) :
  (∀ s x, x ∈ l → f s x = g s x) → foldM f s l = foldM g s l.
Proof.
  revert s. induction l as [| x l IH]; intros s Hfg; simpl; [reflexivity |].
  rewrite Hfg by left.
  destruct (g s x) as [s' | e]; simpl; [| reflexivity].
  apply IH. intros. apply Hfg. by right.
Qed.

(** A loop whose body only looks at [h i] is a loop over the images. *)
Lemma foldM_fmap (f : S → B → result S) (h : A → B) (s : S) (l : list A) :
  foldM (λ s x, f s (h x)) s l = foldM f s (h <$> l).
Proof.
  revert s. induction l as [| x l IH]; intros s; simpl; [reflexivity |].
  destruct (f s (h x)) as [s' | e]; simpl; [apply IH | reflexivity].
Qed.

End monad.

(** Nested loops are one loop over the concatenation. *)
Lemma foldM_nested {A B S : Type} (f : S → B → result S) (h : A → list B) (s : S) (l : list A) :
  foldM (λ s x, foldM f s (h x)) s l = foldM f s (concat (h <$> l)).
Proof.
  revert s. induction l as [| x l IH]; intros s; [reflexivity |].
  rewrite fmap_cons, concat_cons, foldM_app. simpl.
  destruct (foldM f s (h x)) as [s' | e]; simpl; [apply IH | reflexivity].
Qed.

(** A counting loop that indexes an array long enough is a loop over
    the array's first [n] elements. *)
Lemma foldM_seq_lookup {A S : Type} (f : S → A → result S) (l : list A) (n : nat) (s : S) :
  (n ≤ length l)%nat →
  foldM (λ s i, match l !! i with Some x => f s x | None => Throw TypeError end) s (seq 0 n)
  = foldM f s (take n l).
Proof.
  intros Hn.
  enough (Hgen : ∀ k s, (k + n ≤ length l)%nat →
    foldM (λ s i, match l !! i with Some x => f s x | None => Throw TypeError end) s (seq k n)
    = foldM f s (take n (drop k l))).
  { rewrite (Hgen 0%nat) by lia. by rewrite drop_0. }
  clear s Hn. induction n as [| n IH]; intros k s Hk; simpl; [reflexivity |].
  destruct (lookup_lt_is_Some_2 l k ltac:(lia)) as [x Hx].
  rewrite Hx, (drop_S l x k Hx). simpl.
  destruct (f s x) as [s' | e]; simpl; [| reflexivity].
  apply IH. lia.
Qed.

(** With an array that is too short the loop stops on a [TypeError],
    unless the body raised before. *)
Lemma foldM_seq_lookup_short {A S : Type} (f : S → A → result S) (l : list A) (n : nat) (s : S) :
  (length l < n)%nat →
  ∃ e, foldM (λ s i, match l !! i with Some x => f s x | None => Throw TypeError end) s (seq 0 n)
       = Throw e.
Proof.
  intros Hn.
  enough (Hgen : ∀ k s, (k ≤ length l < k + n)%nat →
    ∃ e, foldM (λ s i, match l !! i with Some x => f s x | None => Throw TypeError end) s (seq k n)
         = Throw e).
  { apply (Hgen 0%nat). lia. }
  clear s Hn. induction n as [| n IH]; intros k s Hk; simpl; [lia |].
  destruct (l !! k) as [x |] eqn:Hx; simpl; [| eauto].
  destruct (f s x) as [s' | e]; simpl; [| eauto].
  apply IH. apply lookup_lt_Some in Hx. lia.
Qed.

(** ** The byte builder, one call at a time *)

Section builder.

Implicit Types (d : ByteArray) (v : Z).

Lemma push8_Ok v d :
  0 <= v <= 0xFF → push8 v d = Ok (mkByteArray (data d ++ [v])).
Proof.
  intros Hv. unfold push8.
  destruct (Z.ltb_spec v 0); [lia |].
  destruct (Z.gtb_spec v 0xFF); [lia |]. simpl.
  rewrite and_0xFF, Z.mod_small by lia. reflexivity.
Qed.

Lemma push8_Throw v d :
  ¬ 0 <= v <= 0xFF → push8 v d = Throw (RangeError_out_of_range v 8).
Proof.
  intros Hv. unfold push8.
  destruct (Z.ltb_spec v 0); [reflexivity |].
  destruct (Z.gtb_spec v 0xFF); [reflexivity | lia].
Qed.

Lemma push16_Ok v d :
  0 <= v <= 0xFFFF → push16 v d = Ok (mkByteArray (data d ++ le16 v)).
Proof.
  intros Hv. unfold push16.
  destruct (Z.ltb_spec v 0); [lia |].
  destruct (Z.gtb_spec v 0xFFFF); [lia |]. simpl.
  rewrite and_0xFF, (byte_of_word v 8) by lia. reflexivity.
Qed.

Lemma push16_Throw v d :
  ¬ 0 <= v <= 0xFFFF → push16 v d = Throw (RangeError_out_of_range v 16).
Proof.
  intros Hv. unfold push16.
  destruct (Z.ltb_spec v 0); [reflexivity |].
  destruct (Z.gtb_spec v 0xFFFF); [reflexivity | lia].
Qed.

Lemma push32_Ok v d :
  0 <= v <= 0xFFFFFFFF → push32 v d = Ok (mkByteArray (data d ++ le32 v)).
Proof.
  intros Hv. unfold push32.
  destruct (Z.ltb_spec v 0); [lia |].
  destruct (Z.gtb_spec v 0xFFFFFFFF); [lia |]. simpl.
  rewrite and_0xFF, (byte_of_word v 8), (byte_of_word v 16), (byte_of_word v 24) by lia.
  reflexivity.
Qed.

Lemma push32_Throw v d :
  ¬ 0 <= v <= 0xFFFFFFFF → push32 v d = Throw (RangeError_out_of_range v 32).
Proof.
  intros Hv. unfold push32.
  destruct (Z.ltb_spec v 0); [reflexivity |].
  destruct (Z.gtb_spec v 0xFFFFFFFF); [reflexivity | lia].
Qed.

End builder.

(** ** What the encoder returns *)

Lemma encodes_Ok {A : Type} (P : Prop) (r : result A) (a : A) :
  encodes P r a → P → r = Ok a.
Proof. intros [[_ ?] | [? _]] ?; [assumption | contradiction]. Qed.

Lemma encodes_Ok_inv {A : Type} (P : Prop) (r : result A) (a b : A) :
  encodes P r a → r = Ok b → P ∧ b = a.
Proof.
  intros [[? Hr] | [_ (v & w & Hr)]] Hb; rewrite Hr in Hb; [| discriminate].
  split; [assumption | congruence].
Qed.

Lemma encodes_Throw {A : Type} (P : Prop) (r : result A) (a : A) :
  encodes P r a → ¬ P → ∃ v b, r = Throw (RangeError_out_of_range v b).
Proof. intros [[? _] | [_ ?]] ?; [contradiction | assumption]. Qed.

Section encoder.

Implicit Types (ld lo : ByteArray) (sl : list (option LoopData)).

Lemma note_low7 (ev : NoteEvent) : 0 <= note ev mod 128 <= 0xFF.
Proof. pose proof (Z.mod_pos_bound (note ev) 128). lia. Qed.

Lemma encode_event_spec ld (event : NoteEventTime) :
  encodes (event_encodable event) (encode_event ld event)
          (mkByteArray (data ld ++ event_bytes event)).
Proof.
  destruct event as [ticks ev]. unfold encodes, event_encodable, encode_event, event_bytes.
  rewrite (and_0x7F (note ev)), push8_Ok by apply note_low7. simpl.
  fold (packed ev).
  destruct (decide (0 <= packed ev <= 0xFF)) as [Hp | Hp].
  - rewrite push8_Ok by assumption. simpl.
    destruct (decide (0 <= ticks <= 0xFFFF)) as [Ht | Ht].
    + left. split; [done |]. rewrite push16_Ok by assumption. simpl.
      by rewrite <- !app_assoc.
    + right. split; [tauto |]. rewrite push16_Throw by assumption. eauto.
  - right. split; [tauto |]. rewrite push8_Throw by assumption. simpl. eauto.
Qed.

Lemma encode_events_spec (evs : list NoteEventTime) ld :
  encodes (Forall event_encodable evs) (foldM encode_event ld evs)
          (mkByteArray (data ld ++ concat (event_bytes <$> evs))).
Proof.
  revert ld. induction evs as [| event evs IH]; intros ld.
  - left. split; [constructor |]. simpl. rewrite app_nil_r. by destruct ld.
  - simpl. destruct (encode_event_spec ld event) as [[He ->] | [He (v & b & ->)]]; simpl.
    + destruct (IH (mkByteArray (data ld ++ event_bytes event)))
        as [[Hevs ->] | [Hevs (v & b & ->)]]; simpl.
      * left. split; [by constructor |]. by rewrite <- app_assoc.
      * right. split; [| eauto]. intros H. apply Hevs. by apply Forall_inv_tail in H.
    + right. split; [| eauto]. intros H. apply He. by apply Forall_inv in H.
Qed.

Lemma encode_loop_opt_spec lo ld (o : option LoopData) :
  encodes (slots_encodable (Z.of_nat (length (data ld))) [o])
          (encode_loop_opt (lo, ld) o)
          (mkByteArray (data lo ++ offsets_bytes (Z.of_nat (length (data ld))) [o]),
           mkByteArray (data ld ++ data_bytes [o])).
Proof.
  unfold encodes, data_bytes. destruct o as [loop |]; simpl.
  - set (off := Z.of_nat (length (data ld))).
    assert (0 <= off) by lia.
    destruct (decide (off <= 0xFFFF)) as [Hoff | Hoff]; cycle 1.
    { right. split; [tauto |]. rewrite push16_Throw by lia. simpl. eauto. }
    rewrite push16_Ok by lia. simpl.
    unfold loop_encodable.
    destruct (decide (0 <= length_beats loop <= 0xFF)) as [Hb | Hb]; cycle 1.
    { right. split; [tauto |]. rewrite push8_Throw by assumption. simpl. eauto. }
    rewrite push8_Ok by assumption. simpl.
    destruct (decide (length (events loop) ≤ 255)%nat) as [Hn | Hn]; cycle 1.
    { right. split; [tauto |]. rewrite push8_Throw by lia. simpl. eauto. }
    rewrite push8_Ok by lia. simpl.
    match goal with
    | |- context [foldM encode_event ?d _] =>
        destruct (encode_events_spec (events loop) d) as [[He ->] | [He (v & b & ->)]]
    end; simpl.
    + left. split; [tauto |]. unfold loop_bytes.
      by rewrite !app_nil_r, <- !app_assoc.
    + right. split; [tauto | eauto].
  - left. split; [done |]. rewrite app_nil_r. by destruct ld.
Qed.

Lemma offsets_bytes_app off sl1 sl2 :
  offsets_bytes off (sl1 ++ sl2)
  = offsets_bytes off sl1 ++ offsets_bytes (off + slots_size sl1) sl2.
Proof.
  revert off. induction sl1 as [| [loop |] sl1 IH]; intros off; simpl.
  - by rewrite Z.add_0_r.
  - rewrite IH. do 4 f_equal. lia.
  - by rewrite IH.
Qed.

Lemma slots_encodable_app off sl1 sl2 :
  slots_encodable off (sl1 ++ sl2)
  ↔ slots_encodable off sl1 ∧ slots_encodable (off + slots_size sl1) sl2.
Proof.
  revert off. induction sl1 as [| [loop |] sl1 IH]; intros off; simpl.
  - rewrite Z.add_0_r. tauto.
  - rewrite IH. replace (off + loop_size loop + slots_size sl1)
      with (off + (loop_size loop + slots_size sl1)) by lia. tauto.
  - by rewrite IH.
Qed.

Lemma data_bytes_app sl1 sl2 : data_bytes (sl1 ++ sl2) = data_bytes sl1 ++ data_bytes sl2.
Proof. unfold data_bytes. by rewrite fmap_app, concat_app. Qed.

Lemma slots_size_app sl1 sl2 : slots_size (sl1 ++ sl2) = slots_size sl1 + slots_size sl2.
Proof. induction sl1 as [| o sl1 IH]; simpl; [reflexivity |]. rewrite IH. lia. Qed.

Lemma length_le16 v : length (le16 v) = 2%nat.
Proof. reflexivity. Qed.

Lemma length_event_bytes (event : NoteEventTime) : length (event_bytes event) = 4%nat.
Proof. reflexivity. Qed.

Lemma length_events_bytes (evs : list NoteEventTime) :
  length (concat (event_bytes <$> evs)) = (4 * length evs)%nat.
Proof.
  induction evs as [| event evs IH]; [reflexivity |].
  rewrite fmap_cons, concat_cons, length_app, IH, length_event_bytes. simpl. lia.
Qed.

Lemma length_loop_bytes (loop : LoopData) :
  Z.of_nat (length (loop_bytes loop)) = loop_size loop.
Proof.
  unfold loop_bytes, loop_size.
  rewrite length_app, length_events_bytes. simpl length. lia.
Qed.

Lemma length_data_bytes sl : Z.of_nat (length (data_bytes sl)) = slots_size sl.
Proof.
  induction sl as [| o sl IH]; [reflexivity |].
  change (o :: sl) with ([o] ++ sl).
  rewrite data_bytes_app, length_app, Nat2Z.inj_add, IH.
  destruct o as [loop |].
  - change (data_bytes [Some loop]) with (loop_bytes loop ++ []).
    rewrite app_nil_r, length_loop_bytes. simpl. lia.
  - reflexivity.
Qed.

Lemma length_offsets_bytes off sl : length (offsets_bytes off sl) = (2 * length sl)%nat.
Proof.
  revert off. induction sl as [| [loop |] sl IH]; intros off; simpl; [reflexivity | |];
    rewrite IH; lia.
Qed.

Lemma encode_slots_spec sl lo ld :
  encodes (slots_encodable (Z.of_nat (length (data ld))) sl)
          (foldM encode_loop_opt (lo, ld) sl)
          (mkByteArray (data lo ++ offsets_bytes (Z.of_nat (length (data ld))) sl),
           mkByteArray (data ld ++ data_bytes sl)).
Proof.
  revert lo ld. induction sl as [| o sl IH]; intros lo ld.
  - left. split; [done |]. simpl. unfold data_bytes. simpl.
    rewrite !app_nil_r. by destruct lo, ld.
  - unfold encodes. change (o :: sl) with ([o] ++ sl).
    rewrite slots_encodable_app, offsets_bytes_app, data_bytes_app.
    change (foldM encode_loop_opt (lo, ld) ([o] ++ sl))
      with (encode_loop_opt (lo, ld) o ≫= λ s', foldM encode_loop_opt s' sl).
    destruct (encode_loop_opt_spec lo ld o) as [[Ho ->] | [Ho (v & b & ->)]]; simpl.
    + match goal with
      | |- context [foldM encode_loop_opt (?lo', ?ld') sl] =>
          specialize (IH lo' ld')
      end.
      simpl in IH. rewrite length_app, Nat2Z.inj_add, length_data_bytes in IH.
      destruct IH as [[Hsl ->] | [Hsl (v & b & ->)]].
      * left. split; [done |]. by rewrite <- !app_assoc.
      * right. split; [tauto | eauto].
    + right. split; [tauto | eauto].
Qed.

End encoder.

Section encoder_top.

Implicit Types (pack : SamplePack) (page : Page).

Lemma encode_slot_slot_at page st (loop_idx : nat) :
  encode_slot page st loop_idx = encode_loop_opt st (slot_at page loop_idx).
Proof.
  unfold encode_slot, encode_loop_opt, slot_at. destruct st as [lo ld].
  by destruct (loops page !! loop_idx) as [[loop |] |].
Qed.

Lemma encode_page_slots page st :
  foldM (encode_slot page) st (seq 0 LOOPS_PER_PAGE)
  = foldM encode_loop_opt st (page_slots page).
Proof.
  unfold page_slots. rewrite <- foldM_fmap.
  apply foldM_ext. intros. apply encode_slot_slot_at.
Qed.

(** The two nested loops visit the 150 slots in traversal order. *)
Lemma encode_pages_slots pack st :
  (NUM_PAGES ≤ length (pages pack))%nat →
  foldM (encode_page pack) st (seq 0 NUM_PAGES)
  = foldM encode_loop_opt st (pack_slots pack).
Proof.
  intros Hlen. unfold pack_slots. rewrite <- foldM_nested.
  rewrite <- (foldM_seq_lookup _ (pages pack) NUM_PAGES st Hlen).
  apply foldM_ext. intros st' i _. unfold encode_page.
  destruct (pages pack !! i) as [page |]; [apply encode_page_slots | reflexivity].
Qed.

Lemma encode_page_ids_take pack d :
  (NUM_PAGES ≤ length (pages pack))%nat →
  foldM (encode_page_id pack) d (seq 0 NUM_PAGES)
  = foldM (λ d page, push16 (id page) d) d (take NUM_PAGES (pages pack)).
Proof.
  intros Hlen.
  rewrite <- (foldM_seq_lookup _ (pages pack) NUM_PAGES d Hlen). reflexivity.
Qed.

Lemma encode_ids_spec (pgs : list Page) d :
  encodes (Forall (λ page, u16 (id page)) pgs)
          (foldM (λ d page, push16 (id page) d) d pgs)
          (mkByteArray (data d ++ concat ((λ page, le16 (id page)) <$> pgs))).
Proof.
  revert d. induction pgs as [| page pgs IH]; intros d.
  - left. split; [constructor |]. simpl. rewrite app_nil_r. by destruct d.
  - simpl. destruct (decide (u16 (id page))) as [Hid | Hid].
    + rewrite push16_Ok by exact Hid. simpl.
      destruct (IH (mkByteArray (data d ++ le16 (id page))))
        as [[Hpgs ->] | [Hpgs (v & b & ->)]]; simpl.
      * left. split; [by constructor |]. by rewrite <- app_assoc.
      * right. split; [| eauto]. intros H. apply Hpgs. by apply Forall_inv_tail in H.
    + rewrite push16_Throw by exact Hid. simpl.
      right. split; [| eauto]. intros H. apply Hid. by apply Forall_inv in H.
Qed.

Lemma push32_opt_spec (o : option Z) d :
  encodes (u32 (default 0 o)) (push32_opt o d)
          (mkByteArray (data d ++ le32 (default 0 o))).
Proof.
  unfold push32_opt. destruct (decide (u32 (default 0 o))) as [Hv | Hv].
  - left. split; [done |]. by apply push32_Ok.
  - right. split; [done |]. rewrite push32_Throw by exact Hv. eauto.
Qed.

(** The encoder as a whole: it returns the wire image of an encodable
    pack and raises a [RangeError] on any other pack of ten pages. *)
Lemma samplesParser_encode_spec pack :
  (NUM_PAGES ≤ length (pages pack))%nat →
  encodes (pack_encodable pack) (samplesParser_encode pack)
          (Uint8Array_from (pack_image pack)).
Proof.
  intros Hlen. unfold encodes, samplesParser_encode, pack_encodable.
  destruct (push32_opt_spec (reserved0 pack) ByteArray_new)
    as [[H0 ->] | [H0 (v & b & ->)]]; simpl_bind; [| right; split; [tauto | eauto]].
  match goal with |- context [push32_opt (reserved1 pack) ?d] =>
    destruct (push32_opt_spec (reserved1 pack) d) as [[H1 ->] | [H1 (v & b & ->)]]
  end; simpl_bind; [| right; split; [tauto | eauto]].
  match goal with |- context [push32_opt (reserved2 pack) ?d] =>
    destruct (push32_opt_spec (reserved2 pack) d) as [[H2 ->] | [H2 (v & b & ->)]]
  end; simpl_bind; [| right; split; [tauto | eauto]].
  match goal with |- context [push32_opt (reserved3 pack) ?d] =>
    destruct (push32_opt_spec (reserved3 pack) d) as [[H3 ->] | [H3 (v & b & ->)]]
  end; simpl_bind; [| right; split; [tauto | eauto]].
  rewrite encode_page_ids_take by exact Hlen.
  match goal with |- context [foldM _ ?d (take _ _)] =>
    destruct (encode_ids_spec (take NUM_PAGES (pages pack)) d)
      as [[Hids ->] | [Hids (v & b & ->)]]
  end; simpl_bind; [| right; split; [tauto | eauto]].
  rewrite encode_pages_slots by exact Hlen.
  destruct (encode_slots_spec (pack_slots pack) ByteArray_new ByteArray_new)
    as [[Hsl ->] | [Hsl (v & b & ->)]]; simpl_bind; [| right; split; [tauto | eauto]].
  left. split; [tauto |]. do 2 f_equal.
  unfold add, pack_image, header_bytes, ids_bytes.
  cbn [data ByteArray_new app length Z.of_nat]. by rewrite <- !app_assoc.
Qed.

(** With fewer than ten pages the encoder raises as well: the page-id
    loop reads [id] of [undefined]. *)
Lemma samplesParser_encode_short pack :
  (length (pages pack) < NUM_PAGES)%nat → ∃ e, samplesParser_encode pack = Throw e.
Proof.
  intros Hlen. unfold samplesParser_encode.
  destruct (push32_opt _ _) as [d0 | e]; simpl_bind; [| eauto].
  destruct (push32_opt _ _) as [d1 | e]; simpl_bind; [| eauto].
  destruct (push32_opt _ _) as [d2 | e]; simpl_bind; [| eauto].
  destruct (push32_opt _ _) as [d3 | e]; simpl_bind; [| eauto].
  destruct (foldM_seq_lookup_short (λ d page, push16 (id page) d)
              (pages pack) NUM_PAGES d3 Hlen) as [e He].
  unfold encode_page_id. rewrite He. simpl_bind. eauto.
Qed.

End encoder_top.

(** ** The packed state/velocity byte *)

Section packed_byte.

Lemma toInt32_range x : - 2 ^ 31 <= JS.toInt32 x < 2 ^ 31.
Proof. unfold JS.toInt32. pose proof (Z.mod_pos_bound (x + 2 ^ 31) (2 ^ 32)). lia. Qed.

Lemma shl7_multiple s : JS.shl s 7 mod 128 = 0.
Proof.
  rewrite shl_const by lia. change 128 with (2 ^ 7).
  rewrite toInt32_mod_pow2 by lia. apply Z.mod_mul. lia.
Qed.

(** The packed byte is the shifted state plus the seven low bits of
    the velocity: the shift leaves bits 0-6 clear. *)
Lemma packed_sum (ev : NoteEvent) :
  packed ev = JS.shl (state ev) 7 + velocity ev mod 128.
Proof.
  unfold packed. rewrite and_0x7F. unfold JS.or.
  pose proof (Z.mod_pos_bound (velocity ev) 128).
  rewrite (toInt32_small (velocity ev mod 128)) by lia.
  rewrite (toInt32_small (JS.shl (state ev) 7)).
  - rewrite Z.lor_comm, Z.add_comm.
    apply (lor_disjoint _ _ 7); [lia | change (2 ^ 7) with 128; lia |].
    apply shl7_multiple.
  - rewrite shl_const by lia. apply toInt32_range.
Qed.

Lemma packed_valid (ev : NoteEvent) :
  state ev = 0 ∨ state ev = 1 →
  packed ev = state ev * 128 + velocity ev mod 128.
Proof.
  intros Hs. rewrite packed_sum. f_equal.
  destruct Hs as [-> | ->]; reflexivity.
Qed.

End packed_byte.

(** ** Valid packs are encodable *)

Section validity.

Implicit Types (pack : SamplePack) (page : Page) (sl : list (option LoopData)).

Lemma valid_event_encodable (event : NoteEventTime) :
  valid_event event → event_encodable event.
Proof.
  intros (Ht & _ & Hs & _). split; [| exact Ht].
  rewrite packed_valid by exact Hs.
  pose proof (Z.mod_pos_bound (velocity event.2) 128). lia.
Qed.

Lemma valid_loop_encodable (loop : LoopData) : valid_loop loop → loop_encodable loop.
Proof.
  intros (Hb & Hn & Hevs). split; [lia |]. split; [exact Hn |].
  eapply Forall_impl; [exact Hevs | apply valid_event_encodable].
Qed.

Lemma loop_size_nonneg (loop : LoopData) : 0 <= loop_size loop.
Proof. unfold loop_size. lia. Qed.

Lemma slots_size_nonneg sl : 0 <= slots_size sl.
Proof.
  induction sl as [| [loop |] sl IH]; simpl; [lia | | lia].
  pose proof (loop_size_nonneg loop). lia.
Qed.

(** Encodable loops whose total stays within 16 bits are encodable
    slots. *)
Lemma slots_encodable_bounded sl off :
  Forall (from_option loop_encodable True) sl →
  off + slots_size sl <= 0xFFFF →
  slots_encodable off sl.
Proof.
  revert off. induction sl as [| [loop |] sl IH]; intros off Hall Hsize; simpl in *.
  - exact I.
  - pose proof (slots_size_nonneg sl). pose proof (loop_size_nonneg loop).
    inversion Hall as [| ? ? Hl Hrest]; subst.
    split; [lia |]. split; [exact Hl |]. apply IH; [exact Hrest | lia].
  - inversion Hall as [| ? ? _ Hrest]; subst. apply IH; [exact Hrest | lia].
Qed.

(** A page with all its fifteen slots: the encoder reads the array as
    it is. *)
Lemma page_slots_full page :
  length (loops page) = LOOPS_PER_PAGE → page_slots page = loops page.
Proof.
  intros Hlen. unfold page_slots. rewrite <- Hlen.
  apply list_eq. intros i. rewrite list_lookup_fmap.
  destruct (decide (i < length (loops page))%nat) as [Hi | Hi].
  - rewrite lookup_seq_lt by exact Hi. simpl. unfold slot_at.
    destruct (lookup_lt_is_Some_2 _ _ Hi) as [o Ho]. by rewrite Ho.
  - rewrite lookup_seq_ge by lia. simpl. symmetry. apply lookup_ge_None. lia.
Qed.

Lemma getPageByteSize_slots_size page : getPageByteSize page = slots_size (loops page).
Proof.
  unfold getPageByteSize.
  enough (Hgen : ∀ sl acc,
    fold_left (λ size (loop : option LoopData),
      match loop with
      | None => size
      | Some loop => fold_left (λ size _, size + 4) (events loop) (size + 1 + 1)
      end) sl acc = acc + slots_size sl).
  { apply Hgen. }
  induction sl as [| [loop |] sl IH]; intros acc; simpl.
  - lia.
  - rewrite IH.
    enough (Hev : ∀ (evs : list NoteEventTime) a,
      fold_left (λ size _, size + 4) evs a = a + 4 * Z.of_nat (length evs)).
    { rewrite Hev. unfold loop_size. lia. }
    clear. induction evs as [| ev evs IHe]; intros a0; simpl; [lia |]. rewrite IHe. lia.
  - apply IH.
Qed.

Lemma getPackSize_slots_size pack :
  length (pages pack) = NUM_PAGES →
  Forall (λ page, length (loops page) = LOOPS_PER_PAGE) (pages pack) →
  getPackSize pack = slots_size (pack_slots pack).
Proof.
  intros Hlen Hpages. unfold getPackSize, pack_slots.
  rewrite <- Hlen, firstn_all. clear Hlen.
  enough (Hgen : ∀ acc,
    fold_left (λ size page, size + getPageByteSize page) (pages pack) acc
    = acc + slots_size (concat (page_slots <$> pages pack))).
  { apply Hgen. }
  induction Hpages as [| page pgs Hpage Hpgs IH]; intros acc; [simpl; lia |].
  cbn [fold_left]. rewrite fmap_cons, concat_cons.
  rewrite IH, slots_size_app, page_slots_full, getPageByteSize_slots_size by exact Hpage.
  lia.
Qed.

Lemma valid_fields_shape pack :
  valid_fields pack →
  length (pages pack) = NUM_PAGES ∧
  Forall (λ page, length (loops page) = LOOPS_PER_PAGE) (pages pack).
Proof.
  intros (_ & _ & _ & _ & Hlen & Hpages). split; [exact Hlen |].
  eapply Forall_impl; [exact Hpages |]. by intros page (_ & ? & _).
Qed.

Lemma valid_reserved_u32 (o : option Z) : valid_reserved o → u32 (default 0 o).
Proof. destruct o as [v |]; simpl; [| tauto]. unfold u32. lia. Qed.

Lemma valid_fields_loops pack :
  valid_fields pack → Forall (from_option valid_loop True) (pack_slots pack).
Proof.
  intros Hv. destruct (valid_fields_shape pack Hv) as [Hlen Hshape].
  destruct Hv as (_ & _ & _ & _ & _ & Hpages).
  unfold pack_slots. rewrite <- Hlen, firstn_all.
  apply Forall_concat, Forall_fmap.
  eapply Forall_impl; [exact Hpages |].
  intros page (_ & Hl & Hloops). simpl. by rewrite page_slots_full.
Qed.

Lemma valid_pack_encodable pack : valid_pack pack → pack_encodable pack.
Proof.
  intros [Hv Hsize].
  destruct (valid_fields_shape pack Hv) as [Hlen Hshape].
  pose proof (valid_fields_loops pack Hv) as Hloops.
  rewrite (getPackSize_slots_size pack Hlen Hshape) in Hsize.
  destruct Hv as (H0 & H1 & H2 & H3 & _ & Hpages).
  split; [auto using valid_reserved_u32 |]. split.
  - rewrite <- Hlen, firstn_all. eapply Forall_impl; [exact Hpages |].
    by intros page (? & _).
  - apply slots_encodable_bounded; [| lia].
    eapply Forall_impl; [exact Hloops |].
    intros [loop |]; simpl; [apply valid_loop_encodable | done].
Qed.

End validity.


(** ** Lengths of the wire image *)

Lemma length_page_slots (page : Page) : length (page_slots page) = LOOPS_PER_PAGE.
Proof. unfold page_slots. by rewrite length_fmap, length_seq. Qed.

Lemma length_pack_slots (pack : SamplePack) :
  (NUM_PAGES ≤ length (pages pack))%nat →
  length (pack_slots pack) = (NUM_PAGES * LOOPS_PER_PAGE)%nat.
Proof.
  intros Hlen. unfold pack_slots.
  assert (Htake : length (take NUM_PAGES (pages pack)) = NUM_PAGES)
    by (rewrite length_take; lia).
  revert Htake. generalize (take NUM_PAGES (pages pack)). generalize NUM_PAGES.
  intros n l. revert n. induction l as [| page l IH]; intros n Hn; simpl in Hn; subst n.
  - reflexivity.
  - rewrite fmap_cons, concat_cons, length_app, length_page_slots, (IH (length l) eq_refl).
    simpl. lia.
Qed.

Lemma length_ids_bytes (pack : SamplePack) :
  (NUM_PAGES ≤ length (pages pack))%nat →
  length (ids_bytes pack) = (2 * NUM_PAGES)%nat.
Proof.
  intros Hlen. unfold ids_bytes.
  assert (Htake : length (take NUM_PAGES (pages pack)) = NUM_PAGES)
    by (rewrite length_take; lia).
  revert Htake. generalize (take NUM_PAGES (pages pack)). generalize NUM_PAGES.
  intros n l. revert n. induction l as [| page l IH]; intros n Hn; simpl in Hn; subst n.
  - reflexivity.
  - rewrite fmap_cons, concat_cons, length_app, length_le16, (IH (length l) eq_refl).
    simpl. lia.
Qed.

Lemma length_pack_image (pack : SamplePack) :
  (NUM_PAGES ≤ length (pages pack))%nat →
  Z.of_nat (length (pack_image pack)) = 336 + slots_size (pack_slots pack).
Proof.
  intros Hlen. unfold pack_image, header_bytes.
  rewrite !length_app, length_ids_bytes, length_offsets_bytes, length_pack_slots by exact Hlen.
  rewrite !Nat2Z.inj_add, length_data_bytes.
  change (NUM_PAGES) with 10%nat. change LOOPS_PER_PAGE with 15%nat.
  unfold le32. simpl length. lia.
Qed.

(** ** Range checks and capacity *)

Section ranges.

Implicit Types (pack : SamplePack) (sl : list (option LoopData)).

Lemma slots_encodable_Forall sl off :
  slots_encodable off sl → Forall (from_option loop_encodable True) sl.
Proof.
  revert off. induction sl as [| [loop |] sl IH]; intros off Hsl; simpl in Hsl.
  - constructor.
  - destruct Hsl as (_ & Hl & Hsl). constructor; [exact Hl | by eapply IH].
  - constructor; [exact I | by eapply IH].
Qed.

(** The offset of a present loop was accepted by [push16]. *)
Lemma slots_encodable_offset sl pre loop post :
  sl = pre ++ Some loop :: post → slots_encodable 0 sl → slots_size pre <= 0xFFFF.
Proof.
  intros -> Hsl. apply slots_encodable_app in Hsl as [_ Hsl].
  simpl in Hsl. lia.
Qed.

(** Every loop takes an even number of bytes, so does every offset. *)
Lemma slots_size_even sl : ∃ h, slots_size sl = 2 * h.
Proof.
  induction sl as [| [loop |] sl [h IH]]; simpl.
  - by exists 0.
  - exists (1 + 2 * Z.of_nat (length (events loop)) + h). unfold loop_size. lia.
  - exists h. lia.
Qed.

Lemma pack_slots_all pack :
  length (pages pack) = NUM_PAGES →
  Forall (λ page, length (loops page) = LOOPS_PER_PAGE) (pages pack) →
  pack_slots pack = concat (loops <$> pages pack).
Proof.
  intros Hlen Hshape. unfold pack_slots. rewrite <- Hlen, firstn_all. f_equal.
  clear Hlen. induction Hshape as [| page pgs Hpage _ IH]; [reflexivity |].
  by rewrite !fmap_cons, IH, page_slots_full.
Qed.

Lemma loop_encodable_ranges (loop : LoopData) :
  loop_encodable loop → count_in_range loop ∧ Forall tick_in_range (events loop).
Proof.
  intros (_ & Hn & Hevs). split; [exact Hn |].
  eapply Forall_impl; [exact Hevs |]. by intros event [_ Ht].
Qed.

End ranges.

(** ** The offset table of an encoded buffer *)

Section offsets.

Implicit Types (pack : SamplePack) (sl : list (option LoopData)).

Lemma length_header_bytes pack : length (header_bytes pack) = 16%nat.
Proof. reflexivity. Qed.

(** Where the entry of slot [k] sits in the table and what it holds. *)
Lemma offsets_bytes_lookup sl k loop :
  sl !! k = Some (Some loop) →
  offsets_bytes 0 sl !! (2 * k)%nat = Some (slots_size (take k sl) mod 256) ∧
  offsets_bytes 0 sl !! (2 * k + 1)%nat = Some (slots_size (take k sl) / 2 ^ 8 mod 256).
Proof.
  intros Hk. rewrite <- (take_drop_middle sl k (Some loop) Hk) at 1 3.
  rewrite offsets_bytes_app. cbn [offsets_bytes].
  assert (Hlen : length (offsets_bytes 0 (take k sl)) = (2 * k)%nat).
  { rewrite length_offsets_bytes, length_take.
    apply lookup_lt_Some in Hk. lia. }
  split.
  - rewrite lookup_app_r by lia. rewrite Hlen, Nat.sub_diag. reflexivity.
  - rewrite lookup_app_r by lia. rewrite Hlen.
    replace (2 * k + 1 - 2 * k)%nat with 1%nat by lia. reflexivity.
Qed.

Lemma pack_image_offsets_lookup pack (i : nat) :
  (NUM_PAGES ≤ length (pages pack))%nat →
  pack_image pack !! (36 + i)%nat
  = (offsets_bytes 0 (pack_slots pack) ++ data_bytes (pack_slots pack)) !! i.
Proof.
  intros Hlen. unfold pack_image.
  rewrite lookup_app_r by (rewrite length_header_bytes; lia).
  rewrite lookup_app_r
    by (rewrite length_header_bytes, length_ids_bytes by exact Hlen;
        change NUM_PAGES with 10%nat; lia).
  rewrite length_header_bytes, length_ids_bytes by exact Hlen.
  change NUM_PAGES with 10%nat. f_equal. lia.
Qed.

(** The encoder reaches a present loop with [slots_size pre] bytes of
    loop data; past 0xFFFF, [push16] refuses that offset. *)
Lemma encode_slots_capacity sl pre loop post (lo ld : ByteArray) :
  sl = pre ++ Some loop :: post →
  slots_encodable (Z.of_nat (length (data ld))) pre →
  0xFFFF < Z.of_nat (length (data ld)) + slots_size pre →
  foldM encode_loop_opt (lo, ld) sl
  = Throw (RangeError_out_of_range (Z.of_nat (length (data ld)) + slots_size pre) 16).
Proof.
  intros -> Hpre Hsize. rewrite foldM_app.
  rewrite (encodes_Ok _ _ _ (encode_slots_spec pre lo ld) Hpre). simpl_bind.
  cbn [foldM encode_loop_opt data].
  rewrite length_app, Nat2Z.inj_add, length_data_bytes.
  rewrite push16_Throw by lia. reflexivity.
Qed.

Lemma samplesParser_encode_capacity pack pre loop post :
  (NUM_PAGES ≤ length (pages pack))%nat →
  u32 (default 0 (reserved0 pack)) → u32 (default 0 (reserved1 pack)) →
  u32 (default 0 (reserved2 pack)) → u32 (default 0 (reserved3 pack)) →
  Forall (λ page, u16 (id page)) (take NUM_PAGES (pages pack)) →
  pack_slots pack = pre ++ Some loop :: post →
  slots_encodable 0 pre →
  0xFFFF < slots_size pre →
  samplesParser_encode pack = Throw (RangeError_out_of_range (slots_size pre) 16).
Proof.
  intros Hlen H0 H1 H2 H3 Hids Hsplit Hpre Hsize. unfold samplesParser_encode.
  rewrite (encodes_Ok _ _ _ (push32_opt_spec _ _) H0). simpl_bind.
  rewrite (encodes_Ok _ _ _ (push32_opt_spec _ _) H1). simpl_bind.
  rewrite (encodes_Ok _ _ _ (push32_opt_spec _ _) H2). simpl_bind.
  rewrite (encodes_Ok _ _ _ (push32_opt_spec _ _) H3). simpl_bind.
  rewrite encode_page_ids_take by exact Hlen.
  rewrite (encodes_Ok _ _ _ (encode_ids_spec _ _) Hids). simpl_bind.
  rewrite encode_pages_slots by exact Hlen.
  by rewrite (encode_slots_capacity _ pre loop post ByteArray_new ByteArray_new
                Hsplit Hpre Hsize).
Qed.

End offsets.

(** ** The decoder, one loop at a time *)

Section decoder.

Implicit Types (d : ByteArray) (rest : list Z).

(** The [loopExists] loop consumes the offset table and keeps, of each
    entry, only whether it is the sentinel. *)
Lemma decode_exists_loop (n : nat) : ∀ (k : nat) (offs rest : list Z) (acc : list bool),
  length offs = (2 * n)%nat →
  foldM decode_exists (acc, mkByteArray (offs ++ rest)) (seq k n)
  = Ok (acc ++ (exists_flag <$> entries offs), mkByteArray rest).
Proof.
  induction n as [| n IH]; intros k offs rest acc Hlen.
  - destruct offs; [| discriminate]. simpl. by rewrite app_nil_r.
  - destruct offs as [| lsb [| msb offs]]; [simpl in Hlen; lia.. |].
    cbn [seq foldM decode_exists pop16 data app]. simpl_bind.
    rewrite IH by (simpl in Hlen; lia).
    cbn [entries fmap list_fmap]. by rewrite <- app_assoc.
Qed.

Lemma exists_flag_agree (vs1 vs2 : list Z) :
  Forall2 (λ v1 v2, v1 = v2 ∨ (v1 ≠ 0xFFFF ∧ v2 ≠ 0xFFFF)) vs1 vs2 →
  exists_flag <$> vs1 = exists_flag <$> vs2.
Proof.
  induction 1 as [| v1 v2 vs1 vs2 Hv _ IH]; [reflexivity |].
  rewrite !fmap_cons, IH. f_equal. unfold exists_flag.
  destruct Hv as [-> | [H1 H2]]; [reflexivity |].
  destruct (Z.eqb_spec v1 0xFFFF), (Z.eqb_spec v2 0xFFFF); congruence.
Qed.

(** The page-id loop consumes one 16-bit entry per page. *)
Lemma decode_page_ids_loop (n : nat) : ∀ (k : nat) (ids rest : list Z) (acc : list Page),
  length ids = (2 * n)%nat →
  foldM decode_page_id (acc, mkByteArray (ids ++ rest)) (seq k n)
  = Ok (acc ++ ((λ v, mkPage v []) <$> entries ids), mkByteArray rest).
Proof.
  induction n as [| n IH]; intros k ids rest acc Hlen.
  - destruct ids; [| discriminate]. simpl. by rewrite app_nil_r.
  - destruct ids as [| lsb [| msb ids]]; [simpl in Hlen; lia.. |].
    cbn [seq foldM decode_page_id pop16 data app]. simpl_bind.
    rewrite IH by (simpl in Hlen; lia).
    cbn [entries fmap list_fmap]. by rewrite <- app_assoc.
Qed.

(** What the decoder does once the 36 bytes of header and page ids are
    read: it depends on the offset table through [exists_flag] only. *)
Lemma samplesParser_decode_prefix (pre : list Z) :
  length pre = 36%nat →
  ∃ (r0 r1 r2 r3 : Z) (ps : list Page),
    ∀ offs rest,
      length offs = (2 * (NUM_PAGES * LOOPS_PER_PAGE))%nat →
      samplesParser_decode (pre ++ offs ++ rest)
      = foldM (decode_page (exists_flag <$> entries offs)) (ps, mkByteArray rest)
              (seq 0 NUM_PAGES)
        ≫= λ '(ps, d), Ok (mkSamplePack (Some r0) (Some r1) (Some r2) (Some r3) ps).
Proof.
  intros Hpre.
  do 16 (destruct pre as [| ? pre]; [discriminate |]).
  assert (Hids : length pre = (2 * NUM_PAGES)%nat) by (change NUM_PAGES with 10%nat; simpl in Hpre; lia).
  do 5 eexists. intros offs rest Hoffs.
  unfold samplesParser_decode, ByteArray_from.
  cbn [app pop32 data mbind result_mbind result_bind].
  rewrite (decode_page_ids_loop _ 0 pre (offs ++ rest) [] Hids). simpl_bind.
  rewrite (decode_exists_loop _ 0 offs rest [] Hoffs). simpl_bind.
  cbn [app]. reflexivity.
Qed.

End decoder.

(** ** Encoded buffers hold bytes *)

Section bytes.

Implicit Types (pack : SamplePack) (sl : list (option LoopData)).

Lemma Uint8Array_from_bytes (l : list Z) : Forall byte l → Uint8Array_from l = l.
Proof.
  unfold Uint8Array_from. induction 1 as [| b l Hb _ IH]; [reflexivity |].
  rewrite fmap_cons, IH, Z.mod_small by exact Hb. reflexivity.
Qed.

Lemma byte_mod (v : Z) : byte (v mod 256).
Proof. apply Z.mod_pos_bound. lia. Qed.

Lemma le16_bytes v : Forall byte (le16 v).
Proof. unfold le16. repeat constructor; apply byte_mod. Qed.

Lemma le32_bytes v : Forall byte (le32 v).
Proof. unfold le32. repeat constructor; apply byte_mod. Qed.

Lemma event_bytes_bytes (event : NoteEventTime) :
  event_encodable event → Forall byte (event_bytes event).
Proof.
  intros [Hp _]. unfold event_bytes. apply Forall_app. split; [| apply le16_bytes].
  pose proof (Z.mod_pos_bound (note event.2) 128).
  repeat constructor; unfold byte; lia.
Qed.

Lemma loop_bytes_bytes (loop : LoopData) :
  loop_encodable loop → Forall byte (loop_bytes loop).
Proof.
  intros (Hb & Hn & Hevs). unfold loop_bytes. apply Forall_app. split.
  - repeat constructor; unfold byte; lia.
  - apply Forall_concat, Forall_fmap.
    eapply Forall_impl; [exact Hevs | apply event_bytes_bytes].
Qed.

Lemma data_bytes_bytes sl :
  Forall (from_option loop_encodable True) sl → Forall byte (data_bytes sl).
Proof.
  intros Hsl. unfold data_bytes. apply Forall_concat, Forall_fmap.
  eapply Forall_impl; [exact Hsl |].
  intros [loop |] Hl; simpl; [by apply loop_bytes_bytes | constructor].
Qed.

Lemma offsets_bytes_bytes sl off : Forall byte (offsets_bytes off sl).
Proof.
  revert off. induction sl as [| [loop |] sl IH]; intros off; cbn [offsets_bytes].
  - constructor.
  - apply Forall_app. split; [apply le16_bytes | apply IH].
  - apply Forall_app. split; [apply le16_bytes | apply IH].
Qed.

Lemma pack_image_bytes pack : pack_encodable pack → Forall byte (pack_image pack).
Proof.
  intros (_ & _ & Hsl). unfold pack_image, header_bytes, ids_bytes.
  repeat (apply Forall_app; split); try apply le32_bytes.
  - apply Forall_concat, Forall_fmap, Forall_true. intros page. apply le16_bytes.
  - apply offsets_bytes_bytes.
  - by eapply data_bytes_bytes, slots_encodable_Forall.
Qed.

End bytes.

(** ** Reading back what the encoder wrote *)

Section readback.

Implicit Types (d : ByteArray) (rest : list Z) (sl : list (option LoopData)).

Lemma le16_sum v : 0 <= v <= 0xFFFF → v mod 256 + v / 2 ^ 8 mod 256 * 2 ^ 8 = v.
Proof. intros Hv. change (2 ^ 8) with 256. Z.div_mod_to_equations. lia. Qed.

Lemma entries_le16 v (l : list Z) :
  0 <= v <= 0xFFFF → entries (le16 v ++ l) = v :: entries l.
Proof.
  intros Hv. unfold le16. cbn [app entries].
  by rewrite le16_value, le16_sum by (try apply byte_mod; lia).
Qed.

Lemma pop16_le16 v rest :
  0 <= v <= 0xFFFF → pop16 (mkByteArray (le16 v ++ rest)) = Ok (v, mkByteArray rest).
Proof.
  intros Hv. unfold pop16, le16. cbn [app data].
  by rewrite le16_value, le16_sum by (try apply byte_mod; lia).
Qed.

Lemma pop32_le32 v rest :
  0 <= v <= 0xFFFFFFFF → pop32 (mkByteArray (le32 v ++ rest)) = Ok (v, mkByteArray rest).
Proof.
  intros Hv. unfold pop32, le32. cbn [app data].
  rewrite le32_value by (apply byte_mod).
  do 2 f_equal.
  change (2 ^ 8) with 256. change (2 ^ 16) with 65536. change (2 ^ 24) with 16777216.
  Z.div_mod_to_equations. lia.
Qed.

(** The state bit and the velocity bits of the packed byte of a valid
    event. *)
Lemma packed_split (ev : NoteEvent) :
  valid_note_event ev →
  JS.and (JS.sar (packed ev) 7) 0x01 = state ev ∧ JS.and (packed ev) 0x7F = velocity ev.
Proof.
  intros (_ & Hs & Hv). rewrite and_0x01, and_0x7F, sar_const by lia.
  rewrite (packed_valid ev Hs), (Z.mod_small (velocity ev)) by lia.
  rewrite toInt32_small by (destruct Hs as [-> | ->]; lia).
  change (2 ^ 7) with 128. split.
  - destruct Hs as [-> | ->]; Z.div_mod_to_equations; lia.
  - destruct Hs as [-> | ->]; Z.div_mod_to_equations; lia.
Qed.

Lemma decode_event_bytes (event : NoteEventTime) (evs : list NoteEventTime) rest (i : nat) :
  valid_event event →
  decode_event (evs, mkByteArray (event_bytes event ++ rest)) i
  = Ok (evs ++ [event], mkByteArray rest).
Proof.
  destruct event as [ticks [n s v]]. intros [Ht Hev].
  destruct (packed_split _ Hev) as [Hstate Hvel].
  unfold decode_event, event_bytes.
  cbn [app pop8 data fst snd mbind result_mbind result_bind].
  rewrite (pop16_le16 ticks rest Ht). simpl_bind.
  cbn [fst snd state velocity] in Hstate, Hvel. rewrite Hstate, Hvel.
  rewrite and_0x7F, Z.mod_mod by lia.
  destruct Hev as (Hn & _ & _). cbn [note fst snd] in *.
  by rewrite Z.mod_small by lia.
Qed.

Lemma decode_events_loop (evs : list NoteEventTime) :
  ∀ (k : nat) (acc : list NoteEventTime) rest,
    Forall valid_event evs →
    foldM decode_event (acc, mkByteArray (concat (event_bytes <$> evs) ++ rest))
          (seq k (length evs))
    = Ok (acc ++ evs, mkByteArray rest).
Proof.
  induction evs as [| event evs IH]; intros k acc rest Hevs.
  - simpl. by rewrite app_nil_r.
  - inversion Hevs as [| ? ? Hev Hevs']; subst.
    rewrite fmap_cons, concat_cons, <- app_assoc.
    cbn [length seq foldM]. rewrite decode_event_bytes by exact Hev. simpl_bind.
    rewrite IH by exact Hevs'. by rewrite <- app_assoc.
Qed.

Lemma decode_slot_absent (flags : list bool) (p s : nat)
    (acc : list (option LoopData)) d :
  flags !! (p * NUM_PAGES + s)%nat = Some false →
  decode_slot flags p (acc, d) s = Ok (acc ++ [None], d).
Proof. intros Hf. unfold decode_slot. by rewrite Hf. Qed.

Lemma decode_slot_present (flags : list bool) (p s : nat)
    (acc : list (option LoopData)) (loop : LoopData) rest :
  flags !! (p * NUM_PAGES + s)%nat = Some true →
  valid_loop loop →
  decode_slot flags p (acc, mkByteArray (loop_bytes loop ++ rest)) s
  = Ok (acc ++ [Some loop], mkByteArray rest).
Proof.
  intros Hf (Hb & Hn & Hevs). unfold decode_slot. rewrite Hf.
  unfold loop_bytes. cbn [app pop8 data mbind result_mbind result_bind].
  rewrite Nat2Z.id, decode_events_loop by exact Hevs. simpl_bind.
  by destruct loop.
Qed.

(** The slot loop of one page, when the flags the decoder looks up are
    those of the slots whose bytes come next. *)
Lemma decode_slots_loop (flags : list bool) (p : nat) sl :
  ∀ (k : nat) (acc : list (option LoopData)) rest,
    (∀ (j : nat) o, sl !! j = Some o →
       flags !! (p * NUM_PAGES + (k + j))%nat = Some (is_present o)) →
    Forall (from_option valid_loop True) sl →
    foldM (decode_slot flags p) (acc, mkByteArray (data_bytes sl ++ rest))
          (seq k (length sl))
    = Ok (acc ++ sl, mkByteArray rest).
Proof.
  induction sl as [| o sl IH]; intros k acc rest Hflags Hsl.
  - simpl. by rewrite app_nil_r.
  - inversion Hsl as [| ? ? Ho Hsl']; subst.
    change (o :: sl) with ([o] ++ sl) at 1. rewrite data_bytes_app, <- app_assoc.
    cbn [length seq foldM].
    pose proof (Hflags 0%nat o eq_refl) as Hf. rewrite Nat.add_0_r in Hf.
    destruct o as [loop |].
    + change (data_bytes [Some loop]) with (loop_bytes loop ++ []). rewrite app_nil_r.
      rewrite (decode_slot_present flags p k acc loop _ Hf Ho). simpl_bind.
      rewrite IH; [by rewrite <- app_assoc | | exact Hsl'].
      intros j o Hj. replace (S k + j)%nat with (k + S j)%nat by lia. by apply Hflags.
    + change (data_bytes [None]) with (@nil Z). cbn [app].
      rewrite (decode_slot_absent flags p k acc _ Hf). simpl_bind.
      rewrite IH; [by rewrite <- app_assoc | | exact Hsl'].
      intros j o Hj. replace (S k + j)%nat with (k + S j)%nat by lia. by apply Hflags.
Qed.

End readback.

(** ** The decoder on an encoded pack *)

Section pages_loop.

Implicit Types (pack : SamplePack) (sl : list (option LoopData)) (rest : list Z).

(** The presence flags the decoder derives from an encoded offset
    table: no offset of a present loop is the sentinel, because every
    offset is even. *)
Lemma exists_flags_offsets sl : ∀ off,
  (∃ h, off = 2 * h) → 0 <= off → slots_encodable off sl →
  exists_flag <$> entries (offsets_bytes off sl) = is_present <$> sl.
Proof.
  induction sl as [| [loop |] sl IH]; intros off [h Hh] Hoff Hsl; cbn [offsets_bytes].
  - reflexivity.
  - destruct Hsl as (Hle & _ & Hsl).
    rewrite entries_le16, !fmap_cons by lia. f_equal.
    + unfold exists_flag. destruct (Z.eqb_spec off 0xFFFF); [lia | reflexivity].
    + apply IH; [| pose proof (loop_size_nonneg loop); lia | exact Hsl].
      exists (h + 1 + 2 * Z.of_nat (length (events loop))). unfold loop_size. lia.
  - rewrite entries_le16, !fmap_cons by lia. f_equal. apply IH; eauto.
Qed.

Lemma entries_ids (pgs : list Page) :
  Forall (λ page, u16 (id page)) pgs →
  entries (concat ((λ page, le16 (id page)) <$> pgs)) = id <$> pgs.
Proof.
  induction 1 as [| page pgs Hid _ IH]; [reflexivity |].
  by rewrite !fmap_cons, concat_cons, entries_le16, IH by exact Hid.
Qed.

(** Slot [s] of page [j] in the traversal. *)
Lemma concat_lookup_regular {A : Type} (n : nat) (ls : list (list A)) :
  Forall (λ l, length l = n) ls →
  ∀ (j s : nat) l x, ls !! j = Some l → l !! s = Some x →
    concat ls !! (j * n + s)%nat = Some x.
Proof.
  induction 1 as [| l0 ls Hl0 _ IH]; intros j s l x Hj Hs; [done |].
  rewrite concat_cons. destruct j as [| j]; simpl in Hj.
  - injection Hj as ->. rewrite lookup_app_l by (by eapply lookup_lt_Some). exact Hs.
  - rewrite lookup_app_r by lia.
    replace (S j * n + s - length l0)%nat with (j * n + s)%nat by lia.
    by eapply IH.
Qed.

Lemma pack_slots_lookup pack (j s : nat) page o :
  length (pages pack) = NUM_PAGES →
  Forall (λ page, length (loops page) = LOOPS_PER_PAGE) (pages pack) →
  pages pack !! j = Some page → loops page !! s = Some o →
  pack_slots pack !! (j * LOOPS_PER_PAGE + s)%nat = Some o.
Proof.
  intros Hlen Hshape Hj Hs. rewrite (pack_slots_all pack Hlen Hshape).
  apply (concat_lookup_regular LOOPS_PER_PAGE _ (proj2 (Forall_fmap _ _ _) Hshape)
           j s (loops page) o); [| exact Hs].
  by rewrite list_lookup_fmap, Hj.
Qed.

Lemma decode_page_lookup (flags : list bool) (ps : list Page) (d : ByteArray)
    (p : nat) (page : Page) :
  ps !! p = Some page →
  decode_page flags (ps, d) p
  = foldM (decode_slot flags p) (loops page, d) (seq 0 LOOPS_PER_PAGE)
    ≫= λ '(page_loops, d), Ok (<[p := mkPage (id page) page_loops]> ps, d).
Proof. intros Hp. unfold decode_page. by rewrite Hp. Qed.

(** The page loop, on pages whose slots the [loopExists] lookups
    describe. *)
Lemma decode_pages_loop (flags : list bool) (pgs : list Page) :
  Forall valid_page pgs →
  (∀ (j s : nat) page o,
     pgs !! j = Some page → loops page !! s = Some o →
     flags !! (j * NUM_PAGES + s)%nat = Some (is_present o)) →
  ∀ (n p : nat) (ps : list Page) rest,
    (p + n)%nat = length pgs →
    length ps = length pgs →
    (∀ (j : nat) page, (p ≤ j)%nat → pgs !! j = Some page →
       ps !! j = Some (mkPage (id page) [])) →
    foldM (decode_page flags)
          (ps, mkByteArray (data_bytes (concat (loops <$> drop p pgs)) ++ rest))
          (seq p n)
    = Ok (take p ps ++ drop p pgs, mkByteArray rest).
Proof.
  intros Hvalid Hflags. induction n as [| n IH]; intros p ps rest Hp Hlen Hps.
  - rewrite drop_ge, take_ge by lia. cbn [seq foldM fmap list_fmap concat].
    rewrite app_nil_r. reflexivity.
  - destruct (lookup_lt_is_Some_2 pgs p ltac:(lia)) as [page Hpage].
    rewrite (drop_S pgs page p Hpage), fmap_cons, concat_cons, data_bytes_app, <- app_assoc.
    cbn [seq foldM].
    rewrite (decode_page_lookup flags ps _ p _ (Hps p page (Nat.le_refl p) Hpage)).
    cbn [loops id].
    rewrite Forall_forall in Hvalid.
    destruct (Hvalid page (list_elem_of_lookup_2 _ _ _ Hpage)) as (_ & Hl & Hloops).
    rewrite <- Hl, (decode_slots_loop flags p (loops page) 0 []); [| | exact Hloops].
    + simpl_bind. cbn [app].
      replace (mkPage (id page) (loops page)) with page by (by destruct page).
      rewrite IH.
      * rewrite (take_S_r _ p page) by (apply list_lookup_insert_eq; lia).
        by rewrite take_insert_ge, <- app_assoc by lia.
      * lia.
      * rewrite length_insert. exact Hlen.
      * intros j page' Hj Hpage'. rewrite list_lookup_insert_ne by lia.
        apply Hps; [lia | exact Hpage'].
    + intros j o Ho. by apply (Hflags p j page o).
Qed.

End pages_loop.

(** ** Round trip, where the decoder finds every flag *)

Section roundtrip.

Implicit Types (pack : SamplePack).

Lemma present_lookup pack (k : nat) o :
  pack_slots pack !! k = Some o → present pack k = is_present o.
Proof. intros Hk. unfold present. rewrite Hk. by destruct o. Qed.

(** Under [presence_agrees] the flag the decoder looks up for a slot is
    the flag of that slot. *)
Lemma presence_agrees_flags pack (j s : nat) page o :
  length (pages pack) = NUM_PAGES →
  Forall (λ page, length (loops page) = LOOPS_PER_PAGE) (pages pack) →
  presence_agrees pack →
  pages pack !! j = Some page → loops page !! s = Some o →
  (is_present <$> pack_slots pack) !! (j * NUM_PAGES + s)%nat = Some (is_present o).
Proof.
  intros Hlen Hshape Hagree Hj Hs.
  assert (Hjlt : (j < NUM_PAGES)%nat) by (rewrite <- Hlen; by eapply lookup_lt_Some).
  assert (Hslt : (s < LOOPS_PER_PAGE)%nat).
  { rewrite Forall_forall in Hshape.
    rewrite <- (Hshape page (list_elem_of_lookup_2 _ _ _ Hj)). by eapply lookup_lt_Some. }
  unfold presence_agrees in Hagree. rewrite Forall_forall in Hagree.
  specialize (Hagree j (proj2 (elem_of_seq 0 NUM_PAGES j) ltac:(lia))).
  rewrite Forall_forall in Hagree.
  specialize (Hagree s (proj2 (elem_of_seq 0 LOOPS_PER_PAGE s) ltac:(lia))).
  rewrite (present_lookup pack _ o (pack_slots_lookup pack j s page o Hlen Hshape Hj Hs))
    in Hagree.
  destruct (lookup_lt_is_Some_2 (pack_slots pack) (j * NUM_PAGES + s)) as [o' Ho'].
  { rewrite length_pack_slots by lia.
    change NUM_PAGES with 10%nat in *. change LOOPS_PER_PAGE with 15%nat in *. lia. }
  rewrite (present_lookup pack _ o' Ho') in Hagree.
  by rewrite list_lookup_fmap, Ho', <- Hagree.
Qed.

(** A valid pack on which the decoder's lookups agree with the encoder's
    layout is decoded to itself. *)
Lemma roundtrip_when_presence_agrees pack :
  valid_pack pack → presence_agrees pack →
  ∃ buf, samplesParser_encode pack = Ok buf ∧ samplesParser_decode buf = Ok pack.
Proof.
  intros Hvalid Hagree.
  pose proof (valid_pack_encodable pack Hvalid) as Henc.
  destruct (valid_fields_shape pack (proj1 Hvalid)) as [Hlen Hshape].
  assert (Hlen' : (NUM_PAGES ≤ length (pages pack))%nat) by lia.
  exists (pack_image pack). split.
  { rewrite <- (Uint8Array_from_bytes (pack_image pack))
      by (by apply pack_image_bytes).
    by apply (encodes_Ok _ _ _ (samplesParser_encode_spec pack Hlen')). }
  destruct Henc as ((H0 & H1 & H2 & H3) & Hids & Hsl).
  destruct Hvalid as [(V0 & V1 & V2 & V3 & _ & Hpages) _].
  unfold samplesParser_decode, ByteArray_from, pack_image, header_bytes.
  rewrite <- !app_assoc.
  rewrite pop32_le32 by exact H0. simpl_bind.
  rewrite pop32_le32 by exact H1. simpl_bind.
  rewrite pop32_le32 by exact H2. simpl_bind.
  rewrite pop32_le32 by exact H3. simpl_bind.
  rewrite (decode_page_ids_loop NUM_PAGES 0 (ids_bytes pack))
    by (by apply length_ids_bytes).
  simpl_bind.
  rewrite (decode_exists_loop (NUM_PAGES * LOOPS_PER_PAGE) 0
             (offsets_bytes 0 (pack_slots pack)) (data_bytes (pack_slots pack)))
    by (rewrite length_offsets_bytes, length_pack_slots by exact Hlen'; reflexivity).
  simpl_bind. cbn [app].
  rewrite exists_flags_offsets; [| by exists 0 | lia | exact Hsl].
  unfold ids_bytes. rewrite <- Hlen, firstn_all in Hids |- *.
  rewrite (entries_ids _ Hids).
  rewrite (pack_slots_all pack Hlen Hshape) at 2.
  rewrite <- (app_nil_r (data_bytes _)).
  pose proof (decode_pages_loop (is_present <$> pack_slots pack) (pages pack) Hpages)
    as Hloop.
  specialize (Hloop (λ j s page o Hj Hs,
    presence_agrees_flags pack j s page o Hlen Hshape Hagree Hj Hs)).
  specialize (Hloop (length (pages pack)) 0%nat
                ((λ v, mkPage v []) <$> (id <$> pages pack)) []).
  rewrite drop_0, take_0 in Hloop. rewrite Hloop.
  - simpl_bind. cbn [app].
    by destruct pack as [[v0 |] [v1 |] [v2 |] [v3 |] pgs].
  - reflexivity.
  - by rewrite !length_fmap.
  - intros j page _ Hj. by rewrite !list_lookup_fmap, Hj.
Qed.

End roundtrip.

(** ** Masking of note and velocity *)

Section masking.

Implicit Types (pack : SamplePack) (page : Page).

Lemma and_0x7F_idemp x : JS.and (JS.and x 0x7F) 0x7F = JS.and x 0x7F.
Proof. rewrite !and_0x7F. apply Z.mod_mod. lia. Qed.

(** The encoder writes the same bytes for an event and for its masked
    form. *)
Lemma encode_event_mask (ld : ByteArray) (event : NoteEventTime) :
  encode_event ld (mask_event event) = encode_event ld event.
Proof.
  destruct event as [ticks [n s v]]. unfold encode_event, mask_event.
  cbn [fst snd note state velocity]. by rewrite !and_0x7F_idemp.
Qed.

Lemma encode_loop_opt_mask st (o : option LoopData) :
  encode_loop_opt st (mask_loop <$> o) = encode_loop_opt st o.
Proof.
  destruct st as [lo ld], o as [loop |]; [| reflexivity].
  cbn [fmap option_fmap option_map encode_loop_opt mask_loop length_beats events].
  rewrite length_fmap.
  destruct (push16 _ lo) as [lo' | e]; simpl_bind; [| reflexivity].
  destruct (push8 (length_beats loop) ld) as [ld1 | e]; simpl_bind; [| reflexivity].
  destruct (push8 _ ld1) as [ld2 | e]; simpl_bind; [| reflexivity].
  rewrite <- foldM_fmap.
  by rewrite (foldM_ext _ encode_event) by (intros; apply encode_event_mask).
Qed.

Lemma slot_at_mask page (s : nat) :
  slot_at (mask_page page) s = mask_loop <$> slot_at page s.
Proof.
  unfold slot_at, mask_page. cbn [loops]. rewrite list_lookup_fmap.
  by destruct (loops page !! s) as [[loop |] |].
Qed.

Lemma samplesParser_encode_mask pack :
  samplesParser_encode (mask_pack pack) = samplesParser_encode pack.
Proof.
  unfold samplesParser_encode, mask_pack.
  cbn [reserved0 reserved1 reserved2 reserved3].
  destruct (push32_opt _ _) as [d0 | e]; simpl_bind; [| reflexivity].
  destruct (push32_opt _ _) as [d1 | e]; simpl_bind; [| reflexivity].
  destruct (push32_opt _ _) as [d2 | e]; simpl_bind; [| reflexivity].
  destruct (push32_opt _ _) as [d3 | e]; simpl_bind; [| reflexivity].
  rewrite (foldM_ext _ (encode_page_id pack)); cycle 1.
  { intros d i _. unfold encode_page_id. cbn [pages]. rewrite list_lookup_fmap.
    by destruct (pages pack !! i). }
  rewrite (foldM_ext _ (encode_page pack)); [reflexivity |].
  intros st i _. unfold encode_page. cbn [pages]. rewrite list_lookup_fmap.
  destruct (pages pack !! i) as [page |]; [| reflexivity]. cbn [fmap option_fmap option_map].
  apply foldM_ext. intros st' s _.
  by rewrite !encode_slot_slot_at, slot_at_mask, encode_loop_opt_mask.
Qed.

Lemma page_slots_mask page :
  page_slots (mask_page page) = (λ o : option LoopData, mask_loop <$> o) <$> page_slots page.
Proof.
  unfold page_slots. rewrite <- list_fmap_compose.
  apply list_fmap_ext. intros _ s _. apply slot_at_mask.
Qed.

Lemma pack_slots_mask pack :
  pack_slots (mask_pack pack)
  = (λ o : option LoopData, mask_loop <$> o) <$> pack_slots pack.
Proof.
  unfold pack_slots, mask_pack. cbn [pages]. rewrite <- fmap_take.
  induction (take NUM_PAGES (pages pack)) as [| page pgs IH]; [reflexivity |].
  by rewrite !fmap_cons, !concat_cons, fmap_app, IH, page_slots_mask.
Qed.

Lemma present_mask pack (k : nat) : present (mask_pack pack) k = present pack k.
Proof.
  unfold present. rewrite pack_slots_mask, list_lookup_fmap.
  by destruct (pack_slots pack !! k) as [[loop |] |].
Qed.

Lemma presence_agrees_mask pack : presence_agrees pack → presence_agrees (mask_pack pack).
Proof.
  unfold presence_agrees. intros H.
  eapply Forall_impl; [exact H |]. intros p Hp.
  eapply Forall_impl; [exact Hp |]. intros s Hs. by rewrite !present_mask.
Qed.

(** Where the decoder finds every flag, a pack whose other fields are
    valid is read back with [note] and [velocity] narrowed to seven
    bits; the encoder raises no error for them. *)
Lemma masking_readback pack :
  valid_pack (mask_pack pack) → presence_agrees pack →
  ∃ buf, samplesParser_encode pack = Ok buf ∧ samplesParser_decode buf = Ok (mask_pack pack).
Proof.
  intros Hvalid Hagree. rewrite <- samplesParser_encode_mask.
  apply roundtrip_when_presence_agrees; [exact Hvalid | by apply presence_agrees_mask].
Qed.

End masking.

(** ** An out-of-range state *)

Section state_bit.

Lemma shl7_mod s : JS.shl s 7 mod 2 ^ 32 = 128 * (s mod 2 ^ 25).
Proof.
  rewrite shl_const, toInt32_mod by lia.
  change (2 ^ 32) with (2 ^ 25 * 2 ^ 7).
  rewrite Z.mul_mod_distr_r by lia.
  rewrite (toInt32_mod_pow2 s 25) by lia. change (2 ^ 7) with 128. lia.
Qed.

Lemma shl7_range s : - 2 ^ 31 <= JS.shl s 7 < 2 ^ 31.
Proof. rewrite shl_const by lia. apply toInt32_range. Qed.

(** The packed value is a byte exactly when the state is 0 or 1 modulo
    2^25. *)
Lemma packed_byte_iff (ev : NoteEvent) :
  0 <= packed ev <= 0xFF ↔ (state ev mod 2 ^ 25 = 0 ∨ state ev mod 2 ^ 25 = 1).
Proof.
  rewrite packed_sum.
  pose proof (shl7_mod (state ev)) as Hmod.
  pose proof (shl7_range (state ev)) as Hrange.
  pose proof (shl7_multiple (state ev)) as Hmult.
  pose proof (Z.mod_pos_bound (velocity ev) 128).
  pose proof (Z.mod_pos_bound (state ev) (2 ^ 25)).
  change (2 ^ 32) with 4294967296 in *. change (2 ^ 31) with 2147483648 in *.
  change (2 ^ 25) with 33554432 in *.
  revert Hmod Hmult Hrange. generalize (JS.shl (state ev) 7). intros x Hmod Hmult Hrange.
  set (sm := state ev mod 33554432) in *. set (v7 := velocity ev mod 128) in *.
  assert (Hx : ∃ q, x = 128 * q) by (exists (x / 128); Z.div_mod_to_equations; lia).
  destruct Hx as [q ->]. clear Hmult.
  split.
  - intros Hb. assert (Hq : q = 0 ∨ q = 1) by lia.
    destruct Hq as [-> | ->]; Z.div_mod_to_equations; lia.
  - intros Hs. Z.div_mod_to_equations. lia.
Qed.

Lemma packed_low_bits (ev : NoteEvent) :
  JS.and (packed ev) 0x7F = JS.and (velocity ev) 0x7F.
Proof.
  rewrite !and_0x7F, packed_sum.
  pose proof (shl7_multiple (state ev)) as Hmult.
  rewrite Zplus_mod, Hmult, Z.add_0_l, !Z.mod_mod by lia. reflexivity.
Qed.

End state_bit.

(** * The claims *)

(** ** Reserved words over the full unsigned range *)

(** C9.  For every integer [v] in [0, 4294967295], pushing [v] with
    [push32] onto an empty [ByteArray] and then calling [pop32] returns
    exactly [v] and leaves the array empty; values at or above 2^31
    included, where [>>> 0] makes the reassembled value unsigned. *)
Theorem push32_pop32_roundtrip (v : Z) :
  0 <= v <= 4294967295 →
  ∃ d, push32 v ByteArray_new = Ok d ∧ pop32 d = Ok (v, ByteArray_new).
Proof.
  intros Hv. eexists. split; [apply push32_Ok; lia |].
  unfold pop32, le32. cbn [data ByteArray_new app].
  rewrite le32_value by (apply Z.mod_pos_bound; lia).
  do 2 f_equal.
  change (2 ^ 8) with 256. change (2 ^ 16) with 65536. change (2 ^ 24) with 16777216.
  Z.div_mod_to_equations. lia.
Qed.

Lemma push32_pop32_roundtrip_witness :
  ∃ d, push32 0xFFFFFFFF ByteArray_new = Ok d ∧ pop32 d = Ok (0xFFFFFFFF, ByteArray_new).
Proof. apply (push32_pop32_roundtrip 0xFFFFFFFF). lia. Defined.

(** ** Size agreement *)

(** C5.  For every valid SamplePack, the byte length of
    [samplesParser_encode pack] equals [336 + getPackSize pack]; and
    [getPageByteSize] counts [2 + 4 * eventCount] for each present loop
    and 0 for each absent slot. *)
Theorem encode_length_size_agreement (pack : SamplePack) :
  valid_pack pack →
  (∃ buf, samplesParser_encode pack = Ok buf ∧
          Z.of_nat (length buf) = 336 + getPackSize pack) ∧
  (∀ page, getPageByteSize page
           = foldr (λ (o : option LoopData) acc,
                      match o with
                      | Some loop => 2 + 4 * Z.of_nat (length (events loop))
                      | None => 0
                      end + acc) 0 (loops page)).
Proof.
  intros Hvalid. split.
  - destruct (valid_fields_shape pack (proj1 Hvalid)) as [Hlen Hshape].
    assert (Hlen' : (NUM_PAGES ≤ length (pages pack))%nat) by lia.
    exists (Uint8Array_from (pack_image pack)). split.
    + apply (encodes_Ok _ _ _ (samplesParser_encode_spec pack Hlen')).
      by apply valid_pack_encodable.
    + unfold Uint8Array_from. rewrite length_fmap, length_pack_image by exact Hlen'.
      by rewrite getPackSize_slots_size.
  - intros page. rewrite getPageByteSize_slots_size. unfold slots_size.
    induction (loops page) as [| [loop |] sl IH]; simpl; [reflexivity | |];
      by rewrite IH.
Qed.

Lemma onePack_valid : valid_pack onePack.
Proof. apply (bool_decide_unpack _). vm_compute. exact I. Defined.

Lemma encode_length_size_agreement_witness :
  ∃ buf, samplesParser_encode onePack = Ok buf ∧
         Z.of_nat (length buf) = 336 + getPackSize onePack.
Proof. apply (encode_length_size_agreement onePack). exact onePack_valid. Defined.

(** ** Range checks on event counts and tick offsets *)

Lemma valid_other_shape (pack : SamplePack) :
  valid_other pack →
  length (pages pack) = NUM_PAGES ∧
  Forall (λ page, length (loops page) = LOOPS_PER_PAGE) (pages pack).
Proof.
  intros (_ & _ & _ & _ & Hlen & Hpages & _). split; [exact Hlen |].
  eapply Forall_impl; [exact Hpages |]. by intros page (_ & ? & _).
Qed.

(** C4.  For every SamplePack valid in all other respects,
    [samplesParser_encode] raises a [RangeError] whenever some loop has
    more than 255 events or some event has a tick offset outside
    [0, 65535]; and when every event count and every tick offset is in
    range, no check fires: the encoder returns a buffer. *)
Theorem range_checks_reported (pack : SamplePack) :
  valid_other pack →
  (∀ page loop,
     page ∈ pages pack → Some loop ∈ loops page →
     (255 < length (events loop))%nat ∨
     (∃ event, event ∈ events loop ∧ ¬ 0 <= event.1 <= 65535) →
     ∃ v b, samplesParser_encode pack = Throw (RangeError_out_of_range v b)) ∧
  ((∀ page loop,
      page ∈ pages pack → Some loop ∈ loops page →
      (length (events loop) ≤ 255)%nat ∧
      ∀ event, event ∈ events loop → 0 <= event.1 <= 65535) →
   ∃ buf, samplesParser_encode pack = Ok buf).
Proof.
  intros Hother. destruct (valid_other_shape pack Hother) as [Hlen Hshape].
  assert (Hlen' : (NUM_PAGES ≤ length (pages pack))%nat) by lia.
  pose proof (samplesParser_encode_spec pack Hlen') as Hspec.
  split.
  - intros page loop Hpage Hloop Hbad.
    apply (encodes_Throw _ _ _ Hspec). intros (_ & _ & Hsl).
    apply slots_encodable_Forall in Hsl.
    rewrite (pack_slots_all pack Hlen Hshape) in Hsl.
    rewrite Forall_concat, Forall_fmap, Forall_forall in Hsl.
    specialize (Hsl page Hpage). simpl in Hsl.
    rewrite Forall_forall in Hsl. specialize (Hsl (Some loop) Hloop). simpl in Hsl.
    apply loop_encodable_ranges in Hsl as [Hn Hticks].
    destruct Hbad as [Hbad | (event & Hev & Hbad)].
    + unfold count_in_range in Hn. lia.
    + rewrite Forall_forall in Hticks. by apply Hbad, Hticks.
  - intros Hgood. eexists. apply (encodes_Ok _ _ _ Hspec).
    apply valid_pack_encodable.
    destruct Hother as (H0 & H1 & H2 & H3 & _ & Hpages & Hsize).
    split; [| exact Hsize]. do 5 (split; [assumption |]).
    rewrite Forall_forall in Hpages. apply Forall_forall. intros page Hpage.
    destruct (Hpages page Hpage) as (Hid & Hl & Hloops).
    split; [exact Hid |]. split; [exact Hl |].
    rewrite Forall_forall in Hloops. apply Forall_forall. intros [loop |] Hloop; [| exact I].
    destruct (Hgood page loop Hpage Hloop) as [Hn Hticks].
    destruct (Hloops (Some loop) Hloop) as [Hb Hevs]. simpl.
    split; [exact Hb |]. split; [exact Hn |].
    rewrite Forall_forall in Hevs. apply Forall_forall. intros event Hev.
    split; [by apply Hticks | by apply Hevs].
Qed.

Lemma lateTickPack_valid_other : valid_other lateTickPack.
Proof. apply (bool_decide_unpack _). vm_compute. exact I. Defined.

Lemma range_checks_reported_witness :
  ∃ v b, samplesParser_encode lateTickPack = Throw (RangeError_out_of_range v b).
Proof.
  apply (proj1 (range_checks_reported lateTickPack lateTickPack_valid_other)
               (mkPage 0xFFFF (Some (mkLoopData 4 [(65536, mkNoteEvent 36 1 99)])
                               :: replicate 14 None))
               (mkLoopData 4 [(65536, mkNoteEvent 36 1 99)])).
  - vm_compute. left.
  - left.
  - right. exists (65536, mkNoteEvent 36 1 99). split; [left | simpl; lia].
Defined.

(** ** Capacity of the loop-data segment *)

(** C3.  For every SamplePack (of ten pages) in which the loop data
    preceding some present loop in traversal order takes 0xFFFF bytes or
    more, [samplesParser_encode] raises a [RangeError] and returns no
    buffer; when the header and the loops before are encodable, so that
    the encoder gets to that loop, the error is the one [push16] raises
    for the offset.  In every buffer the encoder returns, the offset
    entry of a present loop differs from the sentinel 0xFFFF. *)
Theorem capacity_exceeded_reported (pack : SamplePack) :
  (NUM_PAGES ≤ length (pages pack))%nat →
  (∀ pre loop post,
     pack_slots pack = pre ++ Some loop :: post →
     0xFFFF <= slots_size pre →
     (∃ v b, samplesParser_encode pack = Throw (RangeError_out_of_range v b)) ∧
     (u32 (default 0 (reserved0 pack)) → u32 (default 0 (reserved1 pack)) →
      u32 (default 0 (reserved2 pack)) → u32 (default 0 (reserved3 pack)) →
      Forall (λ page, u16 (id page)) (take NUM_PAGES (pages pack)) →
      slots_encodable 0 pre →
      samplesParser_encode pack
      = Throw (RangeError_out_of_range (slots_size pre) 16))) ∧
  (∀ buf k loop,
     samplesParser_encode pack = Ok buf →
     pack_slots pack !! k = Some (Some loop) →
     ∃ v, offset_entry buf k = Some v ∧ v ≠ 0xFFFF).
Proof.
  intros Hlen. pose proof (samplesParser_encode_spec pack Hlen) as Hspec. split.
  - intros pre loop post Hsplit Hsize.
    destruct (slots_size_even pre) as [h Hh]. split.
    + apply (encodes_Throw _ _ _ Hspec). intros (_ & _ & Hsl).
      pose proof (slots_encodable_offset _ _ _ _ Hsplit Hsl) as Hle. lia.
    + intros H0 H1 H2 H3 Hids Hpre.
      apply (samplesParser_encode_capacity pack pre loop post); try assumption. lia.
  - intros buf k loop Hbuf Hk.
    destruct (encodes_Ok_inv _ _ _ _ Hspec Hbuf) as [(_ & _ & Hsl) ->].
    set (sl := pack_slots pack) in *. set (off := slots_size (take k sl)).
    assert (Hoff : 0 <= off <= 0xFFFF).
    { split; [apply slots_size_nonneg |].
      apply (slots_encodable_offset sl (take k sl) loop (drop (S k) sl)); [| exact Hsl].
      symmetry. by apply take_drop_middle. }
    destruct (slots_size_even (take k sl)) as [h Hh]. fold off in Hh.
    destruct (offsets_bytes_lookup sl k loop Hk) as [Hlsb Hmsb]. fold off in Hlsb, Hmsb.
    assert (Hin : (2 * k + 1 < length (offsets_bytes 0 sl))%nat)
      by (apply lookup_lt_Some in Hmsb; exact Hmsb).
    exists off. split; [| lia].
    assert (Hbyte : ∀ (i : nat) b, offsets_bytes 0 sl !! i = Some b →
      Uint8Array_from (pack_image pack) !! (36 + i)%nat = Some (b mod 256)).
    { intros i b Hb. unfold Uint8Array_from.
      rewrite list_lookup_fmap, pack_image_offsets_lookup by exact Hlen. fold sl.
      rewrite lookup_app_l by (by eapply lookup_lt_Some). by rewrite Hb. }
    unfold offset_entry.
    replace (36 + 2 * k + 1)%nat with (36 + (2 * k + 1))%nat by lia.
    rewrite (Hbyte _ _ Hlsb), (Hbyte _ _ Hmsb). simpl.
    f_equal. rewrite le16_value by (apply Z.mod_pos_bound; lia).
    rewrite !Z.mod_mod by lia.
    change (2 ^ 8) with 256. Z.div_mod_to_equations. lia.
Qed.

Lemma capacity_exceeded_reported_witness :
  ∃ v b, samplesParser_encode overfullPack = Throw (RangeError_out_of_range v b).
Proof.
  apply (proj1 (capacity_exceeded_reported overfullPack ltac:(vm_compute; lia))
               (replicate 65 (Some fullLoop)) fullLoop
               (replicate 9 (Some fullLoop) ++ replicate 75 None)).
  - vm_compute. reflexivity.
  - vm_compute. discriminate.
Defined.

(** ** Short [loops] arrays *)

Lemma slot_at_pad_page (page : Page) (loop_idx : nat) :
  slot_at (pad_page page) loop_idx = slot_at page loop_idx.
Proof.
  unfold slot_at, pad_page. cbn [loops].
  destruct (decide (loop_idx < length (loops page))%nat) as [Hlt | Hge].
  - by rewrite lookup_app_l.
  - rewrite lookup_app_r by lia.
    rewrite (lookup_ge_None_2 (loops page)) by lia.
    destruct (replicate _ _ !! _) as [o |] eqn:Ho; [| reflexivity].
    by apply lookup_replicate in Ho as [-> _].
Qed.

(** ** The offset table as a presence bitmap *)

(** C8.  Two buffers that agree on the 36 bytes before the offset table
    and on everything after it, and whose offset tables differ only in
    entries that are not 0xFFFF in either buffer, decode to the same
    result: the decoder tests each entry against 0xFFFF and makes no
    other use of its value. *)
Theorem offsets_only_tested_for_sentinel (pre offs1 offs2 rest : list Z) :
  length pre = 36%nat →
  length offs1 = 300%nat →
  length offs2 = 300%nat →
  Forall2 (λ v1 v2, v1 = v2 ∨ (v1 ≠ 0xFFFF ∧ v2 ≠ 0xFFFF)) (entries offs1) (entries offs2) →
  samplesParser_decode (pre ++ offs1 ++ rest) = samplesParser_decode (pre ++ offs2 ++ rest).
Proof.
  intros Hpre H1 H2 Hentries.
  destruct (samplesParser_decode_prefix pre Hpre) as (r0 & r1 & r2 & r3 & ps & Hdec).
  rewrite (Hdec offs1 rest H1), (Hdec offs2 rest H2).
  by rewrite (exists_flag_agree _ _ Hentries).
Qed.

Lemma offsets_only_tested_for_sentinel_witness :
  samplesParser_decode (prefixBytes ++ tableA ++ segmentBytes)
  = samplesParser_decode (prefixBytes ++ tableB ++ segmentBytes).
Proof.
  apply offsets_only_tested_for_sentinel; [reflexivity.. |].
  apply (bool_decide_unpack _). vm_compute. exact I.
Defined.

(** ** The state bit *)

(** C7, as the code has it.  For every event whose state is an integer
    outside {0,1}, the bit-packing step has no check of its own on the
    state, yet the velocity bits of the packed value are never
    corrupted: bits 0-6 are those of the velocity.  When the state is
    neither 0 nor 1 modulo 2^25 the packed value is not a byte and
    [push8] raises a [RangeError], which aborts [samplesParser_encode];
    when it is 0 or 1 modulo 2^25 the event is encoded, with that
    residue in bit 7. *)
Theorem state_out_of_range_checked_by_push8 (event : NoteEventTime) (loopData : ByteArray) :
  ¬ (state event.2 = 0 ∨ state event.2 = 1) →
  JS.and (packed event.2) 0x7F = JS.and (velocity event.2) 0x7F ∧
  (¬ (state event.2 mod 2 ^ 25 = 0 ∨ state event.2 mod 2 ^ 25 = 1) →
   encode_event loopData event = Throw (RangeError_out_of_range (packed event.2) 8) ∧
   ∀ pack loop,
     (NUM_PAGES ≤ length (pages pack))%nat →
     Some loop ∈ pack_slots pack → event ∈ events loop →
     ∃ v b, samplesParser_encode pack = Throw (RangeError_out_of_range v b)) ∧
  (state event.2 mod 2 ^ 25 = 0 ∨ state event.2 mod 2 ^ 25 = 1 →
   0 <= event.1 <= 65535 →
   encode_event loopData event
   = Ok (mkByteArray (data loopData
                      ++ [note event.2 mod 128;
                          state event.2 mod 2 ^ 25 * 128 + velocity event.2 mod 128]
                      ++ le16 event.1))).
Proof.
  intros _. split; [apply packed_low_bits |]. split.
  - intros Hs. rewrite <- packed_byte_iff in Hs.
    assert (Hne : ¬ event_encodable event) by (by intros [? _]).
    split.
    + destruct event as [ticks ev]. unfold encode_event.
      rewrite (and_0x7F (note ev)), push8_Ok by apply note_low7. simpl_bind.
      fold (packed ev). by rewrite push8_Throw.
    + intros pack loop Hlen Hloop Hev.
      apply (encodes_Throw _ _ _ (samplesParser_encode_spec pack Hlen)).
      intros (_ & _ & Hsl). apply slots_encodable_Forall in Hsl.
      rewrite Forall_forall in Hsl. specialize (Hsl (Some loop) Hloop).
      destruct Hsl as (_ & _ & Hevs). rewrite Forall_forall in Hevs.
      by apply Hne, Hevs.
  - intros Hs Ht.
    assert (Henc : event_encodable event) by (split; [by apply packed_byte_iff | exact Ht]).
    rewrite (encodes_Ok _ _ _ (encode_event_spec loopData event) Henc).
    do 3 f_equal. unfold event_bytes. do 2 f_equal.
    rewrite packed_sum. f_equal.
    pose proof (shl7_mod (state event.2)) as Hmod.
    pose proof (shl7_range (state event.2)) as Hrange.
    change (2 ^ 32) with 4294967296 in *. change (2 ^ 31) with 2147483648 in *.
    destruct Hs as [Hs | Hs]; rewrite Hs in Hmod |- *;
      Z.div_mod_to_equations; lia.
Qed.

Lemma state_out_of_range_checked_by_push8_witness :
  encode_event ByteArray_new (0, mkNoteEvent 36 2 99)
  = Throw (RangeError_out_of_range 355 8).
Proof.
  apply (state_out_of_range_checked_by_push8 (0, mkNoteEvent 36 2 99) ByteArray_new).
  - simpl. lia.
  - vm_compute. intros [H | H]; discriminate H.
Defined.

(** C7, as stated, fails: no event with a state outside {0,1} is
    encoded with a packed byte whose velocity bits differ from the
    velocity's. *)
Lemma state_corrupts_velocity_counterexample :
  ¬ ∃ (event : NoteEventTime) (loopData loopData' : ByteArray),
      ¬ (state event.2 = 0 ∨ state event.2 = 1) ∧
      encode_event loopData event = Ok loopData' ∧
      ∃ b0 b1 b2 b3,
        data loopData' = data loopData ++ [b0; b1; b2; b3] ∧
        JS.and b1 0x7F ≠ JS.and (velocity event.2) 0x7F.
Proof.
  intros (event & ld & ld' & _ & Hok & b0 & b1 & b2 & b3 & Hdata & Hbits).
  destruct (encodes_Ok_inv _ _ _ _ (encode_event_spec ld event) Hok) as [_ ->].
  cbn [data] in Hdata. apply app_inv_head in Hdata.
  unfold event_bytes, le16 in Hdata. cbn [app] in Hdata.
  injection Hdata as _ <- _ _. apply Hbits, packed_low_bits.
Qed.

(** ** Where the decoder looks for the presence flags *)

(** C1, on [onePack]: the loop encoded in slot 0 of page 1 is decoded
    into slot 5 of page 1. *)
Theorem roundtrip_misplaces_loop :
  valid_pack onePack ∧
  (samplesParser_encode onePack ≫= samplesParser_decode)
  = Ok (set_loop 1 5 (Some beat) emptyPack) ∧
  set_loop 1 5 (Some beat) emptyPack ≠ onePack.
Proof.
  split; [exact onePack_valid |]. split; [vm_compute; reflexivity |].
  vm_compute. discriminate.
Qed.

(** C2, on [lastSlotPack]: the decoder never looks at the flag of the
    last slot, reads no loop, and accepts the buffer with any number of
    its ten loop-data bytes cut off. *)
Theorem truncation_goes_unnoticed :
  valid_pack lastSlotPack ∧
  getPackSize lastSlotPack = 10 ∧
  ∃ buf, samplesParser_encode lastSlotPack = Ok buf ∧
         ∀ k : nat, (1 ≤ k ≤ 10)%nat →
           samplesParser_decode (take (length buf - k) buf) = Ok emptyPack.
Proof.
  split; [apply (bool_decide_unpack _); vm_compute; exact I |].
  split; [reflexivity |].
  eexists. split; [vm_compute; reflexivity |].
  intros k Hk.
  do 11 (destruct k as [| k]; [first [lia | vm_compute; reflexivity] |]).
  lia.
Qed.

(** Where the decoder does see the loop, here in the first slot of the
    first page, every such truncation raises an underflow. *)
Example truncation_fails_closed_first_slot :
  ∃ buf, samplesParser_encode firstSlotPack = Ok buf ∧
         ∀ k : nat, (1 ≤ k ≤ 10)%nat →
           ∃ e, samplesParser_decode (take (length buf - k) buf) = Throw e ∧
                is_underflow e = true.
Proof.
  eexists. split; [vm_compute; reflexivity |].
  intros k Hk.
  do 11 (destruct k as [| k];
         [first [lia | eexists; split; [vm_compute; reflexivity | reflexivity]] |]).
  lia.
Qed.

(** C6, on [widePack]: the loop sits in slot 12 of page 0, whose flag
    the decoder reads a second time for page 1; the second read finds no
    bytes left and the decoder raises instead of returning the masked
    values. *)
Theorem masked_values_not_read_back :
  valid_pack (mask_pack widePack) ∧
  ∃ buf, samplesParser_encode widePack = Ok buf ∧
         samplesParser_decode buf = Throw RangeError_pop_empty.
Proof.
  split; [apply (bool_decide_unpack _); vm_compute; exact I |].
  eexists. split; [vm_compute; reflexivity |]. vm_compute. reflexivity.
Qed.

(** The masking itself, on a pack the decoder reads right: the notes
    and velocities 0, 127, 128 and 255 come back as 0, 127, 0 and 127. *)
Example masking_boundaries_first_slot :
  (samplesParser_encode boundaryPack ≫= samplesParser_decode)
  = Ok (set_loop 0 0
          (Some (mkLoopData 4 [(0, mkNoteEvent 0 1 0); (1, mkNoteEvent 127 1 127);
                               (2, mkNoteEvent 0 0 0); (3, mkNoteEvent 127 0 127)]))
          emptyPack).
Proof. vm_compute. reflexivity. Qed.

(** * Further properties of the codec *)

(** ** The byte builder *)

(** X1.  [push8], [push16] and [push32] raise their [RangeError] exactly
    on a value outside the field's range, negative values included, and
    otherwise append the value's 1, 2 or 4 bytes, low byte first, at the
    end of the array. *)
Theorem push_appends_little_endian (v : Z) (self : ByteArray) :
  push8 v self
  = (if decide (0 <= v <= 0xFF) then Ok (mkByteArray (data self ++ [v]))
     else Throw (RangeError_out_of_range v 8)) ∧
  push16 v self
  = (if decide (0 <= v <= 0xFFFF) then Ok (mkByteArray (data self ++ [v mod 256; v / 256]))
     else Throw (RangeError_out_of_range v 16)) ∧
  push32 v self
  = (if decide (0 <= v <= 0xFFFFFFFF)
     then Ok (mkByteArray (data self ++ [v mod 256; v / 256 mod 256;
                                         v / 65536 mod 256; v / 16777216]))
     else Throw (RangeError_out_of_range v 32)).
Proof.
  split; [| split].
  - destruct (decide (0 <= v <= 0xFF)); [by apply push8_Ok | by apply push8_Throw].
  - destruct (decide (0 <= v <= 0xFFFF)) as [Hv | Hv]; [| by apply push16_Throw].
    rewrite push16_Ok by exact Hv. unfold le16. repeat f_equal.
    change (2 ^ 8) with 256. Z.div_mod_to_equations. lia.
  - destruct (decide (0 <= v <= 0xFFFFFFFF)) as [Hv | Hv]; [| by apply push32_Throw].
    rewrite push32_Ok by exact Hv. unfold le32. repeat f_equal.
    change (2 ^ 24) with 16777216. Z.div_mod_to_equations. lia.
Qed.

(** X2.  The array is a queue of fields: an 8-bit, a 16-bit and a 32-bit
    value pushed in that order are popped in that order with their
    values, and the array is empty again. *)
Theorem push_pop_fifo (a b c : Z) :
  0 <= a <= 0xFF → 0 <= b <= 0xFFFF → 0 <= c <= 0xFFFFFFFF →
  ∃ d, push_fields a b c ByteArray_new = Ok d ∧
       pop_fields d = Ok (a, b, c, ByteArray_new).
Proof.
  intros Ha Hb Hc. eexists. unfold push_fields, pop_fields. split.
  - rewrite push8_Ok by exact Ha. simpl_bind.
    rewrite push16_Ok by exact Hb. simpl_bind.
    by rewrite push32_Ok by exact Hc.
  - cbn [data ByteArray_new app pop8 mbind result_mbind result_bind].
    rewrite pop16_le16 by exact Hb. simpl_bind.
    rewrite <- (app_nil_r (le32 c)), pop32_le32 by exact Hc. reflexivity.
Qed.

Lemma push_pop_fifo_witness :
  ∃ d, push_fields 0xFF 0xBEEF 0xFFFFFFFF ByteArray_new = Ok d ∧
       pop_fields d = Ok (0xFF, 0xBEEF, 0xFFFFFFFF, ByteArray_new).
Proof. apply (push_pop_fifo 0xFF 0xBEEF 0xFFFFFFFF); lia. Defined.

(** ** What the encoder accepts and what it reads *)

Lemma samplesParser_encode_Ok_pages (pack : SamplePack) (buf : list Z) :
  samplesParser_encode pack = Ok buf → (NUM_PAGES ≤ length (pages pack))%nat.
Proof.
  intros Hbuf. destruct (decide (NUM_PAGES ≤ length (pages pack))%nat) as [? | Hlt]; [done |].
  destruct (samplesParser_encode_short pack ltac:(lia)) as [e He]. congruence.
Qed.

(** X3.  On a pack of at least ten pages [samplesParser_encode] returns
    a buffer exactly when the four reserved words fit 32 bits, the first
    ten page ids fit 16 bits and, in traversal order, every present loop
    has a [length_beats] in [0, 255], at most 255 events, each with a
    tick in [0, 65535] and a state that is 0 or 1 modulo 2^25, and
    starts at an offset of at most 0xFFFF; on any other such pack it
    raises a [RangeError].  Note and velocity are never a reason to
    fail. *)
Theorem encode_succeeds_iff_encodable (pack : SamplePack) :
  (NUM_PAGES ≤ length (pages pack))%nat →
  ((∃ buf, samplesParser_encode pack = Ok buf) ↔ pack_encodable pack) ∧
  (¬ pack_encodable pack →
   ∃ v b, samplesParser_encode pack = Throw (RangeError_out_of_range v b)) ∧
  (∀ event : NoteEventTime,
     event_encodable event ↔
     (state event.2 mod 2 ^ 25 = 0 ∨ state event.2 mod 2 ^ 25 = 1) ∧
     0 <= event.1 <= 0xFFFF).
Proof.
  intros Hlen. pose proof (samplesParser_encode_spec pack Hlen) as Hspec.
  split; [| split].
  - split.
    + intros [buf Hbuf]. by destruct (encodes_Ok_inv _ _ _ _ Hspec Hbuf).
    + intros Henc. eexists. by apply (encodes_Ok _ _ _ Hspec).
  - intros Hne. exact (encodes_Throw _ _ _ Hspec Hne).
  - intros event. unfold event_encodable. by rewrite packed_byte_iff.
Qed.

Lemma encode_succeeds_iff_encodable_witness :
  (∃ buf, samplesParser_encode lateTickPack = Ok buf) ↔ pack_encodable lateTickPack.
Proof. apply (encode_succeeds_iff_encodable lateTickPack). vm_compute. lia. Defined.

Lemma foldM_seq_lookup_missing {A S : Type} (f : S → A → result S) (l : list A) (n : nat) :
  (length l < n)%nat →
  (∀ s x, x ∈ l → ∃ s', f s x = Ok s') →
  ∀ s, foldM (λ s i, match l !! i with Some x => f s x | None => Throw TypeError end)
             s (seq 0 n)
       = Throw TypeError.
Proof.
  intros Hn Hf.
  enough (Hgen : ∀ k s, (k ≤ length l < k + n)%nat →
    foldM (λ s i, match l !! i with Some x => f s x | None => Throw TypeError end) s (seq k n)
    = Throw TypeError).
  { intros s. apply (Hgen 0%nat). lia. }
  clear Hn. induction n as [| n IH]; intros k s Hk; [lia |]. cbn [seq foldM].
  destruct (l !! k) as [x |] eqn:Hx; [| reflexivity].
  destruct (Hf s x (list_elem_of_lookup_2 _ _ _ Hx)) as [s' ->]. simpl_bind.
  apply IH. apply lookup_lt_Some in Hx. lia.
Qed.

(** X4.  On a pack of fewer than ten pages [samplesParser_encode] always
    raises: a [TypeError], for the [id] of the missing page, whenever
    the reserved words and the ids of the pages there are are in range. *)
Theorem encode_missing_page_raises (pack : SamplePack) :
  (length (pages pack) < NUM_PAGES)%nat →
  (∃ e, samplesParser_encode pack = Throw e) ∧
  (u32 (default 0 (reserved0 pack)) → u32 (default 0 (reserved1 pack)) →
   u32 (default 0 (reserved2 pack)) → u32 (default 0 (reserved3 pack)) →
   Forall (λ page, u16 (id page)) (pages pack) →
   samplesParser_encode pack = Throw TypeError).
Proof.
  intros Hlen. split; [by apply samplesParser_encode_short |].
  intros H0 H1 H2 H3 Hids. unfold samplesParser_encode.
  rewrite (encodes_Ok _ _ _ (push32_opt_spec _ _) H0). simpl_bind.
  rewrite (encodes_Ok _ _ _ (push32_opt_spec _ _) H1). simpl_bind.
  rewrite (encodes_Ok _ _ _ (push32_opt_spec _ _) H2). simpl_bind.
  rewrite (encodes_Ok _ _ _ (push32_opt_spec _ _) H3). simpl_bind.
  unfold encode_page_id.
  rewrite (foldM_seq_lookup_missing (λ d page, push16 (id page) d) (pages pack) NUM_PAGES Hlen);
    [reflexivity |].
  intros d page Hpage. rewrite Forall_forall in Hids.
  eexists. apply push16_Ok, Hids, Hpage.
Qed.

Lemma encode_missing_page_raises_witness :
  samplesParser_encode ninePagePack = Throw TypeError.
Proof.
  apply (encode_missing_page_raises ninePagePack); try (vm_compute; lia).
  - vm_compute. intuition discriminate.
  - vm_compute. intuition discriminate.
  - vm_compute. intuition discriminate.
  - vm_compute. intuition discriminate.
  - apply (bool_decide_unpack _). vm_compute. exact I.
Defined.

Lemma slot_at_clip_page (page : Page) (s : nat) :
  (s < LOOPS_PER_PAGE)%nat → slot_at (clip_page page) s = slot_at page s.
Proof. intros Hs. unfold slot_at, clip_page. cbn [loops]. by rewrite lookup_take_lt. Qed.

(** X5.  [samplesParser_encode] reads nothing of a pack beyond its first
    ten pages and the first fifteen slots of each: cutting the arrays to
    those lengths does not change its result. *)
Theorem encode_reads_clipped_pack (pack : SamplePack) :
  samplesParser_encode (clip_pack pack) = samplesParser_encode pack.
Proof.
  unfold samplesParser_encode, clip_pack.
  cbn [reserved0 reserved1 reserved2 reserved3].
  destruct (push32_opt _ _) as [d0 | e]; simpl_bind; [| reflexivity].
  destruct (push32_opt _ _) as [d1 | e]; simpl_bind; [| reflexivity].
  destruct (push32_opt _ _) as [d2 | e]; simpl_bind; [| reflexivity].
  destruct (push32_opt _ _) as [d3 | e]; simpl_bind; [| reflexivity].
  rewrite (foldM_ext _ (encode_page_id pack)); cycle 1.
  { intros d i Hi. apply elem_of_seq in Hi. unfold encode_page_id. cbn [pages].
    rewrite list_lookup_fmap, lookup_take_lt by lia.
    by destruct (pages pack !! i). }
  rewrite (foldM_ext _ (encode_page pack)); [reflexivity |].
  intros st i Hi. apply elem_of_seq in Hi. unfold encode_page. cbn [pages].
  rewrite list_lookup_fmap, lookup_take_lt by lia.
  destruct (pages pack !! i) as [page |]; [| reflexivity]. cbn [fmap option_fmap option_map].
  apply foldM_ext. intros st' s Hs. apply elem_of_seq in Hs.
  by rewrite !encode_slot_slot_at, slot_at_clip_page by lia.
Qed.

(** X6.  [samplesParser_encode] sees [note] and [velocity] through their
    seven low bits only: replacing every note and velocity of a pack by
    its value [& 0x7F] changes neither the buffer nor the error. *)
Theorem encode_masks_note_velocity (pack : SamplePack) :
  samplesParser_encode (mask_pack pack) = samplesParser_encode pack.
Proof. apply samplesParser_encode_mask. Qed.

(** ** The layout of an encoded buffer *)

Lemma samplesParser_encode_layout (pack : SamplePack) (buf : list Z) :
  samplesParser_encode pack = Ok buf →
  buf = header_bytes pack ++ ids_bytes pack
        ++ offsets_bytes 0 (pack_slots pack) ++ data_bytes (pack_slots pack) ∧
  Forall byte buf ∧
  length (header_bytes pack) = 16%nat ∧
  length (ids_bytes pack) = 20%nat ∧
  length (offsets_bytes 0 (pack_slots pack)) = 300%nat ∧
  Z.of_nat (length buf) = 336 + slots_size (pack_slots pack).
Proof.
  intros Hbuf. pose proof (samplesParser_encode_Ok_pages pack buf Hbuf) as Hlen.
  destruct (encodes_Ok_inv _ _ _ _ (samplesParser_encode_spec pack Hlen) Hbuf)
    as [Henc ->].
  rewrite (Uint8Array_from_bytes _ (pack_image_bytes pack Henc)).
  split; [reflexivity |]. split; [by apply pack_image_bytes |].
  split; [reflexivity |]. split; [by apply length_ids_bytes |].
  split; [| by apply length_pack_image].
  by rewrite length_offsets_bytes, length_pack_slots.
Qed.

(** X7.  A buffer [samplesParser_encode] returns is, in this order, the
    four reserved words and the ten page ids in little-endian bytes, the
    150 offset entries and the bytes of the present loops in traversal
    order; every element is a byte, so [Uint8Array.from] wraps nothing,
    and the buffer is 336 bytes longer than the loop data. *)
Theorem encode_wire_layout (pack : SamplePack) (buf : list Z) :
  samplesParser_encode pack = Ok buf →
  buf = header_bytes pack ++ ids_bytes pack
        ++ offsets_bytes 0 (pack_slots pack) ++ data_bytes (pack_slots pack) ∧
  Forall byte buf ∧
  length (header_bytes pack) = 16%nat ∧
  length (ids_bytes pack) = 20%nat ∧
  length (offsets_bytes 0 (pack_slots pack)) = 300%nat ∧
  Z.of_nat (length buf) = 336 + slots_size (pack_slots pack).
Proof. apply samplesParser_encode_layout. Qed.

Lemma encode_wire_layout_witness :
  Z.of_nat (length (pack_image onePack)) = 336 + slots_size (pack_slots onePack).
Proof.
  apply (encode_wire_layout onePack (pack_image onePack)). vm_compute. reflexivity.
Defined.

Section offset_table.

Implicit Types (pack : SamplePack) (sl : list (option LoopData)).

Lemma offsets_bytes_lookup_any sl (k : nat) o :
  sl !! k = Some o →
  offsets_bytes 0 sl !! (2 * k)%nat = Some (offset_of sl k mod 256) ∧
  offsets_bytes 0 sl !! (2 * k + 1)%nat = Some (offset_of sl k / 2 ^ 8 mod 256).
Proof.
  intros Hk. unfold offset_of. rewrite Hk.
  assert (Hsplit : offsets_bytes 0 sl
                   = offsets_bytes 0 (take k sl)
                     ++ offsets_bytes (0 + slots_size (take k sl)) (o :: drop (S k) sl)).
  { rewrite <- offsets_bytes_app. by rewrite take_drop_middle. }
  rewrite Hsplit. clear Hsplit.
  assert (Hlen : length (offsets_bytes 0 (take k sl)) = (2 * k)%nat).
  { rewrite length_offsets_bytes, length_take.
    apply lookup_lt_Some in Hk. lia. }
  destruct o as [loop |]; cbn [offsets_bytes]; split.
  - rewrite lookup_app_r by lia. rewrite Hlen, Nat.sub_diag. reflexivity.
  - rewrite lookup_app_r by lia. rewrite Hlen.
    replace (2 * k + 1 - 2 * k)%nat with 1%nat by lia. reflexivity.
  - rewrite lookup_app_r by lia. rewrite Hlen, Nat.sub_diag. reflexivity.
  - rewrite lookup_app_r by lia. rewrite Hlen.
    replace (2 * k + 1 - 2 * k)%nat with 1%nat by lia. reflexivity.
Qed.

Lemma offset_of_u16 sl (k : nat) :
  slots_encodable 0 sl → 0 <= offset_of sl k <= 0xFFFF.
Proof.
  intros Hsl. unfold offset_of.
  destruct (sl !! k) as [[loop |] |] eqn:Hk; [| lia..].
  split; [apply slots_size_nonneg |].
  apply (slots_encodable_offset sl (take k sl) loop (drop (S k) sl)); [| exact Hsl].
  symmetry. by apply take_drop_middle.
Qed.

(** The decoder's reading of entry [k] of an encoded buffer. *)
Lemma offset_entry_encoded pack buf (k : nat) :
  samplesParser_encode pack = Ok buf →
  (k < NUM_PAGES * LOOPS_PER_PAGE)%nat →
  offset_entry buf k = Some (offset_of (pack_slots pack) k).
Proof.
  intros Hbuf Hk. pose proof (samplesParser_encode_Ok_pages pack buf Hbuf) as Hlen.
  destruct (encodes_Ok_inv _ _ _ _ (samplesParser_encode_spec pack Hlen) Hbuf)
    as [Henc ->].
  rewrite (Uint8Array_from_bytes _ (pack_image_bytes pack Henc)).
  destruct Henc as (_ & _ & Hsl).
  destruct (lookup_lt_is_Some_2 (pack_slots pack) k) as [o Ho];
    [by rewrite length_pack_slots |].
  destruct (offsets_bytes_lookup_any _ k o Ho) as [Hlsb Hmsb].
  pose proof (offset_of_u16 _ k Hsl) as Hoff.
  assert (Hbyte : ∀ (i : nat) b, offsets_bytes 0 (pack_slots pack) !! i = Some b →
    pack_image pack !! (36 + i)%nat = Some b).
  { intros i b Hb. rewrite pack_image_offsets_lookup by exact Hlen.
    rewrite lookup_app_l by (by eapply lookup_lt_Some). exact Hb. }
  unfold offset_entry.
  replace (36 + 2 * k + 1)%nat with (36 + (2 * k + 1))%nat by lia.
  rewrite (Hbyte _ _ Hlsb), (Hbyte _ _ Hmsb). simpl.
  f_equal. rewrite le16_value by (apply byte_mod). by apply le16_sum.
Qed.

End offset_table.

(** X8.  In an encoded buffer, the offset entry of a present loop is the
    position of that loop in the loop-data segment: the bytes from
    position 336 + offset on are the loop's [length_beats], its event
    count and its events. *)
Theorem offset_points_to_loop (pack : SamplePack) (buf : list Z) (k : nat) (loop : LoopData) :
  samplesParser_encode pack = Ok buf →
  pack_slots pack !! k = Some (Some loop) →
  ∃ v, offset_entry buf k = Some v ∧ 0 <= v ∧
       take (length (loop_bytes loop)) (drop (336 + Z.to_nat v) buf) = loop_bytes loop.
Proof.
  intros Hbuf Hk. pose proof (samplesParser_encode_Ok_pages pack buf Hbuf) as Hlen.
  assert (Hk150 : (k < NUM_PAGES * LOOPS_PER_PAGE)%nat).
  { rewrite <- (length_pack_slots pack Hlen). by eapply lookup_lt_Some. }
  exists (offset_of (pack_slots pack) k).
  split; [by apply offset_entry_encoded |].
  destruct (samplesParser_encode_layout pack buf Hbuf) as (-> & _ & H16 & H20 & H300 & _).
  unfold offset_of. rewrite Hk. split; [apply slots_size_nonneg |].
  rewrite <- length_data_bytes, Nat2Z.id.
  rewrite !app_assoc, drop_app_add'
    by (rewrite !length_app, H16, H20, H300; reflexivity).
  rewrite <- (take_drop_middle (pack_slots pack) k (Some loop) Hk) at 2.
  rewrite data_bytes_app, drop_app_length.
  change (Some loop :: drop (S k) (pack_slots pack))
    with ([Some loop] ++ drop (S k) (pack_slots pack)).
  rewrite data_bytes_app.
  change (data_bytes [Some loop]) with (loop_bytes loop ++ []).
  rewrite app_nil_r. apply take_app_length.
Qed.

Lemma offset_points_to_loop_witness :
  ∃ v, offset_entry (pack_image onePack) 15 = Some v ∧ 0 <= v ∧
       take (length (loop_bytes beat)) (drop (336 + Z.to_nat v) (pack_image onePack))
       = loop_bytes beat.
Proof.
  apply (offset_points_to_loop onePack (pack_image onePack) 15 beat).
  - vm_compute. reflexivity.
  - vm_compute. reflexivity.
Defined.

(** X9.  In an encoded buffer, an offset entry is the sentinel 0xFFFF
    exactly when its slot holds no loop ([null] or missing). *)
Theorem offset_sentinel_iff_absent (pack : SamplePack) (buf : list Z) (k : nat) :
  samplesParser_encode pack = Ok buf →
  (k < NUM_PAGES * LOOPS_PER_PAGE)%nat →
  offset_entry buf k = Some 0xFFFF ↔ pack_slots pack !! k = Some None.
Proof.
  intros Hbuf Hk. pose proof (samplesParser_encode_Ok_pages pack buf Hbuf) as Hlen.
  rewrite (offset_entry_encoded pack buf k Hbuf Hk).
  destruct (lookup_lt_is_Some_2 (pack_slots pack) k) as [o Ho];
    [by rewrite length_pack_slots |].
  unfold offset_of. rewrite Ho. destruct o as [loop |]; [| done].
  split; [| discriminate]. intros Heq. exfalso.
  destruct (slots_size_even (take k (pack_slots pack))) as [h Hh].
  injection Heq as Heq. lia.
Qed.

Lemma offset_sentinel_iff_absent_witness :
  offset_entry (pack_image onePack) 16 = Some 0xFFFF ↔ pack_slots onePack !! 16%nat = Some None.
Proof.
  apply (offset_sentinel_iff_absent onePack (pack_image onePack) 16).
  - vm_compute. reflexivity.
  - vm_compute. lia.
Defined.

(** ** The size calculator against the encoder *)

Section size_bound.

Implicit Types (pack : SamplePack) (page : Page) (sl : list (option LoopData)).

Lemma page_slots_take_pad page :
  page_slots page
  = take LOOPS_PER_PAGE (loops page)
    ++ replicate (LOOPS_PER_PAGE - length (loops page)) None.
Proof.
  unfold page_slots. apply list_eq. intros i. rewrite list_lookup_fmap.
  destruct (decide (i < LOOPS_PER_PAGE)%nat) as [Hi | Hi].
  - rewrite lookup_seq_lt by exact Hi. cbn [fmap option_fmap option_map Nat.add].
    unfold slot_at.
    destruct (decide (i < length (loops page))%nat) as [Hl | Hl].
    + rewrite lookup_app_l by (rewrite length_take; lia).
      rewrite lookup_take_lt by exact Hi.
      destruct (lookup_lt_is_Some_2 _ _ Hl) as [o Ho]. by rewrite Ho.
    + rewrite (lookup_ge_None_2 (loops page)) by lia.
      rewrite lookup_app_r by (rewrite length_take; lia).
      rewrite length_take. symmetry. apply lookup_replicate_2. lia.
  - rewrite lookup_seq_ge by lia. symmetry. apply lookup_ge_None_2.
    rewrite length_app, length_take, length_replicate. lia.
Qed.

Lemma slots_size_replicate_None (n : nat) : slots_size (replicate n None) = 0.
Proof. induction n as [| n IH]; simpl; [reflexivity | lia]. Qed.

Lemma slots_size_take_le sl (n : nat) : slots_size (take n sl) <= slots_size sl.
Proof.
  rewrite <- (take_drop n sl) at 2. rewrite slots_size_app.
  pose proof (slots_size_nonneg (drop n sl)). lia.
Qed.

Lemma slots_size_page_slots_le page : slots_size (page_slots page) <= slots_size (loops page).
Proof.
  rewrite page_slots_take_pad, slots_size_app, slots_size_replicate_None.
  pose proof (slots_size_take_le (loops page) LOOPS_PER_PAGE). lia.
Qed.

Lemma slots_size_page_slots_eq page :
  (length (loops page) ≤ LOOPS_PER_PAGE)%nat →
  slots_size (page_slots page) = slots_size (loops page).
Proof.
  intros Hl. rewrite page_slots_take_pad, slots_size_app, slots_size_replicate_None.
  rewrite take_ge by exact Hl. lia.
Qed.

Lemma getPackSize_concat pack :
  getPackSize pack = slots_size (concat (loops <$> pages pack)).
Proof.
  unfold getPackSize.
  enough (Hgen : ∀ acc,
    fold_left (λ size page, size + getPageByteSize page) (pages pack) acc
    = acc + slots_size (concat (loops <$> pages pack))).
  { apply Hgen. }
  induction (pages pack) as [| page pgs IH]; intros acc; [simpl; lia |].
  cbn [fold_left]. rewrite fmap_cons, concat_cons, IH, slots_size_app.
  rewrite getPageByteSize_slots_size. lia.
Qed.

Lemma slots_size_pages_le (pgs : list Page) :
  slots_size (concat (page_slots <$> pgs)) <= slots_size (concat (loops <$> pgs)).
Proof.
  induction pgs as [| page pgs IH]; [reflexivity |].
  rewrite !fmap_cons, !concat_cons, !slots_size_app.
  pose proof (slots_size_page_slots_le page). lia.
Qed.

Lemma slots_size_pages_take_le (pgs : list Page) (n : nat) :
  slots_size (concat (loops <$> take n pgs)) <= slots_size (concat (loops <$> pgs)).
Proof.
  rewrite <- (take_drop n pgs) at 2. rewrite fmap_app, concat_app, slots_size_app.
  pose proof (slots_size_nonneg (concat (loops <$> drop n pgs))). lia.
Qed.

End size_bound.

(** X10.  [getPackSize] never underestimates: the buffer
    [samplesParser_encode] returns is at most [336 + getPackSize pack]
    bytes long, whatever the lengths of the [pages] and [loops] arrays,
    and exactly that long when the pack has ten pages of at most fifteen
    slots each. *)
Theorem getPackSize_bounds_encoding (pack : SamplePack) (buf : list Z) :
  samplesParser_encode pack = Ok buf →
  Z.of_nat (length buf) <= 336 + getPackSize pack ∧
  (length (pages pack) = NUM_PAGES →
   Forall (λ page, (length (loops page) ≤ LOOPS_PER_PAGE)%nat) (pages pack) →
   Z.of_nat (length buf) = 336 + getPackSize pack).
Proof.
  intros Hbuf. destruct (samplesParser_encode_layout pack buf Hbuf) as (_ & _ & _ & _ & _ & ->).
  rewrite getPackSize_concat. unfold pack_slots. split.
  - pose proof (slots_size_pages_le (take NUM_PAGES (pages pack))).
    pose proof (slots_size_pages_take_le (pages pack) NUM_PAGES). lia.
  - intros Hlen Hshape. rewrite <- Hlen, firstn_all. f_equal. clear Hlen Hbuf.
    induction Hshape as [| page pgs Hpage _ IH]; [reflexivity |].
    by rewrite !fmap_cons, !concat_cons, !slots_size_app, IH, slots_size_page_slots_eq.
Qed.

Lemma getPackSize_bounds_encoding_witness :
  Z.of_nat (length (pack_image elevenPagePack)) <= 336 + getPackSize elevenPagePack.
Proof.
  apply (getPackSize_bounds_encoding elevenPagePack (pack_image elevenPagePack)).
  vm_compute. reflexivity.
Defined.

(** The bound is strict on [elevenPagePack]: the loop of its eleventh
    page is counted and not encoded. *)
Example getPackSize_counts_unread_page :
  samplesParser_encode elevenPagePack = Ok (pack_image elevenPagePack) ∧
  length (pack_image elevenPagePack) = 336%nat ∧
  getPackSize elevenPagePack = 10.
Proof. split; [vm_compute; reflexivity |]. split; reflexivity. Qed.

(** ** The encoder loses nothing of a valid pack *)

Section injective.

Implicit Types (pack : SamplePack) (sl : list (option LoopData)).

Lemma le32_inj a b : u32 a → u32 b → le32 a = le32 b → a = b.
Proof.
  intros Ha Hb Heq.
  pose proof (pop32_le32 a [] Ha) as Hpa. pose proof (pop32_le32 b [] Hb) as Hpb.
  rewrite Heq in Hpa. congruence.
Qed.

Lemma valid_reserved_inj (o1 o2 : option Z) :
  valid_reserved o1 → valid_reserved o2 →
  le32 (default 0 o1) = le32 (default 0 o2) → o1 = o2.
Proof.
  intros H1 H2 Heq.
  apply le32_inj in Heq; [| by apply valid_reserved_u32..].
  destruct o1, o2; simpl in *; try tauto. by subst.
Qed.

(** Loop data and presence flags determine the slots. *)
Lemma data_bytes_inj sl1 sl2 :
  Forall (from_option valid_loop True) sl1 →
  Forall (from_option valid_loop True) sl2 →
  is_present <$> sl1 = is_present <$> sl2 →
  data_bytes sl1 = data_bytes sl2 →
  sl1 = sl2.
Proof.
  intros Hv1 Hv2 Hflags Hdata.
  assert (Hlen : length sl1 = length sl2).
  { by rewrite <- (length_fmap is_present sl1), Hflags, length_fmap. }
  assert (Hread : ∀ sl,
    is_present <$> sl = is_present <$> sl1 →
    Forall (from_option valid_loop True) sl →
    foldM (decode_slot (is_present <$> sl1) 0) ([], mkByteArray (data_bytes sl ++ []))
          (seq 0 (length sl))
    = Ok ([] ++ sl, mkByteArray [])).
  { intros sl Hsl Hv. apply decode_slots_loop; [| exact Hv].
    intros j o Hj. cbn [Nat.mul Nat.add].
    by rewrite <- Hsl, list_lookup_fmap, Hj. }
  pose proof (Hread sl1 eq_refl Hv1) as H1.
  pose proof (Hread sl2 (eq_sym Hflags) Hv2) as H2.
  rewrite <- Hdata, <- Hlen, H1 in H2. by injection H2.
Qed.

Lemma concat_regular_inj {A : Type} (n : nat) (ls1 ls2 : list (list A)) :
  Forall (λ l, length l = n) ls1 → Forall (λ l, length l = n) ls2 →
  length ls1 = length ls2 →
  concat ls1 = concat ls2 → ls1 = ls2.
Proof.
  intros H1. revert ls2. induction H1 as [| l1 ls1 Hl1 _ IH]; intros ls2 H2 Hlen Heq.
  - by destruct ls2.
  - destruct H2 as [| l2 ls2 Hl2 H2]; [discriminate |].
    rewrite !concat_cons in Heq.
    apply app_inj_1 in Heq as [-> Heq]; [| congruence].
    f_equal. apply IH; [exact H2 | by injection Hlen | exact Heq].
Qed.

Lemma pages_eq (pgs1 pgs2 : list Page) :
  id <$> pgs1 = id <$> pgs2 → loops <$> pgs1 = loops <$> pgs2 → pgs1 = pgs2.
Proof.
  revert pgs2. induction pgs1 as [| [i1 l1] pgs1 IH]; intros [| [i2 l2] pgs2] Hid Hloops;
    try discriminate; [reflexivity |].
  cbn [fmap list_fmap id loops] in Hid, Hloops.
  injection Hid as -> Hid. injection Hloops as -> Hloops.
  f_equal. by apply IH.
Qed.

End injective.

(** X11.  [samplesParser_encode] is injective on valid packs: two valid
    packs with the same encoding are the same pack.  The buffer holds
    everything of a valid pack, whatever a decoder makes of it. *)
Theorem encode_injective_on_valid (pack1 pack2 : SamplePack) :
  valid_pack pack1 → valid_pack pack2 →
  samplesParser_encode pack1 = samplesParser_encode pack2 →
  pack1 = pack2.
Proof.
  intros Hv1 Hv2 Heq.
  pose proof (valid_pack_encodable pack1 Hv1) as He1.
  pose proof (valid_pack_encodable pack2 Hv2) as He2.
  destruct (valid_fields_shape pack1 (proj1 Hv1)) as [Hlen1 Hshape1].
  destruct (valid_fields_shape pack2 (proj1 Hv2)) as [Hlen2 Hshape2].
  pose proof (valid_fields_loops pack1 (proj1 Hv1)) as Hloops1.
  pose proof (valid_fields_loops pack2 (proj1 Hv2)) as Hloops2.
  rewrite (encodes_Ok _ _ _ (samplesParser_encode_spec pack1 ltac:(lia)) He1) in Heq.
  rewrite (encodes_Ok _ _ _ (samplesParser_encode_spec pack2 ltac:(lia)) He2) in Heq.
  rewrite !Uint8Array_from_bytes in Heq by (by apply pack_image_bytes).
  assert (Himg : pack_image pack1 = pack_image pack2) by congruence.
  clear Heq. rename Himg into Heq. unfold pack_image, header_bytes in Heq.
  rewrite <- !app_assoc in Heq.
  apply app_inj_1 in Heq as [H0 Heq]; [| reflexivity].
  apply app_inj_1 in Heq as [H1 Heq]; [| reflexivity].
  apply app_inj_1 in Heq as [H2 Heq]; [| reflexivity].
  apply app_inj_1 in Heq as [H3 Heq]; [| reflexivity].
  apply app_inj_1 in Heq as [Hids Heq];
    [| by rewrite !length_ids_bytes by lia].
  apply app_inj_1 in Heq as [Hoffs Hdata];
    [| by rewrite !length_offsets_bytes, !length_pack_slots by lia].
  destruct He1 as (_ & Hu1 & Hsl1). destruct He2 as (_ & Hu2 & Hsl2).
  assert (Hflags : is_present <$> pack_slots pack1 = is_present <$> pack_slots pack2).
  { rewrite <- (exists_flags_offsets (pack_slots pack1) 0), <- (exists_flags_offsets (pack_slots pack2) 0);
      [by rewrite Hoffs | by exists 0 | lia | exact Hsl2 | by exists 0 | lia | exact Hsl1]. }
  pose proof (data_bytes_inj _ _ Hloops1 Hloops2 Hflags Hdata) as Hslots.
  rewrite (pack_slots_all pack1 Hlen1 Hshape1), (pack_slots_all pack2 Hlen2 Hshape2) in Hslots.
  apply (concat_regular_inj LOOPS_PER_PAGE) in Hslots;
    [| by apply Forall_fmap | by apply Forall_fmap | rewrite !length_fmap; congruence].
  unfold ids_bytes in Hids. rewrite <- Hlen1, firstn_all in Hids, Hu1.
  rewrite Hlen1, <- Hlen2, firstn_all in Hids. rewrite <- Hlen2, firstn_all in Hu2.
  assert (Hidl : id <$> pages pack1 = id <$> pages pack2).
  { by rewrite <- (entries_ids _ Hu1), <- (entries_ids _ Hu2), Hids. }
  pose proof (pages_eq _ _ Hidl Hslots) as Hpages.
  destruct Hv1 as [(A0 & A1 & A2 & A3 & _) _]. destruct Hv2 as [(B0 & B1 & B2 & B3 & _) _].
  apply valid_reserved_inj in H0, H1, H2, H3; try assumption.
  destruct pack1, pack2. simpl in *. congruence.
Qed.

Lemma encode_injective_on_valid_witness : onePack = onePack.
Proof.
  apply (encode_injective_on_valid onePack onePack onePack_valid onePack_valid). reflexivity.
Defined.

(** ** The decoder on any buffer *)

Section decoder_any.

Implicit Types (d : ByteArray) (l rest : list Z).

Lemma pop16_u16 (lsb msb : Z) :
  byte lsb → byte msb → 0 <= JS.or lsb (JS.shl msb 8) <= 65535.
Proof. intros Hl Hm. rewrite le16_value by assumption. unfold byte in *. lia. Qed.

Lemma shr0_u32 x : 0 <= JS.shr x 0 <= 4294967295.
Proof.
  unfold JS.shr, JS.toUint32. change (Z.land (0 mod 2 ^ 32) 31) with 0.
  rewrite Z.shiftr_0_r. pose proof (Z.mod_pos_bound x (2 ^ 32)). lia.
Qed.

(** An event read from bytes has every field in range. *)
Lemma decode_event_shape (evs evs' : list NoteEventTime) d d' (i : nat) :
  Forall byte (data d) →
  decode_event (evs, d) i = Ok (evs', d') →
  ∃ event, evs' = evs ++ [event] ∧ valid_event event ∧ Forall byte (data d').
Proof.
  destruct d as [l]. cbn [data]. intros Hl Hdec. unfold decode_event in Hdec.
  destruct l as [| b [| dat [| lsb [| msb l]]]]; try discriminate.
  cbn [pop8 pop16 data mbind result_mbind result_bind] in Hdec.
  injection Hdec as <- <-.
  inversion Hl as [| ? ? _ Hl1]; subst. inversion Hl1 as [| ? ? _ Hl2]; subst.
  inversion Hl2 as [| ? ? Hlsb Hl3]; subst. inversion Hl3 as [| ? ? Hmsb Hl4]; subst.
  eexists. split; [reflexivity |]. split; [| exact Hl4].
  split; [exact (pop16_u16 lsb msb Hlsb Hmsb) |].
  unfold valid_note_event. cbn [snd note state velocity].
  rewrite !and_0x7F, and_0x01.
  pose proof (Z.mod_pos_bound b 128 ltac:(lia)).
  pose proof (Z.mod_pos_bound dat 128 ltac:(lia)).
  pose proof (Z.mod_pos_bound (JS.sar dat 7) 2 ltac:(lia)).
  split; [lia |]. split; lia.
Qed.

Lemma decode_events_shape (n : nat) : ∀ (k : nat) (evs evs' : list NoteEventTime) d d',
  Forall byte (data d) →
  foldM decode_event (evs, d) (seq k n) = Ok (evs', d') →
  ∃ new, evs' = evs ++ new ∧ length new = n ∧ Forall valid_event new ∧
         Forall byte (data d').
Proof.
  induction n as [| n IH]; intros k evs evs' d d' Hd Hdec.
  - injection Hdec as <- <-. exists []. by rewrite app_nil_r.
  - cbn [seq foldM] in Hdec. apply bind_Ok_inv in Hdec as ([evs1 d1] & Hstep & Hrest).
    destruct (decode_event_shape _ _ _ _ _ Hd Hstep) as (event & -> & Hev & Hd1).
    destruct (IH _ _ _ _ _ Hd1 Hrest) as (new & -> & Hlen & Hnew & Hd').
    exists (event :: new). rewrite <- app_assoc. repeat split; try done.
    + simpl. lia.
    + by constructor.
Qed.

(** One slot: what is appended follows the flag looked up, and a loop
    read from bytes is valid. *)
Lemma decode_slot_shape (flags : list bool) (p s : nat)
    (acc acc' : list (option LoopData)) d d' :
  Forall byte (data d) →
  decode_slot flags p (acc, d) s = Ok (acc', d') →
  ∃ o, acc' = acc ++ [o] ∧
       is_present o = seen flags (p * NUM_PAGES + s) ∧
       from_option valid_loop True o ∧
       Forall byte (data d').
Proof.
  intros Hd Hdec. unfold decode_slot in Hdec. unfold seen.
  destruct (flags !! (p * NUM_PAGES + s)%nat) as [[|] |] eqn:Hf.
  2: { injection Hdec as <- <-. by exists None. }
  all: destruct d as [[| lb [| cnt l]]]; try discriminate;
    cbn [pop8 data mbind result_mbind result_bind] in Hdec;
    apply bind_Ok_inv in Hdec as ([evs d1] & Hevs & Hret);
    injection Hret as <- <-;
    cbn [data] in Hd;
    inversion Hd as [| ? ? Hlb Hd1]; subst; inversion Hd1 as [| ? ? Hcnt Hd2]; subst;
    destruct (decode_events_shape _ _ _ _ (mkByteArray l) _ Hd2 Hevs)
      as (new & -> & Hlen & Hnew & Hd');
    eexists; (split; [reflexivity |]); (split; [reflexivity |]); (split; [| exact Hd']);
    unfold byte in *; cbn [from_option]; unfold valid_loop, count_in_range;
    cbn [length_beats events app];
    (split; [lia |]); (split; [rewrite Hlen; lia | exact Hnew]).
Qed.

Lemma decode_slots_shape (flags : list bool) (p n : nat) :
  ∀ (k : nat) (acc acc' : list (option LoopData)) d d',
    Forall byte (data d) →
    foldM (decode_slot flags p) (acc, d) (seq k n) = Ok (acc', d') →
    ∃ new, acc' = acc ++ new ∧ length new = n ∧ Forall byte (data d') ∧
           ∀ (j : nat) o, new !! j = Some o →
             is_present o = seen flags (p * NUM_PAGES + (k + j)) ∧
             from_option valid_loop True o.
Proof.
  induction n as [| n IH]; intros k acc acc' d d' Hd Hdec.
  - injection Hdec as <- <-. exists []. rewrite app_nil_r. repeat split; try done.
  - cbn [seq foldM] in Hdec. apply bind_Ok_inv in Hdec as ([acc1 d1] & Hstep & Hrest).
    destruct (decode_slot_shape _ _ _ _ _ _ _ Hd Hstep) as (o & -> & Ho & Hvo & Hd1).
    destruct (IH _ _ _ _ _ Hd1 Hrest) as (new & -> & Hlen & Hd' & Hnew).
    exists (o :: new). rewrite <- app_assoc. repeat split; try done.
    + simpl. lia.
    + destruct j as [| j]; simpl in H; [injection H as <-; by rewrite Nat.add_0_r |].
      replace (k + S j)%nat with (S k + j)%nat by lia. by apply Hnew.
    + destruct j as [| j]; simpl in H; [by injection H as <- |]. by eapply Hnew.
Qed.

End decoder_any.

Section decoder_pages.

Implicit Types (d : ByteArray) (ps : list Page).

Lemma decode_page_shape (flags : list bool) (p : nat) ps ps' d d' :
  Forall byte (data d) →
  decode_page flags (ps, d) p = Ok (ps', d') →
  ∃ page new,
    ps !! p = Some page ∧
    ps' = <[p := mkPage (id page) (loops page ++ new)]> ps ∧
    length new = LOOPS_PER_PAGE ∧
    Forall byte (data d') ∧
    ∀ (s : nat) o, new !! s = Some o →
      is_present o = seen flags (p * NUM_PAGES + s) ∧ from_option valid_loop True o.
Proof.
  intros Hd Hdec. unfold decode_page in Hdec.
  destruct (ps !! p) as [page |] eqn:Hp; [| discriminate].
  apply bind_Ok_inv in Hdec as ([page_loops d1] & Hloop & Hret).
  injection Hret as <- <-.
  destruct (decode_slots_shape flags p LOOPS_PER_PAGE 0 _ _ _ _ Hd Hloop)
    as (new & -> & Hlen & Hd1 & Hnew).
  exists page, new. repeat split; try done; by apply (Hnew s o).
Qed.

Lemma decode_pages_shape (flags : list bool) (n : nat) : ∀ (p : nat) ps ps' d d',
  Forall byte (data d) →
  foldM (decode_page flags) (ps, d) (seq p n) = Ok (ps', d') →
  length ps' = length ps ∧
  (n = 0%nat ∨ (p + n ≤ length ps)%nat) ∧
  Forall byte (data d') ∧
  (∀ (j : nat) page, ps !! j = Some page → (j < p ∨ p + n ≤ j)%nat →
     ps' !! j = Some page) ∧
  (∀ (j : nat) page, ps !! j = Some page → (p ≤ j < p + n)%nat →
     ∃ new, ps' !! j = Some (mkPage (id page) (loops page ++ new)) ∧
            length new = LOOPS_PER_PAGE ∧
            ∀ (s : nat) o, new !! s = Some o →
              is_present o = seen flags (j * NUM_PAGES + s) ∧
              from_option valid_loop True o).
Proof.
  induction n as [| n IH]; intros p ps ps' d d' Hd Hdec.
  - injection Hdec as <- <-. repeat split; try done; [by left | lia].
  - cbn [seq foldM] in Hdec. apply bind_Ok_inv in Hdec as ([ps1 d1] & Hstep & Hrest).
    destruct (decode_page_shape _ _ _ _ _ _ Hd Hstep)
      as (page0 & new0 & Hp & -> & Hlen0 & Hd1 & Hnew0).
    destruct (IH _ _ _ _ _ Hd1 Hrest) as (Hlen & Hbound & Hd' & Hout & Hin).
    rewrite length_insert in Hlen, Hbound.
    pose proof (lookup_lt_Some _ _ _ Hp) as Hplt.
    split; [exact Hlen |]. split; [right; lia |]. split; [exact Hd' |]. split.
    + intros j page Hj Hrange. apply Hout; [| lia].
      rewrite list_lookup_insert_ne by lia. exact Hj.
    + intros j page Hj Hrange. destruct (decide (j = p)) as [-> | Hne].
      * exists new0. rewrite Hp in Hj. injection Hj as <-.
        split; [| by split].
        apply Hout; [| lia]. by apply list_lookup_insert_eq.
      * apply Hin; [| lia]. rewrite list_lookup_insert_ne by lia. exact Hj.
Qed.

(** The two table loops stop with an underflow on a table cut short. *)
Lemma decode_page_ids_short (n : nat) : ∀ (k : nat) (l : list Z) (acc : list Page),
  (length l < 2 * n)%nat →
  foldM decode_page_id (acc, mkByteArray l) (seq k n) = Throw (RangeError_not_enough 16).
Proof.
  induction n as [| n IH]; intros k l acc Hl; [lia |].
  destruct l as [| lsb [| msb l]]; [reflexivity.. |].
  cbn [seq foldM decode_page_id pop16 data]. simpl_bind.
  apply IH. simpl in Hl. lia.
Qed.

Lemma decode_exists_short (n : nat) : ∀ (k : nat) (l : list Z) (acc : list bool),
  (length l < 2 * n)%nat →
  foldM decode_exists (acc, mkByteArray l) (seq k n) = Throw (RangeError_not_enough 16).
Proof.
  induction n as [| n IH]; intros k l acc Hl; [lia |].
  destruct l as [| lsb [| msb l]]; [reflexivity.. |].
  cbn [seq foldM decode_exists pop16 data]. simpl_bind.
  apply IH. simpl in Hl. lia.
Qed.

(** The decoder on a buffer of 336 bytes or more: four words, ten ids,
    150 flags, then the page loop on what follows. *)
Lemma samplesParser_decode_split (buf : list Z) :
  (336 ≤ length buf)%nat →
  ∃ r0 r1 r2 r3 : Z,
    (0 <= r0 <= 4294967295 ∧ 0 <= r1 <= 4294967295 ∧
     0 <= r2 <= 4294967295 ∧ 0 <= r3 <= 4294967295) ∧
    samplesParser_decode buf
    = foldM (decode_page (exists_flag <$> entries (take 300 (drop 36 buf))))
            ((λ v, mkPage v []) <$> entries (take 20 (drop 16 buf)),
             mkByteArray (drop 336 buf))
            (seq 0 NUM_PAGES)
      ≫= λ '(ps, d), Ok (mkSamplePack (Some r0) (Some r1) (Some r2) (Some r3) ps).
Proof.
  intros Hlen.
  do 16 (destruct buf as [| ? buf]; [simpl in Hlen; lia |]).
  assert (Hlen' : (320 ≤ length buf)%nat) by (simpl in Hlen; lia). clear Hlen.
  change (drop 336 (_ :: _)) with (drop 320 buf).
  change (drop 36 (_ :: _)) with (drop 20 buf).
  change (drop 16 (_ :: _)) with buf.
  do 4 eexists. split; [repeat split; apply shr0_u32 |].
  unfold samplesParser_decode, ByteArray_from.
  cbn [pop32 data mbind result_mbind result_bind].
  rewrite <- (take_drop 20 buf) at 1.
  rewrite (decode_page_ids_loop NUM_PAGES 0 (take 20 buf))
    by (rewrite length_take; change NUM_PAGES with 10%nat; lia).
  simpl_bind.
  rewrite <- (take_drop 300 (drop 20 buf)) at 1.
  rewrite (decode_exists_loop (NUM_PAGES * LOOPS_PER_PAGE) 0 (take 300 (drop 20 buf)))
    by (rewrite length_take, length_drop;
        change NUM_PAGES with 10%nat; change LOOPS_PER_PAGE with 15%nat; lia).
  simpl_bind. rewrite drop_drop. cbn [app]. reflexivity.
Qed.

End decoder_pages.

Lemma samplesParser_decode_short (buf : list Z) :
  (length buf < 336)%nat →
  samplesParser_decode buf
  = Throw (RangeError_not_enough (if decide (length buf < 16)%nat then 32 else 16)).
Proof.
  intros Hlen.
  do 16 (destruct buf as [| ? buf]; [reflexivity |]).
  assert (Hlen' : (length buf < 320)%nat) by (simpl in Hlen; lia).
  destruct (decide _) as [Hlt | _]; [simpl in Hlt; lia |].
  unfold samplesParser_decode, ByteArray_from.
  cbn [pop32 data mbind result_mbind result_bind].
  destruct (decide (length buf < 20)%nat) as [Hshort | Hids].
  - by rewrite decode_page_ids_short by (change NUM_PAGES with 10%nat; lia).
  - rewrite <- (take_drop 20 buf).
    rewrite (decode_page_ids_loop NUM_PAGES 0 (take 20 buf))
      by (rewrite length_take; change NUM_PAGES with 10%nat; lia).
    simpl_bind.
    by rewrite decode_exists_short
      by (rewrite length_drop;
          change NUM_PAGES with 10%nat; change LOOPS_PER_PAGE with 15%nat; lia).
Qed.

(** X12.  A buffer shorter than the 336 bytes of header, page ids and
    offset table is never decoded: [samplesParser_decode] raises the
    underflow of [pop32] below 16 bytes and that of [pop16] from 16
    bytes on. *)
Theorem decode_short_buffer_underflow (buf : list Z) :
  (length buf < 336)%nat →
  samplesParser_decode buf
  = Throw (RangeError_not_enough (if decide (length buf < 16)%nat then 32 else 16)).
Proof. apply samplesParser_decode_short. Qed.

Lemma decode_short_buffer_underflow_witness :
  samplesParser_decode (replicate 335 255) = Throw (RangeError_not_enough 16).
Proof. apply (decode_short_buffer_underflow (replicate 335 255)). vm_compute. lia. Defined.

Section decoder_output.

Implicit Types (buf : list Z) (pack : SamplePack).

Lemma entries_shape (n : nat) : ∀ l : list Z,
  (length l ≤ n)%nat → Forall byte l →
  Forall (λ v, 0 <= v <= 65535) (entries l) ∧
  (∀ m : nat, length l = (2 * m)%nat → length (entries l) = m).
Proof.
  induction n as [| n IH]; intros l Hn Hl.
  - destruct l; [| simpl in Hn; lia]. split; [constructor |]. intros m Hm. simpl in *. lia.
  - destruct l as [| lsb [| msb l]].
    + split; [constructor |]. intros m Hm. simpl in *. lia.
    + split; [constructor |]. intros m Hm. simpl in Hm. lia.
    + inversion Hl as [| ? ? Hlsb Hl1]; subst. inversion Hl1 as [| ? ? Hmsb Hl2]; subst.
      destruct (IH l ltac:(simpl in Hn; lia) Hl2) as [Hu Hlen].
      cbn [entries]. split; [constructor; [by apply pop16_u16 | exact Hu] |].
      intros m Hm. destruct m as [| m]; [simpl in Hm; lia |].
      cbn [length]. f_equal. apply Hlen. simpl in Hm. lia.
Qed.

Lemma entries_lookup (k : nat) : ∀ l : list Z,
  entries l !! k
  = (l !! (2 * k)%nat ≫= λ lsb, l !! (2 * k + 1)%nat ≫= λ msb,
       Some (JS.or lsb (JS.shl msb 8))).
Proof.
  induction k as [| k IH]; intros l.
  - by destruct l as [| lsb [| msb l]].
  - destruct l as [| lsb [| msb l]]; [reflexivity.. |].
    cbn [entries]. rewrite lookup_cons. cbn [Nat.eqb]. rewrite IH.
    replace (2 * S k)%nat with (S (S (2 * k))) by lia.
    replace (S (S (2 * k)) + 1)%nat with (S (S (2 * k + 1))) by lia.
    reflexivity.
Qed.

(** The flag at index [k] of [loopExists] is the test of entry [k] of
    the buffer's offset table. *)
Lemma flags_lookup buf (k : nat) :
  (336 ≤ length buf)%nat → (k < 150)%nat →
  (exists_flag <$> entries (take 300 (drop 36 buf))) !! k
  = exists_flag <$> offset_entry buf k.
Proof.
  intros Hlen Hk. rewrite list_lookup_fmap, entries_lookup. unfold offset_entry.
  rewrite !lookup_take_lt, !lookup_drop by lia.
  by replace (36 + (2 * k + 1))%nat with (36 + 2 * k + 1)%nat by lia.
Qed.

(** What a successful decoding returns, on a buffer of bytes. *)
Lemma samplesParser_decode_shape buf pack :
  Forall byte buf →
  samplesParser_decode buf = Ok pack →
  (336 ≤ length buf)%nat ∧
  valid_fields pack ∧
  ∀ (j s : nat) page o,
    pages pack !! j = Some page → loops page !! s = Some o →
    (j < NUM_PAGES)%nat ∧ (s < LOOPS_PER_PAGE)%nat ∧
    is_present o
    = seen (exists_flag <$> entries (take 300 (drop 36 buf))) (j * NUM_PAGES + s).
Proof.
  intros Hbytes Hdec.
  assert (Hlen : (336 ≤ length buf)%nat).
  { destruct (decide (336 ≤ length buf)%nat) as [? | Hlt]; [done |].
    rewrite samplesParser_decode_short in Hdec by lia. discriminate. }
  split; [exact Hlen |].
  destruct (samplesParser_decode_split buf Hlen) as (r0 & r1 & r2 & r3 & Hr & Heq).
  rewrite Heq in Hdec. clear Heq.
  apply bind_Ok_inv in Hdec as ([ps' d'] & Hloop & Hret). injection Hret as <-.
  set (ids := take 20 (drop 16 buf)) in *.
  assert (Hids : Forall byte ids) by (by apply Forall_take, Forall_drop).
  destruct (entries_shape 20 ids ltac:(subst ids; rewrite length_take; lia) Hids)
    as [Hu16 Hnids].
  specialize (Hnids 10%nat ltac:(subst ids; rewrite length_take, length_drop; lia)).
  destruct (decode_pages_shape _ NUM_PAGES 0 _ _ (mkByteArray (drop 336 buf)) _
              ltac:(by apply Forall_drop) Hloop)
    as (Hlen' & _ & _ & _ & Hin).
  rewrite length_fmap, Hnids in Hlen'.
  assert (Hpage : ∀ (j : nat) page, ps' !! j = Some page →
    (j < NUM_PAGES)%nat ∧
    ∃ v new, page = mkPage v new ∧ 0 <= v <= 65535 ∧ length new = LOOPS_PER_PAGE ∧
      ∀ (s : nat) o, new !! s = Some o →
        is_present o
        = seen (exists_flag <$> entries (take 300 (drop 36 buf))) (j * NUM_PAGES + s) ∧
        from_option valid_loop True o).
  { intros j page Hj.
    assert (Hjlt : (j < 10)%nat) by (rewrite <- Hlen'; by eapply lookup_lt_Some).
    split; [exact Hjlt |].
    destruct (lookup_lt_is_Some_2 (entries ids) j ltac:(lia)) as [v Hv].
    destruct (Hin j (mkPage v []) ltac:(by rewrite list_lookup_fmap, Hv)
                ltac:(change NUM_PAGES with 10%nat; lia))
      as (new & Hj' & Hnew).
    rewrite Hj in Hj'. injection Hj' as ->. cbn [id loops app].
    exists v, new. split; [reflexivity |]. split; [| exact Hnew].
    rewrite Forall_forall in Hu16. by eapply Hu16, list_elem_of_lookup_2. }
  split.
  - unfold valid_fields. cbn [reserved0 reserved1 reserved2 reserved3 pages valid_reserved from_option].
    do 4 (split; [tauto |]). split; [exact Hlen' |].
    apply Forall_lookup. intros j page Hj.
    destruct (Hpage j page Hj) as (_ & v & new & -> & Hv & Hnl & Hnew).
    split; [exact Hv |]. split; [exact Hnl |].
    apply Forall_lookup. intros s o Hs. by apply (Hnew s o).
  - cbn [pages]. intros j s page o Hj Hs.
    destruct (Hpage j page Hj) as (Hjlt & v & new & -> & _ & Hnl & Hnew).
    cbn [loops] in Hs. split; [exact Hjlt |].
    split; [rewrite <- Hnl; by eapply lookup_lt_Some | by apply (Hnew s o)].
Qed.

End decoder_output.

(** X13.  Whatever bytes it is given, a pack [samplesParser_decode]
    returns has ten pages of fifteen slots, four reserved words in
    [0, 2^32-1], page ids and ticks in [0, 65535], [length_beats] in
    [0, 255], at most 255 events per loop, notes and velocities in
    [0, 127] and states in {0, 1}. *)
Theorem decode_returns_valid_fields (buf : list Z) (pack : SamplePack) :
  Forall byte buf →
  samplesParser_decode buf = Ok pack →
  valid_fields pack.
Proof. intros Hb Hdec. by destruct (samplesParser_decode_shape buf pack Hb Hdec) as (_ & ? & _). Qed.

Lemma decode_returns_valid_fields_witness : valid_fields emptyPack.
Proof.
  apply (decode_returns_valid_fields (replicate 336 255) emptyPack).
  - apply (bool_decide_unpack _). vm_compute. exact I.
  - vm_compute. reflexivity.
Defined.

(** X14.  In the pack [samplesParser_decode] returns, slot [loop_idx] of
    page [page_idx] is empty exactly when entry
    [page_idx * NUM_PAGES + loop_idx] of the buffer's offset table, ten
    entries per page and not fifteen, is the sentinel 0xFFFF. *)
Theorem decode_presence_follows_flags (buf : list Z) (pack : SamplePack)
    (page_idx loop_idx : nat) (page : Page) (o : option LoopData) :
  Forall byte buf →
  samplesParser_decode buf = Ok pack →
  pages pack !! page_idx = Some page →
  loops page !! loop_idx = Some o →
  o = None ↔ offset_entry buf (page_idx * NUM_PAGES + loop_idx) = Some 0xFFFF.
Proof.
  intros Hb Hdec Hp Hs.
  destruct (samplesParser_decode_shape buf pack Hb Hdec) as (Hlen & _ & Hseen).
  destruct (Hseen page_idx loop_idx page o Hp Hs) as (Hj & Hl & Ho).
  unfold seen in Ho. rewrite flags_lookup in Ho
    by (try exact Hlen; change NUM_PAGES with 10%nat in *;
        change LOOPS_PER_PAGE with 15%nat in *; lia).
  destruct (offset_entry buf _) as [v |] eqn:Hv; cbn [fmap option_fmap option_map] in Ho.
  - unfold exists_flag in Ho. destruct (Z.eqb_spec v 0xFFFF) as [-> | Hne].
    + destruct o; [discriminate | done].
    + destruct o; [| discriminate]. split; [discriminate | congruence].
  - destruct o; [| discriminate]. split; discriminate.
Qed.

Lemma decode_presence_follows_flags_witness :
  @None LoopData = None ↔ offset_entry (replicate 336 255) (3 * NUM_PAGES + 4) = Some 0xFFFF.
Proof.
  apply (decode_presence_follows_flags (replicate 336 255) emptyPack 3 4 emptyPage None).
  - apply (bool_decide_unpack _). vm_compute. exact I.
  - vm_compute. reflexivity.
  - reflexivity.
  - reflexivity.
Defined.

Section trailing_bytes.

Lemma pop8_framed (l extra : list Z) (v : Z) (l' : list Z) :
  pop8 (mkByteArray l) = Ok (v, mkByteArray l') →
  pop8 (mkByteArray (l ++ extra)) = Ok (v, mkByteArray (l' ++ extra)).
Proof. destruct l as [| b l]; [discriminate |]. intros [= <- <-]. reflexivity. Qed.

Lemma pop16_framed (l extra : list Z) (v : Z) (l' : list Z) :
  pop16 (mkByteArray l) = Ok (v, mkByteArray l') →
  pop16 (mkByteArray (l ++ extra)) = Ok (v, mkByteArray (l' ++ extra)).
Proof.
  destruct l as [| lsb [| msb l]]; [discriminate.. |]. intros [= <- <-]. reflexivity.
Qed.

Lemma pop32_framed (l extra : list Z) (v : Z) (l' : list Z) :
  pop32 (mkByteArray l) = Ok (v, mkByteArray l') →
  pop32 (mkByteArray (l ++ extra)) = Ok (v, mkByteArray (l' ++ extra)).
Proof.
  destruct l as [| b0 [| b1 [| b2 [| b3 l]]]]; [discriminate.. |].
  intros [= <- <-]. reflexivity.
Qed.

Lemma foldM_framed {A X : Type} (f : A * ByteArray → X → result (A * ByteArray)) :
  framed f → framed (foldM f).
Proof.
  intros Hf a l xs. revert a l.
  induction xs as [| x xs IH]; intros a l a' l' extra H.
  - injection H as <- <-. reflexivity.
  - cbn [foldM] in *. apply bind_Ok_inv in H as ([a1 [l1]] & H1 & H).
    rewrite (Hf _ _ _ _ _ extra H1). simpl_bind. by apply IH.
Qed.

Lemma decode_event_framed : framed decode_event.
Proof.
  intros evs l i evs' l' extra H. unfold decode_event in *.
  apply bind_Ok_inv in H as ([b [l1]] & H1 & H).
  apply bind_Ok_inv in H as ([v [l2]] & H2 & H).
  apply bind_Ok_inv in H as ([t [l3]] & H3 & H).
  injection H as <- <-.
  rewrite (pop8_framed _ extra _ _ H1). simpl_bind.
  rewrite (pop8_framed _ extra _ _ H2). simpl_bind.
  rewrite (pop16_framed _ extra _ _ H3). reflexivity.
Qed.

Lemma decode_slot_framed (loopExists : list bool) (page_idx : nat) :
  framed (decode_slot loopExists page_idx).
Proof.
  intros ls l s ls' l' extra H. unfold decode_slot in *.
  destruct (loopExists !! _) as [[|] |].
  2: { injection H as <- <-. reflexivity. }
  all: apply bind_Ok_inv in H as ([lb [l1]] & H1 & H);
    apply bind_Ok_inv in H as ([n [l2]] & H2 & H);
    apply bind_Ok_inv in H as ([evs [l3]] & H3 & H);
    injection H as <- <-;
    rewrite (pop8_framed _ extra _ _ H1); simpl_bind;
    rewrite (pop8_framed _ extra _ _ H2); simpl_bind;
    rewrite (foldM_framed _ decode_event_framed _ _ _ _ _ extra H3); reflexivity.
Qed.

Lemma decode_page_framed (loopExists : list bool) : framed (decode_page loopExists).
Proof.
  intros ps l j ps' l' extra H. unfold decode_page in *.
  destruct (ps !! j) as [page |]; [| discriminate].
  apply bind_Ok_inv in H as ([new [l1]] & H1 & H). injection H as <- <-.
  rewrite (foldM_framed _ (decode_slot_framed loopExists j) _ _ _ _ _ extra H1).
  reflexivity.
Qed.

Lemma decode_page_id_framed : framed decode_page_id.
Proof.
  intros ps l i ps' l' extra H. unfold decode_page_id in *.
  apply bind_Ok_inv in H as ([v [l1]] & H1 & H). injection H as <- <-.
  rewrite (pop16_framed _ extra _ _ H1). reflexivity.
Qed.

Lemma decode_exists_framed : framed decode_exists.
Proof.
  intros fl l i fl' l' extra H. unfold decode_exists in *.
  apply bind_Ok_inv in H as ([v [l1]] & H1 & H). injection H as <- <-.
  rewrite (pop16_framed _ extra _ _ H1). reflexivity.
Qed.

End trailing_bytes.

Lemma samplesParser_decode_framed (buf extra : list Z) (pack : SamplePack) :
  samplesParser_decode buf = Ok pack →
  samplesParser_decode (buf ++ extra) = Ok pack.
Proof.
  intros H. unfold samplesParser_decode, ByteArray_from in *.
  apply bind_Ok_inv in H as ([r0 [l0]] & H0 & H).
  apply bind_Ok_inv in H as ([r1 [l1]] & H1 & H).
  apply bind_Ok_inv in H as ([r2 [l2]] & H2 & H).
  apply bind_Ok_inv in H as ([r3 [l3]] & H3 & H).
  apply bind_Ok_inv in H as ([ps [l4]] & H4 & H).
  apply bind_Ok_inv in H as ([fl [l5]] & H5 & H).
  apply bind_Ok_inv in H as ([ps' [l6]] & H6 & H).
  rewrite (pop32_framed _ extra _ _ H0). simpl_bind.
  rewrite (pop32_framed _ extra _ _ H1). simpl_bind.
  rewrite (pop32_framed _ extra _ _ H2). simpl_bind.
  rewrite (pop32_framed _ extra _ _ H3). simpl_bind.
  rewrite (foldM_framed _ decode_page_id_framed _ _ _ _ _ extra H4). simpl_bind.
  rewrite (foldM_framed _ decode_exists_framed _ _ _ _ _ extra H5). simpl_bind.
  rewrite (foldM_framed _ (decode_page_framed fl) _ _ _ _ _ extra H6). simpl_bind.
  exact H.
Qed.

(** X15.  [samplesParser_decode] never checks that it consumed the whole
    buffer: bytes appended to a buffer it decodes are ignored, and the
    same pack is returned. *)
Theorem decode_ignores_trailing_bytes (buf extra : list Z) (pack : SamplePack) :
  samplesParser_decode buf = Ok pack →
  samplesParser_decode (buf ++ extra) = Ok pack.
Proof. apply samplesParser_decode_framed. Qed.

Lemma decode_ignores_trailing_bytes_witness :
  samplesParser_decode paddedBuffer = Ok emptyPack.
Proof.
  apply (decode_ignores_trailing_bytes (replicate 336 255) [7] emptyPack).
  vm_compute. reflexivity.
Defined.

Section roundtrip_converse.

Implicit Types (pack : SamplePack) (sl : list (option LoopData)).

(** The decoder's test of an encoded offset tells whether the slot holds
    a loop: the offset of a loop is even, the sentinel is odd. *)
Lemma exists_flag_offset_of sl (k : nat) :
  exists_flag (offset_of sl k)
  = match sl !! k with Some (Some _) => true | _ => false end.
Proof.
  unfold offset_of, exists_flag.
  destruct (sl !! k) as [[loop |] |]; [| reflexivity..].
  destruct (slots_size_even (take k sl)) as [h Hh].
  destruct (Z.eqb_spec (slots_size (take k sl)) 0xFFFF); [lia | reflexivity].
Qed.

(** The flag the decoder looks up at index [k] of an encoded buffer. *)
Lemma seen_encoded pack buf (k : nat) :
  samplesParser_encode pack = Ok buf →
  (k < NUM_PAGES * LOOPS_PER_PAGE)%nat →
  seen (exists_flag <$> entries (take 300 (drop 36 buf))) k = present pack k.
Proof.
  intros Hbuf Hk.
  destruct (samplesParser_encode_layout pack buf Hbuf) as (_ & _ & _ & _ & _ & Hlen).
  pose proof (slots_size_nonneg (pack_slots pack)).
  unfold seen. rewrite flags_lookup by (try exact Hk; lia).
  rewrite (offset_entry_encoded pack buf k Hbuf Hk).
  cbn [fmap option_fmap option_map]. rewrite exists_flag_offset_of.
  unfold present. by destruct (pack_slots pack !! k) as [[loop |] |].
Qed.

Lemma roundtrip_presence_agrees pack buf :
  valid_pack pack →
  samplesParser_encode pack = Ok buf →
  samplesParser_decode buf = Ok pack →
  presence_agrees pack.
Proof.
  intros Hvalid Henc Hdec.
  destruct (valid_fields_shape pack (proj1 Hvalid)) as [Hlen Hshape].
  destruct (samplesParser_encode_layout pack buf Henc) as (_ & Hbytes & _).
  destruct (samplesParser_decode_shape buf pack Hbytes Hdec) as (_ & _ & Hseen).
  unfold presence_agrees. apply Forall_forall. intros j Hj. apply elem_of_seq in Hj.
  apply Forall_forall. intros s Hs. apply elem_of_seq in Hs.
  destruct (lookup_lt_is_Some_2 (pages pack) j ltac:(lia)) as [page Hpage].
  assert (Hpl : length (loops page) = LOOPS_PER_PAGE).
  { rewrite Forall_forall in Hshape. by eapply Hshape, list_elem_of_lookup_2. }
  destruct (lookup_lt_is_Some_2 (loops page) s ltac:(lia)) as [o Ho].
  destruct (Hseen j s page o Hpage Ho) as (_ & _ & Hflag).
  rewrite (seen_encoded pack buf _ Henc) in Hflag
    by (change NUM_PAGES with 10%nat in *; change LOOPS_PER_PAGE with 15%nat in *; lia).
  rewrite <- Hflag. symmetry. apply present_lookup.
  by apply (pack_slots_lookup pack j s page o).
Qed.

End roundtrip_converse.

(** X16.  A valid pack comes back from [samplesParser_decode] after
    [samplesParser_encode] exactly when, for every slot, the flag the
    decoder looks up at [page_idx * NUM_PAGES + loop_idx] equals the flag
    the encoder wrote for that slot at
    [page_idx * LOOPS_PER_PAGE + loop_idx]. *)
Theorem roundtrip_iff_presence_agrees (pack : SamplePack) :
  valid_pack pack →
  (∃ buf, samplesParser_encode pack = Ok buf ∧ samplesParser_decode buf = Ok pack)
  ↔ presence_agrees pack.
Proof.
  intros Hvalid. split.
  - intros (buf & Henc & Hdec). by apply (roundtrip_presence_agrees pack buf).
  - by apply roundtrip_when_presence_agrees.
Qed.

Lemma roundtrip_iff_presence_agrees_witness :
  (∃ buf, samplesParser_encode firstSlotPack = Ok buf
          ∧ samplesParser_decode buf = Ok firstSlotPack)
  ↔ presence_agrees firstSlotPack.
Proof.
  apply (roundtrip_iff_presence_agrees firstSlotPack).
  apply (bool_decide_unpack _). vm_compute. exact I.
Defined.

(** X17.  Where the decoder finds every flag, encoding and decoding a
    pack returns it with every [note] and [velocity] replaced by its
    seven low bits and nothing else changed, provided the pack so
    narrowed is valid. *)
Theorem roundtrip_narrows_note_velocity (pack : SamplePack) :
  valid_pack (mask_pack pack) → presence_agrees pack →
  (samplesParser_encode pack ≫= samplesParser_decode) = Ok (mask_pack pack).
Proof.
  intros Hvalid Hagree.
  destruct (masking_readback pack Hvalid Hagree) as (buf & -> & Hdec). exact Hdec.
Qed.

Lemma roundtrip_narrows_note_velocity_witness :
  (samplesParser_encode boundaryPack ≫= samplesParser_decode) = Ok (mask_pack boundaryPack).
Proof.
  apply (roundtrip_narrows_note_velocity boundaryPack).
  - apply (bool_decide_unpack _). vm_compute. exact I.
  - apply (bool_decide_unpack _). vm_compute. exact I.
Defined.

(** ** Reading fields *)

(** X18.  [pop16] and [pop32] reassemble the bytes at the front of the
    array low byte first, and [pop32] returns an unsigned value also
    when the high bit of the fourth byte is set; the bytes read are
    removed and nothing else. *)
Theorem pop_reads_little_endian (b0 b1 b2 b3 : Z) (rest : list Z) :
  byte b0 → byte b1 → byte b2 → byte b3 →
  pop8 (mkByteArray (b0 :: rest)) = Ok (b0, mkByteArray rest) ∧
  pop16 (mkByteArray (b0 :: b1 :: rest)) = Ok (b0 + 256 * b1, mkByteArray rest) ∧
  pop32 (mkByteArray (b0 :: b1 :: b2 :: b3 :: rest))
  = Ok (b0 + 256 * b1 + 65536 * b2 + 16777216 * b3, mkByteArray rest).
Proof.
  intros H0 H1 H2 H3. split; [reflexivity |]. split.
  - unfold pop16. cbn [data]. rewrite le16_value by assumption.
    do 2 f_equal. lia.
  - unfold pop32. cbn [data]. rewrite le32_value by assumption.
    do 2 f_equal. lia.
Qed.

Lemma pop_reads_little_endian_witness :
  pop32 (mkByteArray [0xEF; 0xBE; 0xAD; 0xDE; 1]) = Ok (0xDEADBEEF, mkByteArray [1]).
Proof.
  apply (pop_reads_little_endian 0xEF 0xBE 0xAD 0xDE [1]); unfold byte; lia.
Defined.

(** ** How the decoder fails *)

Section decoder_errors.

Lemma bind_Throw_inv {A B : Type} (m : result A) (k : A → result B) (e : exn) :
  m ≫= k = Throw e → m = Throw e ∨ ∃ a, m = Ok a ∧ k a = Throw e.
Proof. destruct m as [a | e']; simpl; [eauto | intros [= ->]; by left]. Qed.

Lemma pop8_underflow d e : pop8 d = Throw e → is_underflow e = true.
Proof. unfold pop8. destruct (data d); [| discriminate]. by intros [= <-]. Qed.

Lemma pop16_underflow d e : pop16 d = Throw e → is_underflow e = true.
Proof.
  unfold pop16. destruct (data d) as [| ? [| ? ?]]; [| | discriminate]; by intros [= <-].
Qed.

Lemma foldM_underflow {A S : Type} (f : S → A → result S) :
  (∀ s x e, f s x = Throw e → is_underflow e = true) →
  ∀ l s e, foldM f s l = Throw e → is_underflow e = true.
Proof.
  intros Hf l. induction l as [| x l IH]; intros s e H; [discriminate |].
  cbn [foldM] in H. apply bind_Throw_inv in H as [H | (s1 & _ & H)]; eauto.
Qed.

Lemma decode_event_underflow st (i : nat) e :
  decode_event st i = Throw e → is_underflow e = true.
Proof.
  destruct st as [evs d]. unfold decode_event. intros H.
  apply bind_Throw_inv in H as [H | ([b d1] & _ & H)]; [by eapply pop8_underflow |].
  apply bind_Throw_inv in H as [H | ([v d2] & _ & H)]; [by eapply pop8_underflow |].
  apply bind_Throw_inv in H as [H | ([t d3] & _ & H)]; [by eapply pop16_underflow |].
  discriminate.
Qed.

Lemma decode_slot_underflow (flags : list bool) (p : nat) st (s : nat) e :
  decode_slot flags p st s = Throw e → is_underflow e = true.
Proof.
  destruct st as [ls d]. unfold decode_slot. intros H.
  destruct (flags !! _) as [[|] |]; [| discriminate |].
  all: apply bind_Throw_inv in H as [H | ([lb d1] & _ & H)]; [by eapply pop8_underflow |];
    apply bind_Throw_inv in H as [H | ([n d2] & _ & H)]; [by eapply pop8_underflow |];
    apply bind_Throw_inv in H as [H | ([evs d3] & _ & H)]; [| discriminate];
    by eapply (foldM_underflow decode_event), H; apply decode_event_underflow.
Qed.

(** The page loop finds every page it asks for. *)
Lemma decode_pages_underflow (flags : list bool) (n : nat) : ∀ (p : nat) ps d e,
  (p + n ≤ length ps)%nat →
  foldM (decode_page flags) (ps, d) (seq p n) = Throw e → is_underflow e = true.
Proof.
  induction n as [| n IH]; intros p ps d e Hlen H; [discriminate |].
  cbn [seq foldM] in H.
  destruct (lookup_lt_is_Some_2 ps p ltac:(lia)) as [page Hpage].
  rewrite (decode_page_lookup flags ps d p page Hpage) in H.
  apply bind_Throw_inv in H as [H | ([ps1 d1] & H1 & H)].
  - apply bind_Throw_inv in H as [H | ([new d1] & _ & H)]; [| discriminate].
    eapply (foldM_underflow (decode_slot flags p)), H. apply decode_slot_underflow.
  - apply bind_Ok_inv in H1 as ([new d2] & _ & H1). injection H1 as <- <-.
    eapply IH; [| exact H]. rewrite length_insert. lia.
Qed.

Lemma length_entries (m : nat) : ∀ l : list Z,
  length l = (2 * m)%nat → length (entries l) = m.
Proof.
  induction m as [| m IH]; intros l Hl.
  - by destruct l.
  - destruct l as [| lsb [| msb l]]; [simpl in Hl; lia.. |].
    cbn [entries length]. f_equal. apply IH. simpl in Hl. lia.
Qed.

Lemma samplesParser_decode_underflow (buf : list Z) (e : exn) :
  samplesParser_decode buf = Throw e → is_underflow e = true.
Proof.
  intros H. destruct (decide (336 ≤ length buf)%nat) as [Hlen | Hlen].
  - destruct (samplesParser_decode_split buf Hlen) as (r0 & r1 & r2 & r3 & _ & Heq).
    rewrite Heq in H. apply bind_Throw_inv in H as [H | ([ps d] & _ & H)]; [| discriminate].
    apply (decode_pages_underflow _ _ _ _ _ _) in H; [exact H |].
    rewrite length_fmap, (length_entries 10); [reflexivity |].
    rewrite length_take, length_drop. lia.
  - rewrite samplesParser_decode_short in H by lia. by injection H as <-.
Qed.

End decoder_errors.

(** X19.  Whatever the buffer, [samplesParser_decode] fails in one way
    only: by an underflow of [pop8], [pop16] or [pop32].  It never
    raises a [TypeError] for a missing page and never one of the range
    errors of the push side. *)
Theorem decode_fails_only_by_underflow (buf : list Z) (e : exn) :
  samplesParser_decode buf = Throw e → is_underflow e = true.
Proof. apply samplesParser_decode_underflow. Qed.

Lemma decode_fails_only_by_underflow_witness : is_underflow RangeError_pop_empty = true.
Proof.
  apply (decode_fails_only_by_underflow (replicate 36 255 ++ [0; 0] ++ replicate 298 255)).
  vm_compute. reflexivity.
Defined.

(** ** The header and the page ids through a round trip *)

Section header_roundtrip.

Implicit Types (pack : SamplePack).

(** The decoder on an encoded buffer, up to the page loop. *)
Lemma samplesParser_decode_image pack :
  (NUM_PAGES ≤ length (pages pack))%nat → pack_encodable pack →
  samplesParser_decode (pack_image pack)
  = foldM (decode_page (exists_flag <$> entries (offsets_bytes 0 (pack_slots pack))))
          ((λ v, mkPage v []) <$> (id <$> take NUM_PAGES (pages pack)),
           mkByteArray (data_bytes (pack_slots pack)))
          (seq 0 NUM_PAGES)
    ≫= λ '(ps, d), Ok (mkSamplePack (Some (default 0 (reserved0 pack)))
                                     (Some (default 0 (reserved1 pack)))
                                     (Some (default 0 (reserved2 pack)))
                                     (Some (default 0 (reserved3 pack))) ps).
Proof.
  intros Hlen ((H0 & H1 & H2 & H3) & Hids & Hsl).
  unfold samplesParser_decode, ByteArray_from, pack_image, header_bytes.
  rewrite <- !app_assoc.
  rewrite pop32_le32 by exact H0. simpl_bind.
  rewrite pop32_le32 by exact H1. simpl_bind.
  rewrite pop32_le32 by exact H2. simpl_bind.
  rewrite pop32_le32 by exact H3. simpl_bind.
  rewrite (decode_page_ids_loop NUM_PAGES 0 (ids_bytes pack))
    by (by apply length_ids_bytes).
  simpl_bind.
  rewrite (decode_exists_loop (NUM_PAGES * LOOPS_PER_PAGE) 0
             (offsets_bytes 0 (pack_slots pack)) (data_bytes (pack_slots pack)))
    by (rewrite length_offsets_bytes, length_pack_slots by exact Hlen; reflexivity).
  simpl_bind. cbn [app].
  unfold ids_bytes. by rewrite (entries_ids _ Hids).
Qed.

End header_roundtrip.

(** X20.  Whatever happens to the loops, a pack decoded from an encoded
    buffer has the reserved words of the encoded pack, a missing one
    read as 0, and the ids of its first ten pages, in order. *)
Theorem roundtrip_keeps_header_and_ids (pack : SamplePack) (buf : list Z)
    (pack' : SamplePack) :
  samplesParser_encode pack = Ok buf →
  samplesParser_decode buf = Ok pack' →
  reserved0 pack' = Some (default 0 (reserved0 pack)) ∧
  reserved1 pack' = Some (default 0 (reserved1 pack)) ∧
  reserved2 pack' = Some (default 0 (reserved2 pack)) ∧
  reserved3 pack' = Some (default 0 (reserved3 pack)) ∧
  id <$> pages pack' = id <$> take NUM_PAGES (pages pack).
Proof.
  intros Hbuf Hdec. pose proof (samplesParser_encode_Ok_pages pack buf Hbuf) as Hlen.
  destruct (encodes_Ok_inv _ _ _ _ (samplesParser_encode_spec pack Hlen) Hbuf)
    as [Henc ->].
  pose proof (pack_image_bytes pack Henc) as Hbytes.
  rewrite (Uint8Array_from_bytes _ Hbytes) in Hdec.
  rewrite (samplesParser_decode_image pack Hlen Henc) in Hdec.
  apply bind_Ok_inv in Hdec as ([ps' d'] & Hloop & Hret). injection Hret as <-.
  cbn [reserved0 reserved1 reserved2 reserved3 pages].
  do 4 (split; [reflexivity |]).
  unfold pack_image in Hbytes.
  apply Forall_app in Hbytes as [_ Hbytes]. apply Forall_app in Hbytes as [_ Hbytes].
  apply Forall_app in Hbytes as [_ Hbytes].
  destruct (decode_pages_shape _ NUM_PAGES 0 _ _ (mkByteArray _) _ Hbytes Hloop)
    as (Hlen' & _ & _ & _ & Hin).
  rewrite !length_fmap, length_take in Hlen'.
  apply list_eq. intros j. rewrite list_lookup_fmap.
  destruct ((id <$> take NUM_PAGES (pages pack)) !! j) as [v |] eqn:Hv.
  - assert (Hj : (j < NUM_PAGES)%nat).
    { apply lookup_lt_Some in Hv. rewrite length_fmap, length_take in Hv. lia. }
    destruct (Hin j (mkPage v []) ltac:(by rewrite list_lookup_fmap, Hv) ltac:(lia))
      as (new & -> & _).
    reflexivity.
  - apply lookup_ge_None in Hv. rewrite length_fmap, length_take in Hv.
    rewrite lookup_ge_None_2 by lia. reflexivity.
Qed.

Lemma roundtrip_keeps_header_and_ids_witness :
  id <$> pages (set_loop 1 5 (Some beat) emptyPack) = id <$> take NUM_PAGES (pages onePack).
Proof.
  apply (roundtrip_keeps_header_and_ids onePack (pack_image onePack)).
  - vm_compute. reflexivity.
  - vm_compute. reflexivity.
Defined.

(** ** How many bytes the decoder reads *)

Section decoder_consumption.

Lemma foldM_metered {A X : Type} (size : A → Z)
    (f : A * ByteArray → X → result (A * ByteArray)) :
  framed f → metered size f → metered size (foldM f).
Proof.
  intros Hfr Hm a l xs. revert a l.
  induction xs as [| x xs IH]; intros a l a' l' H.
  - injection H as <- <-. exists []. split; [reflexivity |]. split; [simpl; lia | reflexivity].
  - cbn [foldM] in H. apply bind_Ok_inv in H as ([a1 [l1]] & H1 & H).
    destruct (Hm _ _ _ _ _ H1) as (u1 & -> & Hs1 & Hu1).
    destruct (IH _ _ _ _ H) as (u2 & -> & Hs2 & Hu2).
    exists (u1 ++ u2). split; [by rewrite app_assoc |].
    split; [rewrite length_app; lia |].
    cbn [foldM]. rewrite (Hfr _ _ _ _ _ u2 Hu1). simpl_bind. exact Hu2.
Qed.

Lemma decode_event_metered :
  metered (λ evs : list NoteEventTime, 4 * Z.of_nat (length evs)) decode_event.
Proof.
  intros evs l i evs' l' H. unfold decode_event in H.
  destruct l as [| b0 [| b1 [| b2 [| b3 l]]]];
    cbn [pop8 pop16 data mbind result_mbind result_bind] in H; try discriminate.
  injection H as <- <-. exists [b0; b1; b2; b3].
  split; [reflexivity |]. split; [rewrite length_app; simpl; lia | reflexivity].
Qed.

Lemma decode_slot_metered (flags : list bool) (p : nat) :
  metered slots_size (decode_slot flags p).
Proof.
  intros ls l s ls' l' H. unfold decode_slot in *.
  destruct (flags !! _) as [[|] |].
  2: { injection H as <- <-. exists []. split; [reflexivity |].
       split; [rewrite slots_size_app; simpl; lia | reflexivity]. }
  all: destruct l as [| lb [| n l]];
    cbn [pop8 data mbind result_mbind result_bind] in H; try discriminate;
    apply bind_Ok_inv in H as ([evs [l3]] & H3 & H); injection H as <- <-;
    destruct (foldM_metered _ _ decode_event_framed decode_event_metered _ _ _ _ _ H3)
      as (u & -> & Hs & Hu);
    exists (lb :: n :: u); split; [reflexivity |];
    (split; [rewrite slots_size_app; unfold slots_size at 2, loop_size;
             cbn [foldr from_option events length] in *; lia |]);
    cbn [pop8 data mbind result_mbind result_bind]; by rewrite Hu.
Qed.

Lemma pages_size_insert (ps : list Page) (j : nat) (page page' : Page) :
  ps !! j = Some page →
  pages_size (<[j := page']> ps)
  = pages_size ps - slots_size (loops page) + slots_size (loops page').
Proof.
  intros Hj. unfold pages_size.
  rewrite insert_take_drop by (by eapply lookup_lt_Some).
  rewrite <- (take_drop_middle ps j page Hj) at 3.
  rewrite !fmap_app, !fmap_cons, !concat_app, !concat_cons, !slots_size_app. lia.
Qed.

Lemma decode_page_metered (flags : list bool) : metered pages_size (decode_page flags).
Proof.
  intros ps l j ps' l' H.
  destruct (ps !! j) as [page |] eqn:Hj; [| unfold decode_page in H; by rewrite Hj in H].
  rewrite (decode_page_lookup flags ps _ j page Hj) in H.
  apply bind_Ok_inv in H as ([new [l1]] & H1 & H). injection H as <- <-.
  destruct (foldM_metered _ _ (decode_slot_framed flags j) (decode_slot_metered flags j)
              _ _ _ _ _ H1) as (u & -> & Hs & Hu).
  exists u. split; [reflexivity |].
  split; [rewrite (pages_size_insert ps j page _ Hj); cbn [loops]; lia |].
  rewrite (decode_page_lookup flags ps _ j page Hj), Hu. reflexivity.
Qed.

Lemma pages_size_fresh (vs : list Z) : pages_size ((λ v, mkPage v []) <$> vs) = 0.
Proof. unfold pages_size. induction vs as [| v vs IH]; [reflexivity | exact IH]. Qed.

(** The decoder after the 36 bytes of header and page ids, with the
    pages it starts from. *)
Lemma samplesParser_decode_unfold (pre : list Z) :
  length pre = 36%nat →
  ∃ r0 r1 r2 r3 : Z,
    ∀ offs rest,
      length offs = (2 * (NUM_PAGES * LOOPS_PER_PAGE))%nat →
      samplesParser_decode (pre ++ offs ++ rest)
      = foldM (decode_page (exists_flag <$> entries offs))
              ((λ v, mkPage v []) <$> entries (drop 16 pre), mkByteArray rest)
              (seq 0 NUM_PAGES)
        ≫= λ '(ps, d), Ok (mkSamplePack (Some r0) (Some r1) (Some r2) (Some r3) ps).
Proof.
  intros Hpre.
  do 16 (destruct pre as [| ? pre]; [discriminate |]).
  assert (Hids : length pre = (2 * NUM_PAGES)%nat)
    by (change NUM_PAGES with 10%nat; simpl in Hpre; lia).
  do 4 eexists. intros offs rest Hoffs.
  unfold samplesParser_decode, ByteArray_from.
  cbn [app pop32 data mbind result_mbind result_bind].
  rewrite (decode_page_ids_loop _ 0 pre (offs ++ rest) [] Hids). simpl_bind.
  rewrite (decode_exists_loop _ 0 offs rest [] Hoffs). simpl_bind.
  cbn [app]. reflexivity.
Qed.

(** A decoded pack tells how much of the buffer was read. *)
Lemma samplesParser_decode_consumes (buf : list Z) (pack : SamplePack) :
  samplesParser_decode buf = Ok pack →
  336 + getPackSize pack <= Z.of_nat (length buf) ∧
  samplesParser_decode (take (Z.to_nat (336 + getPackSize pack)) buf) = Ok pack.
Proof.
  intros H.
  assert (Hlen : (336 ≤ length buf)%nat).
  { destruct (decide (336 ≤ length buf)%nat) as [? | Hlt]; [done |].
    rewrite samplesParser_decode_short in H by lia. discriminate. }
  assert (Hbuf : buf = take 36 buf ++ take 300 (drop 36 buf) ++ drop 336 buf).
  { rewrite <- (take_drop 36 buf) at 1. f_equal.
    rewrite <- (take_drop 300 (drop 36 buf)) at 1. f_equal. by rewrite drop_drop. }
  destruct (samplesParser_decode_unfold (take 36 buf))
    as (r0 & r1 & r2 & r3 & Hun); [rewrite length_take; lia |].
  assert (Hoffs : length (take 300 (drop 36 buf)) = (2 * (NUM_PAGES * LOOPS_PER_PAGE))%nat).
  { rewrite length_take, length_drop.
    change NUM_PAGES with 10%nat. change LOOPS_PER_PAGE with 15%nat. lia. }
  rewrite Hbuf, (Hun _ _ Hoffs) in H.
  apply bind_Ok_inv in H as ([ps' [l']] & Hloop & Hret). injection Hret as <-.
  destruct (foldM_metered _ _ (decode_page_framed _) (decode_page_metered _) _ _ _ _ _ Hloop)
    as (used & Hrest & Hsize & Hused).
  rewrite pages_size_fresh in Hsize.
  rewrite getPackSize_concat. cbn [pages]. fold (pages_size ps').
  replace (336 + pages_size ps') with (Z.of_nat (336 + length used)) by lia.
  rewrite Nat2Z.id. split.
  - rewrite Hbuf, Hrest, !length_app, length_take, Hoffs.
    change NUM_PAGES with 10%nat. change LOOPS_PER_PAGE with 15%nat. lia.
  - assert (Htake : take (336 + length used) buf
                    = take 36 buf ++ take 300 (drop 36 buf) ++ used).
    { rewrite Hbuf at 1. rewrite Hrest, !app_assoc.
      apply take_app_length'. rewrite !length_app, length_take, Hoffs.
      change NUM_PAGES with 10%nat. change LOOPS_PER_PAGE with 15%nat. lia. }
    rewrite Htake, (Hun _ _ Hoffs), Hused. reflexivity.
Qed.

End decoder_consumption.

(** X21.  A pack [samplesParser_decode] returns tells how much of the
    buffer was read: the 336 bytes of header, page ids and offset table
    and [getPackSize] of the pack.  Any prefix of the buffer of at least
    that length decodes to the same pack, and any shorter prefix raises
    an underflow. *)
Theorem decode_reads_exactly_pack_size (buf : list Z) (pack : SamplePack) (n : nat) :
  samplesParser_decode buf = Ok pack →
  336 + getPackSize pack <= Z.of_nat (length buf) ∧
  (336 + getPackSize pack <= Z.of_nat n →
   samplesParser_decode (take n buf) = Ok pack) ∧
  (Z.of_nat n < 336 + getPackSize pack →
   ∃ e, samplesParser_decode (take n buf) = Throw e ∧ is_underflow e = true).
Proof.
  intros H. destruct (samplesParser_decode_consumes buf pack H) as [Hle Hmin].
  split; [exact Hle |]. split.
  - intros Hn. rewrite <- (take_drop (Z.to_nat (336 + getPackSize pack)) (take n buf)).
    rewrite take_take, Nat.min_l by lia.
    by apply samplesParser_decode_framed.
  - intros Hn. destruct (samplesParser_decode (take n buf)) as [pack2 | e] eqn:Hdec.
    + exfalso.
      pose proof (samplesParser_decode_framed _ (drop n buf) _ Hdec) as Hfull.
      rewrite take_drop, H in Hfull. injection Hfull as <-.
      destruct (samplesParser_decode_consumes _ _ Hdec) as [Hle2 _].
      rewrite length_take in Hle2. lia.
    + exists e. split; [reflexivity |]. by apply (samplesParser_decode_underflow (take n buf)).
Qed.

Lemma decode_reads_exactly_pack_size_witness :
  336 + getPackSize firstSlotPack <= Z.of_nat (length (pack_image firstSlotPack)) ∧
  (336 + getPackSize firstSlotPack <= Z.of_nat 340 →
   samplesParser_decode (take 340 (pack_image firstSlotPack)) = Ok firstSlotPack) ∧
  (Z.of_nat 340 < 336 + getPackSize firstSlotPack →
   ∃ e, samplesParser_decode (take 340 (pack_image firstSlotPack)) = Throw e
        ∧ is_underflow e = true).
Proof.
  apply (decode_reads_exactly_pack_size (pack_image firstSlotPack) firstSlotPack 340).
  vm_compute. reflexivity.
Defined.

(** * Short [loops] arrays in the encoded buffer *)

Section short_loops.

Implicit Types (pack : SamplePack) (page : Page).

(** Slot [s] of page [i] in the traversal, whatever the lengths of the
    arrays. *)
Lemma pack_slots_lookup_slot_at pack (i s : nat) page :
  (i < NUM_PAGES)%nat → (s < LOOPS_PER_PAGE)%nat →
  pages pack !! i = Some page →
  pack_slots pack !! (i * LOOPS_PER_PAGE + s)%nat = Some (slot_at page s).
Proof.
  intros Hi Hs Hp. unfold pack_slots.
  assert (Hreg : Forall (λ l : list (option LoopData), length l = LOOPS_PER_PAGE)
                   (page_slots <$> take NUM_PAGES (pages pack))).
  { apply Forall_fmap, Forall_forall. intros p _. apply length_page_slots. }
  apply (concat_lookup_regular LOOPS_PER_PAGE _ Hreg i s (page_slots page)).
  - by rewrite list_lookup_fmap, lookup_take_lt, Hp by exact Hi.
  - unfold page_slots. by rewrite list_lookup_fmap, lookup_seq_lt by exact Hs.
Qed.

Lemma data_bytes_replicate_None (n : nat) : data_bytes (replicate n None) = [].
Proof. induction n as [| n IH]; [reflexivity | exact IH]. Qed.

(** The loop data of a page is that of the loops its array holds. *)
Lemma data_bytes_page_slots page :
  data_bytes (page_slots page) = data_bytes (take LOOPS_PER_PAGE (loops page)).
Proof.
  by rewrite page_slots_take_pad, data_bytes_app, data_bytes_replicate_None, app_nil_r.
Qed.

Lemma data_bytes_pack_slots pack :
  data_bytes (pack_slots pack)
  = concat ((λ page, data_bytes (take LOOPS_PER_PAGE (loops page)))
              <$> take NUM_PAGES (pages pack)).
Proof.
  unfold pack_slots. induction (take NUM_PAGES (pages pack)) as [| page pgs IH];
    [reflexivity |].
  by rewrite !fmap_cons, !concat_cons, data_bytes_app, IH, data_bytes_page_slots.
Qed.

(** Padding a page changes nothing the encoder does. *)
Lemma samplesParser_encode_pad_page pack (i : nat) page :
  pages pack !! i = Some page →
  samplesParser_encode (set_page i (pad_page page) pack) = samplesParser_encode pack.
Proof.
  intros Hi. unfold samplesParser_encode, set_page.
  cbn [reserved0 reserved1 reserved2 reserved3 pages].
  set (pgs' := <[i := pad_page page]> (pages pack)).
  assert (Hids : ∀ d j, encode_page_id (mkSamplePack (reserved0 pack) (reserved1 pack)
                          (reserved2 pack) (reserved3 pack) pgs') d j
                        = encode_page_id pack d j).
  { intros d j. unfold encode_page_id. cbn [pages]. subst pgs'.
    destruct (decide (i = j)) as [<- | Hne].
    - rewrite list_lookup_insert_eq by (by eapply lookup_lt_Some). by rewrite Hi.
    - by rewrite list_lookup_insert_ne. }
  assert (Hpages : ∀ st j, encode_page (mkSamplePack (reserved0 pack) (reserved1 pack)
                          (reserved2 pack) (reserved3 pack) pgs') st j
                        = encode_page pack st j).
  { intros st j. unfold encode_page. cbn [pages]. subst pgs'.
    destruct (decide (i = j)) as [<- | Hne].
    - rewrite list_lookup_insert_eq by (by eapply lookup_lt_Some). rewrite Hi.
      apply foldM_ext. intros st' s _.
      by rewrite !encode_slot_slot_at, slot_at_pad_page.
    - by rewrite list_lookup_insert_ne. }
  destruct (push32_opt _ _) as [d0 | e]; simpl_bind; [| reflexivity].
  destruct (push32_opt _ _) as [d1 | e]; simpl_bind; [| reflexivity].
  destruct (push32_opt _ _) as [d2 | e]; simpl_bind; [| reflexivity].
  destruct (push32_opt _ _) as [d3 | e]; simpl_bind; [| reflexivity].
  rewrite (foldM_ext _ (encode_page_id pack)) by (intros; apply Hids).
  rewrite (foldM_ext _ (encode_page pack)) by (intros; apply Hpages).
  reflexivity.
Qed.

(** The offset entry of a slot past the end of its page's array, in the
    buffer the encoder returns. *)
Lemma samplesParser_encode_missing_slot pack buf (i loop_idx : nat) page :
  samplesParser_encode pack = Ok buf →
  (i < NUM_PAGES)%nat → pages pack !! i = Some page →
  (length (loops page) ≤ loop_idx < LOOPS_PER_PAGE)%nat →
  offset_entry buf (i * LOOPS_PER_PAGE + loop_idx) = Some 0xFFFF.
Proof.
  intros Hbuf Hi Hp [Hge Hlt].
  rewrite (offset_entry_encoded pack buf _ Hbuf)
    by (change NUM_PAGES with 10%nat in *; change LOOPS_PER_PAGE with 15%nat in *; lia).
  unfold offset_of. rewrite (pack_slots_lookup_slot_at pack i loop_idx page Hi Hlt Hp).
  unfold slot_at. by rewrite (lookup_ge_None_2 (loops page)) by exact Hge.
Qed.

(** The loop-data segment of the buffer the encoder returns. *)
Lemma samplesParser_encode_data pack buf :
  samplesParser_encode pack = Ok buf →
  drop 336 buf
  = concat ((λ page, data_bytes (take LOOPS_PER_PAGE (loops page)))
              <$> take NUM_PAGES (pages pack)).
Proof.
  intros Hbuf.
  destruct (samplesParser_encode_layout pack buf Hbuf) as (-> & _ & H16 & H20 & H300 & _).
  rewrite <- data_bytes_pack_slots, !app_assoc.
  apply drop_app_length'. rewrite !length_app, H16, H20, H300. reflexivity.
Qed.

End short_loops.

(** C10.  For every page whose [loops] array has fewer than 15 entries,
    [samplesParser_encode] treats a missing trailing slot like a [null]
    one.  The loop body appends the sentinel 0xFFFF to the offset table
    and nothing to the loop data.  In the buffer the encoder returns
    for a pack that has the page among its first ten, the offset entry
    of every missing slot is 0xFFFF and the loop-data segment holds the
    bytes of the loops the arrays hold and no others.  Encoding the
    pack equals encoding it with the page padded with [null]s to 15
    entries, and returns a buffer whenever the padded pack is valid. *)
Theorem short_loops_read_as_null (page : Page) :
  (length (loops page) < LOOPS_PER_PAGE)%nat →
  (∀ loopOffsets loopData (loop_idx : nat),
     (length (loops page) ≤ loop_idx)%nat →
     encode_slot page (loopOffsets, loopData) loop_idx
     = Ok (mkByteArray (data loopOffsets ++ [0xFF; 0xFF]), loopData)) ∧
  length (loops (pad_page page)) = LOOPS_PER_PAGE ∧
  ∀ pack (i : nat),
    pages pack !! i = Some page →
    samplesParser_encode (set_page i (pad_page page) pack) = samplesParser_encode pack ∧
    (valid_pack (set_page i (pad_page page) pack) →
     ∃ buf, samplesParser_encode pack = Ok buf) ∧
    ∀ buf,
      (i < NUM_PAGES)%nat →
      samplesParser_encode pack = Ok buf →
      (∀ loop_idx : nat,
         (length (loops page) ≤ loop_idx < LOOPS_PER_PAGE)%nat →
         offset_entry buf (i * LOOPS_PER_PAGE + loop_idx) = Some 0xFFFF) ∧
      drop 336 buf
      = concat ((λ page, data_bytes (take LOOPS_PER_PAGE (loops page)))
                  <$> take NUM_PAGES (pages pack)).
Proof.
  intros Hshort. split; [| split].
  - intros lo ld loop_idx Hidx. unfold encode_slot.
    by rewrite (lookup_ge_None_2 (loops page)) by lia.
  - unfold pad_page. cbn [loops]. rewrite length_app, length_replicate. lia.
  - intros pack i Hi. split; [by apply samplesParser_encode_pad_page |]. split.
    + intros Hvalid. rewrite <- (samplesParser_encode_pad_page pack i page Hi).
      destruct (valid_fields_shape _ (proj1 Hvalid)) as [Hlen _].
      eexists.
      apply (encodes_Ok _ _ _ (samplesParser_encode_spec _ ltac:(rewrite Hlen; done))).
      by apply valid_pack_encodable.
    + intros buf Hlt Hbuf. split.
      * intros loop_idx Hidx.
        by apply (samplesParser_encode_missing_slot pack buf i loop_idx page).
      * by apply samplesParser_encode_data.
Qed.

Lemma short_loops_read_as_null_witness :
  samplesParser_encode (set_page 1 (pad_page shortPage) shortPack)
  = samplesParser_encode shortPack ∧
  (∃ buf, samplesParser_encode shortPack = Ok buf) ∧
  offset_entry (pack_image shortPack) (1 * LOOPS_PER_PAGE + 1) = Some 0xFFFF ∧
  offset_entry (pack_image shortPack) (1 * LOOPS_PER_PAGE + 14) = Some 0xFFFF ∧
  drop 336 (pack_image shortPack)
  = concat ((λ page, data_bytes (take LOOPS_PER_PAGE (loops page)))
              <$> take NUM_PAGES (pages shortPack)).
Proof.
  destruct (short_loops_read_as_null shortPage ltac:(vm_compute; lia)) as (_ & _ & H).
  destruct (H shortPack 1%nat eq_refl) as (Heq & Hok & Hbuf).
  destruct (Hbuf (pack_image shortPack) ltac:(vm_compute; lia)
              ltac:(vm_compute; reflexivity)) as [Hent Hdata].
  split; [exact Heq |].
  split; [apply Hok; apply (bool_decide_unpack _); vm_compute; exact I |].
  split; [apply Hent; vm_compute; lia |].
  split; [apply Hent; vm_compute; lia | exact Hdata].
Defined.
